(** * MSRF_Classifier: a regime-switching random-forest ensemble

    Shallow embedding of [MSRF_Classifier] from [python/export_model.py]:
    the emission scorer ([_get_expert_confidence]), the log-domain
    forward-backward pass ([_forward_backward]), the regime initialiser
    ([_init_params]), the EM loop ([fit]) and the blend ([predict_proba]).

    Numbers.  numpy's float64 values are idealised as mathematical reals
    ([R]); rounding, overflow, [inf] and [nan] have no counterpart.
    [np.log] is [ln] and [/] is real division: both agree with numpy
    wherever numpy's result is finite (positive argument, non-zero
    divisor).  [scipy.special.logsumexp] is the logarithm of the sum of the
    exponentials.

    Arrays.  A 1-D array is a list, a 2-D array a list of rows.  The regime
    axis always has the width [n_states] the code allocates, so a row is
    built by index over [0 .. n_states-1] and an entry is read with [nth];
    the time axis is where the code can run out of rows, and reads along
    it are checked and raise [IndexError] as Python does.  A matrix with
    rows of another width, on which numpy broadcasts or raises, is outside
    the model.  The arrays a caller puts in a Python list ([ndarray]) are
    1-D or 2-D, and [np.vstack] compares their column counts.

    Strings.  A mode is a string of ASCII characters; [str.lower] is
    modelled on those.

    Black boxes.  scikit-learn's [KMeans] and [RandomForestClassifier]
    are taken through the interface [Learner]. *)

From Stdlib Require Import String Reals Lra Lia Bool Arith List.
Import ListNotations.
Open Scope R_scope.

(** ** Exceptions and results *)

Inductive exn : Type :=
| ValueError (msg : string)
| IndexError
| TypeError.

Inductive result (A : Type) : Type :=
| Ok (a : A)
| Raise (e : exn).

Arguments Ok {A} a.
Arguments Raise {A} e.

Definition bind {A B : Type} (r : result A) (f : A -> result B) : result B :=
  match r with
  | Ok a => f a
  | Raise e => Raise e
  end.

Notation "x <- c ;; k" := (bind c (fun x => k))
  (at level 61, c at next level, right associativity).
Notation "' pat <- c ;; k" := (bind c (fun x => match x with pat => k end))
  (at level 61, pat pattern, c at next level, right associativity).

(** [[f(x) for x in l]], stopping at the first exception. *)
Fixpoint mapM {A B : Type} (f : A -> result B) (l : list A) : result (list B) :=
  match l with
  | [] => Ok []
  | a :: l' => b <- f a ;; bs <- mapM f l' ;; Ok (b :: bs)
  end.

(** [for x in l: s = body(x, s)], stopping at the first exception. *)
Fixpoint forM {A S : Type} (l : list A) (body : A -> S -> result S) (s : S)
  : result S :=
  match l with
  | [] => Ok s
  | a :: l' => s' <- body a s ;; forM l' body s'
  end.

(** ** Arrays *)

Definition Mat : Type := list (list R).

(** [np.zeros(n)] and [np.zeros((n, k))]. *)
Definition zeros (n : nat) : list R := repeat 0 n.
Definition zeros2 (n k : nat) : Mat := repeat (zeros k) n.

(** In-place store [l[i] = v] for [i] in range. *)
Fixpoint set_nth {A : Type} (i : nat) (v : A) (l : list A) : list A :=
  match l, i with
  | [], _ => []
  | _ :: t, O => v :: t
  | h :: t, S i' => h :: set_nth i' v t
  end.

(** [l[i]] along the time axis. *)
Definition getitem {A : Type} (l : list A) (i : nat) : result A :=
  match nth_error l i with
  | Some a => Ok a
  | None => Raise IndexError
  end.

(** [l[i] = v] along the time axis. *)
Definition setitem {A : Type} (l : list A) (i : nat) (v : A)
  : result (list A) :=
  if Nat.ltb i (length l) then Ok (set_nth i v l) else Raise IndexError.

(** [a[lo : lo + len]]: Python slices clip silently. *)
Definition slice {A : Type} (lo len : nat) (l : list A) : list A :=
  firstn len (skipn lo l).

(** [a[lo : lo + len] = rows] for a block of [len] rows: numpy refuses a
    block that does not fit the (clipped) slice. *)
Definition set_slice {A : Type} (lo len : nat) (rows l : list A)
  : result (list A) :=
  if Nat.leb (lo + len) (length l)
  then Ok (firstn lo l ++ rows ++ skipn (lo + len) l)
  else Raise (ValueError "could not broadcast input array").

(** [M[i, j]], [M[:, j]] and [M[i, j] = v] on the regime axes. *)
Definition get2 (M : Mat) (i j : nat) : R := nth j (nth i M []) 0.
Definition column (j : nat) (M : Mat) : list R :=
  map (fun row => nth j row 0) M.
Definition set2 (i j : nat) (v : R) (M : Mat) : Mat :=
  set_nth i (set_nth j v (nth i M [])) M.

(** [M[:, k] = col]. *)
Fixpoint set_column (k : nat) (col : list R) (M : Mat) : Mat :=
  match M, col with
  | row :: M', v :: col' => set_nth k v row :: set_column k col' M'
  | _, _ => M
  end.

(** [np.sum(v)]. *)
Definition vsum (v : list R) : R := fold_right Rplus 0 v.

(** [a + b] on two rows of width [K]: the regime axis, see above. *)
Definition vadd (K : nat) (a b : list R) : list R :=
  map (fun j => nth j a 0 + nth j b 0) (seq 0 K).

(** [A + B] on two matrices with rows of width [K]. *)
Definition madd (K : nat) (A B : Mat) : Mat :=
  map (fun ab => vadd K (fst ab) (snd ab)) (combine A B).

(** [scipy.special.logsumexp(v)]. *)
Definition logsumexp (v : list R) : R := ln (vsum (map exp v)).

(** [a * b] on two arrays of [n] entries. *)
Definition vmul (n : nat) (a b : list R) : list R :=
  map (fun j => nth j a 0 * nth j b 0) (seq 0 n).

(** [M / d(M)] where [d] gives one divisor per row ([keepdims=True]). *)
Definition div_rows_by (d : list R -> R) (M : Mat) : Mat :=
  map (fun row => map (fun x => x / d row) row) M.

(** [np.log(M + 1e-10)]. *)
Definition log_floor (v : list R) : list R := map (fun p => ln (p + 1e-10)) v.

(** [np.mean] and [np.var] of a 1-D array. *)
Definition mean (v : list R) : R := vsum v / INR (length v).
Definition var (v : list R) : R :=
  mean (map (fun x => (x - mean v) * (x - mean v)) v).

(** [np.linspace(0, 1, K)[k]]. *)
Definition linspace01 (K k : nat) : R :=
  if Nat.eqb K 1 then 0 else INR k / INR (K - 1).

(** [np.bincount(labels, minlength=K)]. *)
Definition bincount (labels : list nat) (K : nat) : list R :=
  let n := match labels with
           | [] => K
           | _ => Nat.max K (S (list_max labels))
           end in
  map (fun i => INR (count_occ Nat.eq_dec labels i)) (seq 0 n).

(** [x > y] and [x < y] on floats. *)
Definition Rgtb (x y : R) : bool := if Rgt_dec x y then true else false.
Definition Rltb (x y : R) : bool := if Rlt_dec x y then true else false.

(** ** The external learners *)

Definition Sample : Type := list R.
Definition Label : Type := nat.

(** What the classifier needs of scikit-learn.  [Expert] is a
    [RandomForestClassifier] object, [Rng] the state of numpy's global
    random generator, which [fit] draws from ([random_state=None]).
    Predictions are taken per sample. *)
Class Learner : Type := {
  Expert : Type;
  Rng : Type;
  RFConfig : Type;
  (** [KMeans(n_clusters=K, n_init=10, random_state=42).fit_predict(X)] *)
  KMeans_fit_predict : nat -> list Sample -> result (list nat);
  (** [RandomForestClassifier(...)], not yet fit *)
  RandomForestClassifier : RFConfig -> Expert;
  (** [rf.fit(X, y, sample_weight=w)] *)
  rf_fit : Expert -> list Sample -> list Label -> option (list R) -> Rng
           -> Expert * Rng;
  (** one row of [rf.predict_proba(X)] *)
  rf_predict_proba : Expert -> Sample -> list R;
  (** [rf.estimators_], each tree with its [predict] on one sample *)
  rf_estimators_ : Expert -> list (Sample -> R)
}.

(** ** The classifier *)

Section Model.

Context {L : Learner}.

(** The attributes of an [MSRF_Classifier] object.  [startprob_] and
    [transmat_] are [None] until [_init_params] has run. *)
Record MSRF : Type := {
  n_states : nat;
  n_iter : nat;
  rf_config : RFConfig;
  tol : R;
  mode : string;
  experts : list Expert;
  startprob_ : option (list R);
  transmat_ : option Mat;
  monitor_ : list R
}.

(** [str.lower] on a string of ASCII characters, where the letters [A]
    to [Z] are the only ones it changes. *)
Definition lower_ascii (c : Ascii.ascii) : Ascii.ascii :=
  let n := Ascii.nat_of_ascii c in
  if Nat.leb 65 n && Nat.leb n 90 then Ascii.ascii_of_nat (n + 32) else c.

Fixpoint lower (s : string) : string :=
  match s with
  | EmptyString => EmptyString
  | String c s' => String (lower_ascii c) (lower s')
  end.

(** Lines 22-37.  [rf_params], [n_estimators] and [max_depth] only reach
    the forests and are one [RFConfig]; [verbose] only prints. *)
Definition __init__ (n_states n_iter : nat) (rf_config : RFConfig) (tol : R)
  (mode : string) : MSRF :=
  {| n_states := n_states; n_iter := n_iter; rf_config := rf_config;
     tol := tol; mode := lower mode; experts := [];
     startprob_ := None; transmat_ := None; monitor_ := [] |}.

Definition set_transmat_ (T : Mat) (m : MSRF) : MSRF :=
  {| n_states := n_states m; n_iter := n_iter m; rf_config := rf_config m;
     tol := tol m; mode := mode m; experts := experts m;
     startprob_ := startprob_ m; transmat_ := Some T;
     monitor_ := monitor_ m |}.

Definition set_experts (es : list Expert) (m : MSRF) : MSRF :=
  {| n_states := n_states m; n_iter := n_iter m; rf_config := rf_config m;
     tol := tol m; mode := mode m; experts := es;
     startprob_ := startprob_ m; transmat_ := transmat_ m;
     monitor_ := monitor_ m |}.

Definition set_monitor_ (mon : list R) (m : MSRF) : MSRF :=
  {| n_states := n_states m; n_iter := n_iter m; rf_config := rf_config m;
     tol := tol m; mode := mode m; experts := experts m;
     startprob_ := startprob_ m; transmat_ := transmat_ m;
     monitor_ := mon |}.

(** *** [_init_params] *)

(** Lines 44-48: count the consecutive label pairs of the flattened data. *)
Definition count_transitions (K : nat) (labels : list nat) : result Mat :=
  forM (seq 0 (length labels - 1))
    (fun t trans_counts =>
       let curr_state := nth t labels 0%nat in
       let next_state := nth (S t) labels 0%nat in
       if Nat.ltb curr_state K && Nat.ltb next_state K
       then Ok (set2 curr_state next_state
                  (get2 trans_counts curr_state next_state + 1) trans_counts)
       else Raise IndexError)
    (zeros2 K K).

(** Lines 53-65: [n] fresh forests, each fit on all of [(X, y)]. *)
Fixpoint init_experts (n : nat) (cfg : RFConfig) (X : list Sample)
  (y : list Label) (rng : Rng) : list Expert * Rng :=
  match n with
  | O => ([], rng)
  | S n' =>
      let (rf, rng1) := rf_fit (RandomForestClassifier cfg) X y None rng in
      let (es, rng2) := init_experts n' cfg X y rng1 in
      (rf :: es, rng2)
  end.

Definition _init_params (m : MSRF) (X : list Sample) (y : list Label)
  (rng : Rng) : result (MSRF * Rng) :=
  labels <- KMeans_fit_predict (n_states m) X ;;
  trans_counts <- count_transitions (n_states m) labels ;;
  let start_counts := bincount labels (n_states m) in
  let (es, rng') := init_experts (n_states m) (rf_config m) X y rng in
  Ok ({| n_states := n_states m; n_iter := n_iter m;
         rf_config := rf_config m; tol := tol m; mode := mode m;
         experts := es;
         startprob_ :=
           Some (map (fun c => c / vsum start_counts) start_counts);
         transmat_ :=
           Some (div_rows_by (fun row => vsum row + 1e-10) trans_counts);
         monitor_ := monitor_ m |}, rng').

(** *** [_get_expert_confidence] *)

(** [np.var([tree.predict(X) for tree in expert.estimators_], axis=0)] at
    one sample. *)
Definition tree_variance (e : Expert) (x : Sample) : R :=
  var (map (fun tree => tree x) (rf_estimators_ e)).

(** [P[:, 1]]: there is no column 1 in a matrix narrower than 2. *)
Definition positive_class (P : Mat) : result (list R) :=
  if forallb (fun row => Nat.ltb 1 (length row)) P
  then Ok (column 1 P)
  else Raise IndexError.

(** Lines 74-76: the score column of expert [k] in confidence mode. *)
Definition confidence_scores (X : list Sample) (k : nat) (e : Expert)
  : result (list R) :=
  Ok (map (fun x => 1 / (tree_variance e x + 1e-5)) X).

(** Lines 80-82: the score column of expert [k] in risk mode. *)
Definition risk_scores (K : nat) (X : list Sample) (k : nat) (e : Expert)
  : result (list R) :=
  risk_pred <- positive_class (map (rf_predict_proba e) X) ;;
  if Nat.ltb k K
  then Ok (map (fun p => exp (- Rabs (p - linspace01 K k) * 5)) risk_pred)
  else Raise IndexError.

(** [for k, expert in enumerate(experts): scores[:, k] = f(k, expert)]. *)
Fixpoint score_experts (K : nat) (f : nat -> Expert -> result (list R))
  (k : nat) (es : list Expert) (scores : Mat) : result Mat :=
  match es with
  | [] => Ok scores
  | e :: es' =>
      col <- f k e ;;
      if Nat.ltb k K
      then score_experts K f (S k) es' (set_column k col scores)
      else Raise IndexError
  end.

(** Lines 70-84: the raw scores, before the rows are normalised. *)
Definition expert_scores (m : MSRF) (X : list Sample) : result Mat :=
  let n_samples := length X in
  let scores := zeros2 n_samples (n_states m) in
  if String.eqb (mode m) "confidence"
  then score_experts (n_states m) (confidence_scores X) 0 (experts m) scores
  else if String.eqb (mode m) "risk"
  then score_experts (n_states m) (risk_scores (n_states m) X) 0
         (experts m) scores
  else Raise (ValueError ("Unknown mode: " ++ mode m)).

(** Lines 85-86: [row_sums] is [vsum row], one per row. *)
Definition _get_expert_confidence (m : MSRF) (X : list Sample)
  : result Mat :=
  scores <- expert_scores m X ;;
  Ok (div_rows_by (fun row => vsum row + 1e-10) scores).

(** *** [_forward_backward] *)

(** Lines 101-102: the body of [for t in range(1, length)].  The inner
    loop over [j] writes every entry of row [t] and reads none of them, so
    the row is computed and then stored. *)
Definition forward_step (K : nat) (log_trans log_B : Mat) (t : nat)
  (log_alpha : Mat) : result Mat :=
  row <- mapM
           (fun j =>
              bt <- getitem log_B t ;;
              Ok (logsumexp (vadd K (nth (t - 1) log_alpha [])
                                    (column j log_trans))
                  + nth j bt 0))
           (seq 0 K) ;;
  Ok (set_nth t row log_alpha).

(** Lines 98-102. *)
Definition forward_pass (K : nat) (log_start : list R) (log_trans : Mat)
  (log_B : Mat) (len : nat) : result Mat :=
  let log_alpha := zeros2 len K in
  b0 <- getitem log_B 0 ;;
  log_alpha <- setitem log_alpha 0 (vadd K log_start b0) ;;
  forM (seq 1 (len - 1)) (forward_step K log_trans log_B) log_alpha.

(** Lines 104-107: [range(length - 2, -1, -1)] runs down from [len - 2]. *)
Definition backward_pass (K : nat) (log_trans : Mat) (log_B : Mat)
  (len : nat) : result Mat :=
  forM (rev (seq 0 (len - 1)))
    (fun t log_beta =>
       row <- mapM
                (fun i =>
                   b1 <- getitem log_B (t + 1) ;;
                   Ok (logsumexp
                         (vadd K (vadd K (nth i log_trans []) b1)
                                 (nth (t + 1) log_beta []))))
                (seq 0 K) ;;
       Ok (set_nth t row log_beta))
    (zeros2 len K).

(** Lines 111-117: the pairwise posteriors of one chain, added to
    [xi_sum]. *)
Definition accumulate_xi (K : nat) (log_trans log_B log_alpha log_beta : Mat)
  (len : nat) (xi_sum : Mat) : result Mat :=
  forM (seq 0 (len - 1))
    (fun t xi_sum =>
       log_xi <- mapM
                   (fun i =>
                      mapM
                        (fun j =>
                           b1 <- getitem log_B (t + 1) ;;
                           Ok (get2 log_alpha t i + get2 log_trans i j
                               + nth j b1 0 + get2 log_beta (t + 1) j))
                        (seq 0 K))
                   (seq 0 K) ;;
       let z := logsumexp (concat log_xi) in
       Ok (madd K xi_sum (map (map (fun x => exp (x - z))) log_xi)))
    xi_sum.

(** The variables that survive from one chain to the next. *)
Record fb_state : Type := {
  gamma : Mat;
  xi_sum : Mat;
  total_log_likelihood : R;
  cursor : nat
}.

(** Lines 97-118: the body of [for length in lengths]. *)
Definition fb_chain (K : nat) (log_start : list R) (log_trans : Mat)
  (log_emissions : Mat) (len : nat) (st : fb_state) : result fb_state :=
  let log_B := slice (cursor st) len log_emissions in
  log_alpha <- forward_pass K log_start log_trans log_B len ;;
  let total := total_log_likelihood st + logsumexp (last log_alpha []) in
  log_beta <- backward_pass K log_trans log_B len ;;
  let log_gamma := madd K log_alpha log_beta in
  let log_gamma :=
    map (fun row => map (fun x => x - logsumexp row) row) log_gamma in
  gamma' <- set_slice (cursor st) len (map (map exp) log_gamma) (gamma st) ;;
  xi_sum' <- accumulate_xi K log_trans log_B log_alpha log_beta len
               (xi_sum st) ;;
  Ok {| gamma := gamma'; xi_sum := xi_sum';
        total_log_likelihood := total; cursor := cursor st + len |}.

Definition _forward_backward (m : MSRF) (log_emissions : Mat)
  (lengths : list nat) : result (Mat * Mat * R) :=
  let n_samples := length log_emissions in
  match startprob_ m, transmat_ m with
  | Some startprob, Some transmat =>
      let log_start := log_floor startprob in
      let log_trans := map log_floor transmat in
      st <- forM lengths
              (fb_chain (n_states m) log_start log_trans log_emissions)
              {| gamma := zeros2 n_samples (n_states m);
                 xi_sum := zeros2 (n_states m) (n_states m);
                 total_log_likelihood := 0; cursor := 0 |} ;;
      Ok (gamma st, xi_sum st, total_log_likelihood st)
  | _, _ => Raise TypeError
  end.

(** *** [fit] *)

(** An array as a caller may put it in a Python list: a 1-D array (a flat
    list of numbers counts as one), or a 2-D array of [n_features] columns
    given by its rows, each of [n_features] entries.  The column count is
    kept apart from the rows because an array without rows still has
    one. *)
Inductive ndarray : Type :=
| Array1 (x : list R)
| Array2 (n_features : nat) (rows : list Sample).

(** [len(x)]: the size of the first axis. *)
Definition array_len (x : ndarray) : nat :=
  match x with
  | Array1 x => length x
  | Array2 _ rows => length rows
  end.

(** [x.ndim]. *)
Definition ndim (x : ndarray) : nat :=
  match x with
  | Array1 _ => 1
  | Array2 _ _ => 2
  end.

(** [np.atleast_2d(x)], as its column count and its rows: a 1-D array
    becomes one row. *)
Definition atleast_2d (x : ndarray) : nat * list Sample :=
  match x with
  | Array1 x => (length x, [x])
  | Array2 n_features rows => (n_features, rows)
  end.

(** [np.vstack(Xs)]: numpy refuses an empty list, and arrays that differ
    in their column count. *)
Definition vstack (Xs : list ndarray) : result (list Sample) :=
  match map atleast_2d Xs with
  | [] => Raise (ValueError "need at least one array to concatenate")
  | first :: rest =>
      if forallb (fun a => Nat.eqb (fst a) (fst first)) rest
      then Ok (concat (map snd (first :: rest)))
      else Raise (ValueError "all the input array dimensions except for the concatenation axis must match exactly")
  end.

(** [np.concatenate(ys)] on 1-D arrays of labels: numpy refuses an empty
    list. *)
Definition concatenate {A : Type} (ys : list (list A)) : result (list A) :=
  match ys with
  | [] => Raise (ValueError "need at least one array to concatenate")
  | _ => Ok (concat ys)
  end.

(** What a caller hands to [predict_proba]: one 2-D array of samples, or
    a Python list of arrays, one per chain. *)
Inductive XInput : Type :=
| Array (X : list Sample)
| ArrayList (Xs : list ndarray).

(** What a caller hands to [fit]: [X_input] and [y_input] in the same
    form. *)
Inductive TrainingInput : Type :=
| TrainArray (X : list Sample) (y : list Label)
| TrainList (Xs : list ndarray) (ys : list (list Label)).

(** Lines 155-160. *)
Definition segment (X_input : XInput) : result (list Sample * list nat) :=
  match X_input with
  | ArrayList Xs =>
      X_flat <- vstack Xs ;;
      Ok (X_flat, map array_len Xs)
  | Array X => Ok (X, [length X])
  end.

(** Lines 122-129. *)
Definition fit_segment (data : TrainingInput)
  : result (list Sample * list Label * list nat) :=
  match data with
  | TrainList Xs ys =>
      X_flat <- vstack Xs ;;
      y_flat <- concatenate ys ;;
      Ok (X_flat, y_flat, map array_len Xs)
  | TrainArray X y => Ok (X, y, [length X])
  end.

(** Lines 136-138. *)
Definition e_step (m : MSRF) (X_flat : list Sample) (lengths : list nat)
  : result (Mat * Mat * R) :=
  expert_confidences <- _get_expert_confidence m X_flat ;;
  let log_emissions := map log_floor expert_confidences in
  _forward_backward m log_emissions lengths.

(** Lines 148-151. *)
Definition refit_experts (K : nat) (X_flat : list Sample)
  (y_flat : list Label) (gamma : Mat) (es : list Expert) (rng : Rng)
  : result (list Expert * Rng) :=
  forM (seq 0 K)
    (fun k acc =>
       let weights := column k gamma in
       if Rgtb (vsum weights) 1e-5
       then e <- getitem (fst acc) k ;;
            let (e', rng') :=
              rf_fit e X_flat y_flat (Some weights) (snd acc) in
            Ok (set_nth k e' (fst acc), rng')
       else Ok acc)
    (es, rng).

(** Line 143.  [prev_log_likelihood] is [None] while it is [-np.inf]:
    [delta] is then [+inf], which is below no tolerance. *)
Definition converged (i : nat) (curr : R) (prev : option R) (tol : R)
  : bool :=
  Nat.ltb 1 i
  && match prev with
     | Some p => Rltb (Rabs (curr - p)) tol
     | None => false
     end.

(** The loop variables of the EM loop: the object, [prev_log_likelihood]
    and the random generator. *)
Definition em_state : Type := (MSRF * option R * Rng)%type.

Inductive flow : Type := Continue | Break.

(** Lines 136-151: one pass through the body of [for i in range(n_iter)]. *)
Definition em_iteration (X_flat : list Sample) (y_flat : list Label)
  (lengths : list nat) (i : nat) (st : em_state) : result (flow * em_state) :=
  let '(m, prev_log_likelihood, rng) := st in
  '(gamma, xi_sum, curr_log_likelihood) <- e_step m X_flat lengths ;;
  let m := set_monitor_ (monitor_ m ++ [curr_log_likelihood]) m in
  if converged i curr_log_likelihood prev_log_likelihood (tol m)
  then Ok (Break, (m, prev_log_likelihood, rng))
  else
    let m := set_transmat_ (div_rows_by vsum xi_sum) m in
    '(es, rng') <- refit_experts (n_states m) X_flat y_flat gamma
                     (experts m) rng ;;
    Ok (Continue, (set_experts es m, Some curr_log_likelihood, rng')).

Fixpoint em_loop (X_flat : list Sample) (y_flat : list Label)
  (lengths : list nat) (iters : list nat) (st : em_state) : result em_state :=
  match iters with
  | [] => Ok st
  | i :: rest =>
      r <- em_iteration X_flat y_flat lengths i st ;;
      match fst r with
      | Break => Ok (snd r)
      | Continue => em_loop X_flat y_flat lengths rest (snd r)
      end
  end.

Definition fit (m : MSRF) (data : TrainingInput) (rng : Rng)
  : result (MSRF * Rng) :=
  '(X_flat, y_flat, lengths) <- fit_segment data ;;
  '(m, rng) <- _init_params m X_flat y_flat rng ;;
  let m := set_monitor_ [] m in
  '(m, _, rng) <- em_loop X_flat y_flat lengths (seq 0 (n_iter m))
                    (m, None, rng) ;;
  Ok (m, rng).

(** *** [predict_proba] and [predict] *)

Definition predict_proba (m : MSRF) (X_input : XInput) : result Mat :=
  '(X_flat, lengths) <- segment X_input ;;
  expert_confidences <- _get_expert_confidence m X_flat ;;
  let log_emissions := map log_floor expert_confidences in
  '(gamma, _, _) <- _forward_backward m log_emissions lengths ;;
  final_risk_prob <-
    forM (seq 0 (n_states m))
      (fun k final_risk_prob =>
         e <- getitem (experts m) k ;;
         expert_risk <- positive_class (map (rf_predict_proba e) X_flat) ;;
         Ok (vadd (length X_flat) final_risk_prob
               (vmul (length X_flat) (column k gamma) expert_risk)))
      (zeros (length X_flat)) ;;
  Ok (map (fun p => [1 - p; p]) final_risk_prob).

Definition predict (m : MSRF) (X_input : XInput) : result (list nat) :=
  probs <- predict_proba m X_input ;;
  Ok (map (fun row => if Rgtb (nth 1 row 0) 0.5 then 1%nat else 0%nat) probs).

End Model.

(** ** The forward recursion, as the specification words it *)

(** [log_alpha[0] = log_start + log_B[0]] and, for [t >= 1] and each
    regime [j],
    [log_alpha[t,j] = logsumexp_i(log_alpha[t-1,i] + log_trans[i,j])
                      + log_B[t,j]]. *)
Fixpoint log_alpha_spec (K : nat) (log_start : list R) (log_trans : Mat)
  (log_B : Mat) (t : nat) : list R :=
  match t with
  | O => map (fun j => nth j log_start 0 + get2 log_B 0 j) (seq 0 K)
  | S t' =>
      map (fun j =>
             logsumexp
               (map (fun i =>
                       nth i (log_alpha_spec K log_start log_trans log_B t') 0
                       + get2 log_trans i j)
                    (seq 0 K))
             + get2 log_B (S t') j)
          (seq 0 K)
  end.

(** The chains a list of lengths cuts a matrix into, first chain first. *)
Fixpoint chains (rows : Mat) (lengths : list nat) : list (Mat * nat) :=
  match lengths with
  | [] => []
  | len :: rest => (firstn len rows, len) :: chains (skipn len rows) rest
  end.

(** Chain log-likelihood: [logsumexp(log_alpha[L-1])]. *)
Definition chain_log_likelihood (K : nat) (log_start : list R)
  (log_trans : Mat) (chain : Mat * nat) : R :=
  logsumexp (log_alpha_spec K log_start log_trans (fst chain) (snd chain - 1)).

(** ** Predicates used in the statements *)

(** A row of [gamma] as lines 109-110 leaves it: a row [v] of [K] log
    posteriors, shifted by its own log-sum-exp and exponentiated. *)
Definition posterior_row (K : nat) (row : list R) : Prop :=
  exists v, length v = K /\ row = map exp (map (fun x => x - logsumexp v) v).

(** [s.isascii()]: every character of [s] is below 128. *)
Fixpoint isascii (s : string) : bool :=
  match s with
  | EmptyString => true
  | String c s' => Nat.ltb (Ascii.nat_of_ascii c) 128 && isascii s'
  end.

(** An [N] by [K] matrix without a negative entry. *)
Definition nonneg_matrix (N K : nat) (M : Mat) : Prop :=
  length M = N /\ Forall (fun row => length row = K /\ Forall (Rle 0) row) M.

(** A [K] by [K] matrix of positive entries. *)
Definition positive_matrix (K : nat) (M : Mat) : Prop :=
  length M = K /\ Forall (fun row => length row = K /\ Forall (Rlt 0) row) M.

(** The sum of all entries of a matrix. *)
Definition msum (M : Mat) : R := vsum (map vsum M).

(** A [K] by [K] matrix of positive entries whose rows sum to 1. *)
Definition row_stochastic (K : nat) (T : Mat) : Prop :=
  length T = K
  /\ Forall (fun row => length row = K /\ Forall (Rlt 0) row /\ vsum row = 1)
       T.

(** What the EM loop needs of the object to run without an exception. *)
Definition runnable {L : Learner} (m : MSRF) : Prop :=
  (mode m = "confidence"%string \/ mode m = "risk"%string)
  /\ length (experts m) = n_states m
  /\ startprob_ m <> None /\ transmat_ m <> None.

(** ** A small learner and small inputs to run the classifier on *)

(** An expert is the positive-class probability it predicts for every
    sample, and is its own single tree.  Fitting halves it and steps the
    random generator; the forest configuration is the probability a fresh
    forest starts from; clustering puts every sample in cluster 0. *)
Definition toy_learner : Learner := {|
  Expert := R;
  Rng := nat;
  RFConfig := R;
  KMeans_fit_predict := fun _ X => Ok (map (fun _ => 0%nat) X);
  RandomForestClassifier := fun p => p;
  rf_fit := fun e _ _ _ rng => (e / 2, S rng);
  rf_predict_proba := fun e _ => [1 - e; e];
  rf_estimators_ := fun e => [fun _ => e]
|}.

Definition toy_model (K n : nat) (md : string) (es : list R)
  (sp : option (list R)) (tm : option Mat) : @MSRF toy_learner :=
  @Build_MSRF toy_learner K n 1 1e-3 md es sp tm [].

(** Two regimes, uniform start, sticky transitions. *)
Definition hmm2 : @MSRF toy_learner :=
  toy_model 2 3 "confidence" [1 / 2; 1 / 2] (Some [1 / 2; 1 / 2])
    (Some [[9 / 10; 1 / 10]; [1 / 10; 9 / 10]]).

(** Two regimes, the second with start probability 0. *)
Definition starved2 : @MSRF toy_learner :=
  toy_model 2 3 "confidence" [1 / 2; 1 / 2] (Some [1; 0])
    (Some [[1 / 2; 1 / 2]; [1 / 2; 1 / 2]]).

(** One regime in risk mode, with its expert. *)
Definition risk1 : @MSRF toy_learner :=
  toy_model 1 3 "risk" [0] (Some [1]) (Some [[1]]).

(** A freshly constructed one-regime classifier:
    [MSRF_Classifier(n_states=1, n_iter=3, mode='Risk')]. *)
Definition fresh1 : @MSRF toy_learner :=
  @__init__ toy_learner 1 3 1 1e-3 "Risk".

(** One regime under a mode the scorer does not know. *)
Definition entropy1 : @MSRF toy_learner :=
  toy_model 1 3 "entropy" [0] (Some [1]) (Some [[1]]).

(** One regime with two experts. *)
Definition crowded1 : @MSRF toy_learner :=
  toy_model 1 3 "risk" [0; 1] (Some [1]) (Some [[1]]).

(** A learner whose forests have three trees, two of them voting for
    class 0 on every sample: the row of [predict_proba] is the pair that
    float64 gives for [[2/3, 1/3]], written out in decimal. *)
Definition thirds_learner : Learner := {|
  Expert := unit;
  Rng := nat;
  RFConfig := unit;
  KMeans_fit_predict := fun _ X => Ok (map (fun _ => 0%nat) X);
  RandomForestClassifier := fun _ => tt;
  rf_fit := fun e _ _ _ rng => (e, S rng);
  rf_predict_proba :=
    fun _ _ => [0.6666666666666666; 0.3333333333333333];
  rf_estimators_ := fun _ => [fun _ => 0; fun _ => 0; fun _ => 1]
|}.

(** [MSRF_Classifier(n_states=1, n_iter=3, mode='risk')] over such
    forests. *)
Definition thirds1 : @MSRF thirds_learner :=
  @__init__ thirds_learner 1 3 tt 1e-3 "risk".

(** Three samples of log-emissions for two regimes. *)
Definition E3 : Mat := [[0; 0]; [0; 0]; [0; 0]].

(** Two chains of one sample each, with their labels. *)
Definition two_singletons : TrainingInput :=
  TrainList [Array2 1 [[0]]; Array2 1 [[1]]] [[0%nat]; [1%nat]].

(** One chain of two samples. *)
Definition one_pair : TrainingInput :=
  TrainArray [[0]; [1]] [0%nat; 1%nat].

(** * Properties *)

(** ** Lists, loops and sums *)

Lemma bind_ok {A B : Type} (r : result A) (f : A -> result B) (b : B) :
  bind r f = Ok b -> exists a, r = Ok a /\ f a = Ok b.
Proof.
  destruct r as [a|e]; simpl; intros H; [eauto | discriminate].
Qed.

Lemma forM_cons {A S : Type} (a : A) (l : list A)
  (body : A -> S -> result S) (s : S) :
  forM (a :: l) body s = (s' <- body a s ;; forM l body s').
Proof. reflexivity. Qed.

Lemma set_nth_length {A : Type} (i : nat) (v : A) (l : list A) :
  length (set_nth i v l) = length l.
Proof.
  revert i; induction l as [|h t IH]; intros [|i]; simpl; auto.
Qed.

Lemma nth_set_nth_eq {A : Type} (i : nat) (v d : A) (l : list A) :
  (i < length l)%nat -> nth i (set_nth i v l) d = v.
Proof.
  revert i; induction l as [|h t IH]; intros [|i] H; simpl in *;
    try lia; auto.
  apply IH; lia.
Qed.

Lemma nth_set_nth_neq {A : Type} (i j : nat) (v d : A) (l : list A) :
  i <> j -> nth j (set_nth i v l) d = nth j l d.
Proof.
  revert i j; induction l as [|h t IH]; intros [|i] [|j] H; simpl;
    try congruence; auto.
Qed.

Lemma nth_error_set_nth_neq {A : Type} (i j : nat) (v : A) (l : list A) :
  i <> j -> nth_error (set_nth i v l) j = nth_error l j.
Proof.
  revert i j; induction l as [|h t IH]; intros [|i] [|j] H; simpl;
    try congruence; auto.
Qed.

Lemma set_nth_app_repeat {A : Type} (pre : list A) (z v : A) (n r : nat) :
  length pre = n ->
  set_nth n v (pre ++ repeat z (S r)) = (pre ++ [v]) ++ repeat z r.
Proof.
  intros <-.
  induction pre as [|h t IH]; simpl; [reflexivity | f_equal; exact IH].
Qed.

Lemma getitem_ok {A : Type} (l : list A) (i : nat) (a d : A) :
  getitem l i = Ok a -> (i < length l)%nat /\ nth i l d = a.
Proof.
  unfold getitem; destruct (nth_error l i) eqn:E; intros H;
    inversion H; subst; split.
  - apply nth_error_Some; congruence.
  - now apply nth_error_nth.
Qed.

Lemma getitem_in_range {A : Type} (l : list A) (i : nat) (d : A) :
  (i < length l)%nat -> getitem l i = Ok (nth i l d).
Proof.
  intros H; unfold getitem.
  now rewrite (nth_error_nth' l d H).
Qed.

(** A row built entry by entry from one time-axis read. *)
Lemma mapM_row_ok {A : Type} (B : list A) (t : nat) (d : A)
  (g : A -> nat -> R) (l : list nat) (row : list R) :
  mapM (fun j => bt <- getitem B t ;; Ok (g bt j)) l = Ok row ->
  row = map (g (nth t B d)) l.
Proof.
  revert row; induction l as [|j l IH]; simpl; intros row H.
  - now inversion H.
  - apply bind_ok in H; destruct H as [b [H1 H]].
    apply bind_ok in H1; destruct H1 as [bt [Hbt H1]].
    apply bind_ok in H; destruct H as [bs [H2 H]].
    inversion H; inversion H1; subst.
    apply (getitem_ok _ _ _ d) in Hbt; destruct Hbt as [_ <-].
    now rewrite (IH bs H2).
Qed.

Lemma mapM_row_total {A : Type} (B : list A) (t : nat) (d : A)
  (g : A -> nat -> R) (l : list nat) :
  (t < length B)%nat ->
  mapM (fun j => bt <- getitem B t ;; Ok (g bt j)) l
  = Ok (map (g (nth t B d)) l).
Proof.
  intros Ht; induction l as [|j l IH]; simpl; [reflexivity|].
  rewrite IH, (getitem_in_range B t d Ht); reflexivity.
Qed.

Lemma mapM_length {A B : Type} (f : A -> result B) (l : list A)
  (r : list B) :
  mapM f l = Ok r -> length r = length l.
Proof.
  revert r; induction l as [|a l IH]; simpl; intros r H.
  - now inversion H.
  - apply bind_ok in H; destruct H as [b [_ H]].
    apply bind_ok in H; destruct H as [bs [H2 H]].
    inversion H; subst; simpl; f_equal; auto.
Qed.

Lemma nth_column (M : Mat) (i j : nat) : nth i (column j M) 0 = get2 M i j.
Proof.
  unfold column, get2.
  revert i; induction M as [|row M IH]; intros [|i]; simpl; auto;
    destruct j; reflexivity.
Qed.

Lemma vadd_length (K : nat) (a b : list R) : length (vadd K a b) = K.
Proof. unfold vadd; now rewrite length_map, length_seq. Qed.

Lemma vsum_app (a b : list R) : vsum (a ++ b) = vsum a + vsum b.
Proof.
  induction a as [|x a IH]; simpl; [lra | rewrite IH; lra].
Qed.

Lemma vsum_map_div (v : list R) (s : R) :
  vsum (map (fun x => x / s) v) = vsum v / s.
Proof.
  induction v as [|x v IH]; simpl.
  - unfold Rdiv; now rewrite Rmult_0_l.
  - rewrite IH; unfold Rdiv; lra.
Qed.

Lemma vsum_exp_pos (v : list R) : v <> [] -> 0 < vsum (map exp v).
Proof.
  destruct v as [|x v]; [congruence | intros _; simpl].
  assert (H : 0 <= vsum (map exp v)).
  { induction v as [|y v IH]; simpl; [lra|].
    pose proof (exp_pos y); lra. }
  pose proof (exp_pos x); lra.
Qed.

(** [exp(v - logsumexp(v))] is a probability vector. *)
Lemma softmax_sums_to_1 (v : list R) :
  v <> [] ->
  vsum (map exp (map (fun x => x - logsumexp v) v)) = 1.
Proof.
  intros Hv. pose proof (vsum_exp_pos v Hv) as Hpos.
  rewrite map_map.
  rewrite (map_ext (fun x => exp (x - logsumexp v))
                   (fun x => exp x / vsum (map exp v))).
  - rewrite <- (map_map exp (fun y => y / vsum (map exp v))).
    rewrite vsum_map_div. field. lra.
  - intros x. unfold logsumexp, Rminus.
    rewrite exp_plus, exp_Ropp, exp_ln by assumption. reflexivity.
Qed.

(** ** The forward pass computes the recursion *)

Section Forward.

Variables (K : nat) (log_start : list R) (log_trans log_B : Mat).

Local Abbreviation alpha := (log_alpha_spec K log_start log_trans log_B).
Local Abbreviation body := (forward_step K log_trans log_B).

Lemma alpha_row_step (t : nat) :
  map (fun j => logsumexp (vadd K (alpha t) (column j log_trans))
                + nth j (nth (S t) log_B []) 0) (seq 0 K)
  = alpha (S t).
Proof.
  simpl. apply map_ext; intros j.
  unfold get2 at 2. f_equal. f_equal.
  unfold vadd. apply map_ext; intros i. now rewrite nth_column.
Qed.

Lemma nth_alpha_prefix (a : nat) (rest : Mat) :
  nth a (map alpha (seq 0 (S a)) ++ rest) [] = alpha a.
Proof.
  rewrite app_nth1 by (rewrite length_map, length_seq; lia).
  rewrite (nth_indep _ [] (alpha 0%nat))
    by (rewrite length_map, length_seq; lia).
  rewrite map_nth, seq_nth by lia. reflexivity.
Qed.

Lemma forward_body_shape (a r : nat) (la' : Mat) :
  body (S a) (map alpha (seq 0 (S a)) ++ repeat (zeros K) (S r)) = Ok la' ->
  la' = map alpha (seq 0 (S (S a))) ++ repeat (zeros K) r.
Proof.
  unfold forward_step; intros H.
  apply bind_ok in H; destruct H as [row [Hrow H]].
  assert (E : set_nth (S a) row
                (map alpha (seq 0 (S a)) ++ repeat (zeros K) (S r)) = la')
    by congruence.
  clear H; subst la'.
  apply (mapM_row_ok log_B (S a) []
           (fun bt j => logsumexp (vadd K _ (column j log_trans))
                        + nth j bt 0)) in Hrow.
  replace (S a - 1)%nat with a in Hrow by lia.
  rewrite nth_alpha_prefix in Hrow.
  rewrite alpha_row_step in Hrow; subst row.
  rewrite set_nth_app_repeat
    by (rewrite length_map, length_seq; reflexivity).
  now rewrite (seq_S (S a)), map_app.
Qed.

Lemma forward_body_total (a r : nat) :
  (S a < length log_B)%nat ->
  body (S a) (map alpha (seq 0 (S a)) ++ repeat (zeros K) (S r))
  = Ok (map alpha (seq 0 (S (S a))) ++ repeat (zeros K) r).
Proof.
  intros Ha.
  destruct (body (S a) (map alpha (seq 0 (S a)) ++ repeat (zeros K) (S r)))
    as [la'|e] eqn:E.
  - now rewrite (forward_body_shape a r la' E).
  - exfalso. unfold forward_step in E.
    rewrite (mapM_row_total log_B (S a) []
               (fun bt j => logsumexp (vadd K _ (column j log_trans))
                            + nth j bt 0)) in E by assumption.
    discriminate.
Qed.

Lemma forward_loop_shape (n a r : nat) (la' : Mat) :
  forM (seq (S a) n) body
       (map alpha (seq 0 (S a)) ++ repeat (zeros K) (n + r)) = Ok la' ->
  la' = map alpha (seq 0 (S a + n)) ++ repeat (zeros K) r.
Proof.
  revert a la'; induction n as [|n IH]; intros a la' H.
  - simpl in H; inversion H; subst. now rewrite Nat.add_0_r.
  - change (seq (S a) (S n)) with (S a :: seq (S (S a)) n) in H.
    simpl forM in H. apply bind_ok in H; destruct H as [la1 [H1 H]].
    change (S n + r)%nat with (S (n + r)) in H1.
    apply forward_body_shape in H1; subst la1.
    apply IH in H. now replace (S a + S n)%nat with (S (S a) + n)%nat by lia.
Qed.

Lemma forward_loop_total (n a r : nat) :
  (S a + n <= length log_B)%nat ->
  forM (seq (S a) n) body
       (map alpha (seq 0 (S a)) ++ repeat (zeros K) (n + r))
  = Ok (map alpha (seq 0 (S a + n)) ++ repeat (zeros K) r).
Proof.
  revert a; induction n as [|n IH]; intros a H.
  - simpl. now rewrite Nat.add_0_r.
  - change (seq (S a) (S n)) with (S a :: seq (S (S a)) n).
    rewrite forM_cons. change (S n + r)%nat with (S (n + r)).
    rewrite forward_body_total by lia. unfold bind at 1.
    rewrite IH by lia.
    now replace (S a + S n)%nat with (S (S a) + n)%nat by lia.
Qed.

Lemma forward_pass_shape (len : nat) (la : Mat) :
  forward_pass K log_start log_trans log_B len = Ok la ->
  (1 <= len)%nat /\ la = map alpha (seq 0 len).
Proof.
  unfold forward_pass; intros H.
  apply bind_ok in H; destruct H as [b0 [Hb0 H]].
  apply bind_ok in H; destruct H as [la0 [Hla0 H]].
  apply (getitem_ok _ _ _ []) in Hb0; destruct Hb0 as [_ <-].
  unfold setitem, zeros2 in Hla0. rewrite repeat_length in Hla0.
  destruct len as [|n]; [discriminate|].
  simpl in Hla0; inversion Hla0; subst la0; clear Hla0.
  split; [lia|].
  replace (S n - 1)%nat with n in H by lia.
  pose proof (forward_loop_shape n 0 0 la) as HL.
  rewrite Nat.add_0_r, app_nil_r in HL. apply HL. exact H.
Qed.

Lemma forward_pass_total (len : nat) :
  (1 <= len <= length log_B)%nat ->
  forward_pass K log_start log_trans log_B len = Ok (map alpha (seq 0 len)).
Proof.
  intros [H1 H2]. unfold forward_pass.
  rewrite (getitem_in_range log_B 0 []) by lia. simpl bind.
  unfold setitem, zeros2. rewrite repeat_length.
  destruct len as [|n]; [lia|]. simpl bind.
  rewrite Nat.sub_0_r.
  pose proof (forward_loop_total n 0 0) as HL.
  rewrite Nat.add_0_r, app_nil_r in HL. apply HL. lia.
Qed.

End Forward.

(** ** Loops that keep an invariant, loops that cannot fail *)

Lemma forM_invariant {A S : Type} (P : S -> Prop) (l : list A)
  (body : A -> S -> result S) (s s' : S) :
  (forall a x x', In a l -> P x -> body a x = Ok x' -> P x') ->
  P s -> forM l body s = Ok s' -> P s'.
Proof.
  revert s; induction l as [|a l IH]; simpl; intros s Hb Hs H.
  - now inversion H; subst.
  - apply bind_ok in H; destruct H as [s1 [H1 H]].
    apply (IH s1); eauto.
Qed.

Lemma forM_total {A S : Type} (P : S -> Prop) (l : list A)
  (body : A -> S -> result S) (s : S) :
  (forall a x, In a l -> P x -> exists x', body a x = Ok x' /\ P x') ->
  P s -> exists s', forM l body s = Ok s' /\ P s'.
Proof.
  revert s; induction l as [|a l IH]; simpl; intros s Hb Hs.
  - eauto.
  - destruct (Hb a s) as [s1 [H1 Hs1]]; auto.
    rewrite H1; simpl. apply IH; auto.
Qed.

Lemma mapM_ok_map {A B : Type} (f : A -> result B) (g : A -> B)
  (l : list A) :
  (forall a, In a l -> f a = Ok (g a)) -> mapM f l = Ok (map g l).
Proof.
  induction l as [|a l IH]; simpl; intros H; [reflexivity|].
  rewrite H by auto; simpl. rewrite IH by auto. reflexivity.
Qed.

Lemma last_map_seq {A : Type} (f : nat -> A) (n : nat) (d : A) :
  last (map f (seq 0 (S n))) d = f n.
Proof. rewrite seq_S, map_app; simpl. apply last_last. Qed.

(** ** The backward pass and the pairwise posteriors *)

Lemma backward_pass_length (K : nat) (log_trans log_B : Mat) (len : nat)
  (lb : Mat) :
  backward_pass K log_trans log_B len = Ok lb -> length lb = len.
Proof.
  unfold backward_pass; intros H.
  apply (forM_invariant (fun M : Mat => length M = len)) in H; auto.
  - intros t x x' _ Hx Hb.
    apply bind_ok in Hb; destruct Hb as [row [_ Hb]].
    injection Hb as <-. now rewrite set_nth_length.
  - unfold zeros2; apply repeat_length.
Qed.

Lemma backward_pass_total (K : nat) (log_trans log_B : Mat) (len : nat) :
  (len <= length log_B)%nat ->
  exists lb, backward_pass K log_trans log_B len = Ok lb.
Proof.
  intros Hlen. unfold backward_pass.
  destruct (forM_total (fun _ : Mat => True) (rev (seq 0 (len - 1)))
              (fun t log_beta =>
                 row <- mapM
                          (fun i =>
                             b1 <- getitem log_B (t + 1) ;;
                             Ok (logsumexp
                                   (vadd K (vadd K (nth i log_trans []) b1)
                                      (nth (t + 1) log_beta []))))
                          (seq 0 K) ;;
                 Ok (set_nth t row log_beta))
              (zeros2 len K)) as [lb [H _]]; eauto.
  intros t x Hin _.
  apply in_rev, in_seq in Hin.
  rewrite (mapM_row_total log_B (t + 1) []
             (fun b1 i => logsumexp
                            (vadd K (vadd K (nth i log_trans []) b1)
                               (nth (t + 1) x [])))) by lia.
  simpl; eauto.
Qed.

Lemma accumulate_xi_total (K : nat) (log_trans log_B la lb : Mat)
  (len : nat) (xi : Mat) :
  (len <= length log_B)%nat ->
  exists xi', accumulate_xi K log_trans log_B la lb len xi = Ok xi'.
Proof.
  intros Hlen. unfold accumulate_xi.
  destruct (forM_total (fun _ : Mat => True) (seq 0 (len - 1))
              (fun t xi_sum =>
                 log_xi <- mapM
                             (fun i =>
                                mapM
                                  (fun j =>
                                     b1 <- getitem log_B (t + 1) ;;
                                     Ok (get2 la t i + get2 log_trans i j
                                         + nth j b1 0 + get2 lb (t + 1) j))
                                  (seq 0 K))
                             (seq 0 K) ;;
                 let z := logsumexp (concat log_xi) in
                 Ok (madd K xi_sum (map (map (fun x => exp (x - z))) log_xi)))
              xi) as [xi' [H _]]; eauto.
  intros t x Hin _. apply in_seq in Hin.
  rewrite (mapM_ok_map _
             (fun i => map (fun j => get2 la t i + get2 log_trans i j
                                     + nth j (nth (t + 1) log_B []) 0
                                     + get2 lb (t + 1) j) (seq 0 K))).
  - simpl; eauto.
  - intros i _.
    apply (mapM_row_total log_B (t + 1) []
             (fun b1 j => get2 la t i + get2 log_trans i j + nth j b1 0
                          + get2 lb (t + 1) j)); lia.
Qed.

(** A chain of length 1 has no adjacent pair: [xi_sum] is left alone. *)
Lemma accumulate_xi_single (K : nat) (log_trans log_B la lb xi : Mat) :
  accumulate_xi K log_trans log_B la lb 1 xi = Ok xi.
Proof. reflexivity. Qed.

(** ** One chain of the forward-backward pass *)


Lemma posterior_rows_of_madd (K : nat) (A B : Mat) :
  Forall (posterior_row K)
    (map (map exp)
       (map (fun row => map (fun x => x - logsumexp row) row) (madd K A B))).
Proof.
  unfold madd. rewrite !map_map. apply Forall_forall; intros row Hin.
  apply in_map_iff in Hin; destruct Hin as [[a b] [<- _]]; simpl.
  exists (vadd K a b); split; [apply vadd_length | reflexivity].
Qed.

Lemma fb_chain_shape (K : nat) (log_start : list R) (log_trans E : Mat)
  (len : nat) (st st' : fb_state) :
  fb_chain K log_start log_trans E len st = Ok st' ->
  (1 <= len)%nat
  /\ cursor st' = (cursor st + len)%nat
  /\ total_log_likelihood st'
     = total_log_likelihood st
       + chain_log_likelihood K log_start log_trans
           (slice (cursor st) len E, len)
  /\ (cursor st + len <= length (gamma st))%nat
  /\ exists rows,
       length rows = len /\ Forall (posterior_row K) rows
       /\ gamma st' = firstn (cursor st) (gamma st) ++ rows
                      ++ skipn (cursor st + len) (gamma st).
Proof.
  unfold fb_chain; intros H.
  apply bind_ok in H; destruct H as [la [Hla H]].
  apply bind_ok in H; destruct H as [lb [Hlb H]].
  apply bind_ok in H; destruct H as [g' [Hg H]].
  apply bind_ok in H; destruct H as [xi' [_ H]].
  apply forward_pass_shape in Hla; destruct Hla as [Hlen Hla].
  apply backward_pass_length in Hlb.
  unfold set_slice in Hg.
  destruct (Nat.leb (cursor st + len) (length (gamma st))) eqn:Hfit;
    [|discriminate].
  apply Nat.leb_le in Hfit.
  assert (Hst : st' = {| gamma := g'; xi_sum := xi';
                         total_log_likelihood :=
                           total_log_likelihood st + logsumexp (last la []);
                         cursor := cursor st + len |}) by congruence.
  assert (Hg' : g' = firstn (cursor st) (gamma st)
                     ++ map (map exp)
                          (map (fun row => map (fun x => x - logsumexp row) row)
                             (madd K la lb))
                     ++ skipn (cursor st + len) (gamma st)) by congruence.
  clear H Hg. subst st' g'; simpl.
  repeat split; auto.
  - unfold chain_log_likelihood; simpl fst; simpl snd.
    destruct len as [|n]; [lia|].
    rewrite Hla, last_map_seq. now replace (S n - 1)%nat with n by lia.
  - eexists; repeat split; [| apply posterior_rows_of_madd].
    unfold madd. rewrite !length_map, length_combine, Hlb, Hla.
    rewrite length_map, length_seq. lia.
Qed.

Lemma slice_length {A : Type} (c len : nat) (l : list A) :
  (c + len <= length l)%nat -> length (slice c len l) = len.
Proof.
  intros H; unfold slice. rewrite length_firstn, length_skipn. lia.
Qed.

Lemma fb_chain_total (K : nat) (log_start : list R) (log_trans E : Mat)
  (len : nat) (st : fb_state) :
  (1 <= len)%nat ->
  (cursor st + len <= length E)%nat ->
  length (gamma st) = length E ->
  exists st', fb_chain K log_start log_trans E len st = Ok st'.
Proof.
  intros H1 H2 Hg. unfold fb_chain.
  pose proof (slice_length (cursor st) len E H2) as Hs.
  rewrite forward_pass_total by lia. simpl bind.
  destruct (backward_pass_total K log_trans (slice (cursor st) len E) len)
    as [lb Hlb]; [lia|].
  rewrite Hlb; simpl bind.
  unfold set_slice. rewrite Hg.
  destruct (Nat.leb_spec (cursor st + len) (length E)) as [_|]; [|lia].
  simpl bind.
  destruct (accumulate_xi_total K log_trans (slice (cursor st) len E)
              (map (log_alpha_spec K log_start log_trans
                      (slice (cursor st) len E)) (seq 0 len))
              lb len (xi_sum st)) as [xi' Hxi]; [lia|].
  rewrite Hxi; simpl; eauto.
Qed.

(** ** The loop over the chains *)

Section ChainLoop.

Variables (K : nat) (log_start : list R) (log_trans E : Mat).

Lemma fb_loop_likelihood (lengths : list nat) (st st' : fb_state) :
  forM lengths (fb_chain K log_start log_trans E) st = Ok st' ->
  cursor st' = (cursor st + list_sum lengths)%nat
  /\ Forall (fun len => 1 <= len)%nat lengths
  /\ total_log_likelihood st'
     = total_log_likelihood st
       + vsum (map (chain_log_likelihood K log_start log_trans)
                 (chains (skipn (cursor st) E) lengths)).
Proof.
  revert st; induction lengths as [|len rest IH]; intros st H.
  - simpl in H; injection H as <-. simpl. repeat split; auto; lra.
  - rewrite forM_cons in H. apply bind_ok in H; destruct H as [s1 [H1 H]].
    apply fb_chain_shape in H1.
    destruct H1 as (Hlen & Hc & Ht & _ & _).
    apply IH in H; destruct H as (Hc' & Hall & Ht').
    repeat split.
    + rewrite Hc', Hc; simpl; lia.
    + constructor; auto.
    + rewrite Ht', Ht, Hc; simpl chains; simpl map; simpl vsum.
      unfold slice. rewrite skipn_skipn.
      replace (len + cursor st)%nat with (cursor st + len)%nat by lia.
      lra.
Qed.

(** Every chain's forward pass ran to the end, on the rows of that chain. *)
Lemma fb_loop_forward (lengths : list nat) (st st' : fb_state) :
  forM lengths (fb_chain K log_start log_trans E) st = Ok st' ->
  Forall (fun chain =>
            (1 <= snd chain)%nat
            /\ forward_pass K log_start log_trans (fst chain) (snd chain)
               = Ok (map (log_alpha_spec K log_start log_trans (fst chain))
                       (seq 0 (snd chain))))
    (chains (skipn (cursor st) E) lengths).
Proof.
  revert st; induction lengths as [|len rest IH]; intros st H.
  - constructor.
  - rewrite forM_cons in H. apply bind_ok in H; destruct H as [s1 [H1 H]].
    pose proof (fb_chain_shape _ _ _ _ _ _ _ H1) as (_ & Hc & _).
    apply IH in H. rewrite Hc in H.
    simpl chains. constructor.
    + simpl fst; simpl snd.
      unfold fb_chain in H1. apply bind_ok in H1.
      destruct H1 as [la [Hla _]]. unfold slice in Hla.
      pose proof (forward_pass_shape _ _ _ _ _ _ Hla) as [Hlen Heq].
      split; [exact Hlen | now rewrite <- Heq].
    + rewrite skipn_skipn.
      now replace (len + cursor st)%nat with (cursor st + len)%nat by lia.
Qed.

Lemma firstn_middle {A : Type} (c : nat) (rows g : list A) :
  (c + length rows <= length g)%nat ->
  firstn (c + length rows)
    (firstn c g ++ rows ++ skipn (c + length rows) g)
  = firstn c g ++ rows.
Proof.
  intros H.
  assert (Hc : length (firstn c g) = c) by (apply firstn_length_le; lia).
  rewrite app_assoc.
  rewrite firstn_app.
  rewrite length_app, Hc.
  replace (c + length rows - (c + length rows))%nat with 0%nat by lia.
  rewrite firstn_O, app_nil_r.
  apply firstn_all2. rewrite length_app, Hc. lia.
Qed.

Lemma fb_loop_gamma (P : list R -> Prop) (lengths : list nat)
  (st st' : fb_state) :
  (forall row, posterior_row K row -> P row) ->
  forM lengths (fb_chain K log_start log_trans E) st = Ok st' ->
  Forall P (firstn (cursor st) (gamma st)) ->
  length (gamma st') = length (gamma st)
  /\ Forall P (firstn (cursor st') (gamma st')).
Proof.
  intros HP. revert st; induction lengths as [|len rest IH]; intros st H Hst.
  - simpl in H; injection H as <-. auto.
  - rewrite forM_cons in H. apply bind_ok in H; destruct H as [s1 [H1 H]].
    apply fb_chain_shape in H1.
    destruct H1 as (_ & Hc & _ & Hfit & rows & Hrows & Hpost & Hg).
    subst len.
    assert (Hlen1 : length (gamma s1) = length (gamma st)).
    { rewrite Hg, !length_app, length_skipn.
      rewrite firstn_length_le by lia. lia. }
    apply IH in H.
    + destruct H as [Hl HF]; split; [congruence | exact HF].
    + rewrite Hc, Hg.
      rewrite firstn_middle by exact Hfit.
      apply Forall_app; split; [exact Hst|].
      eapply Forall_impl; [|exact Hpost]. exact HP.
Qed.

Lemma fb_loop_total (lengths : list nat) (st : fb_state) :
  Forall (fun len => 1 <= len)%nat lengths ->
  (cursor st + list_sum lengths <= length E)%nat ->
  length (gamma st) = length E ->
  exists st', forM lengths (fb_chain K log_start log_trans E) st = Ok st'.
Proof.
  revert st; induction lengths as [|len rest IH]; intros st Hall Hsum Hg.
  - simpl; eauto.
  - inversion Hall as [|? ? Hlen Hrest]; subst. simpl in Hsum.
    destruct (fb_chain_total K log_start log_trans E len st)
      as [s1 H1]; try lia.
    rewrite forM_cons, H1; simpl bind.
    pose proof (fb_chain_shape _ _ _ _ _ _ _ H1)
      as (_ & Hc & _ & Hfit & rows & Hrows & _ & Hg1).
    apply IH; auto.
    + rewrite Hc; lia.
    + rewrite Hg1, !length_app, length_skipn, Hrows.
      rewrite firstn_length_le by lia. lia.
Qed.

End ChainLoop.

Lemma posterior_row_sums_to_1 (K : nat) (row : list R) :
  (1 <= K)%nat -> posterior_row K row -> vsum row = 1.
Proof.
  intros HK [v [Hv ->]]. apply softmax_sums_to_1.
  destruct v; simpl in Hv; [lia | discriminate].
Qed.

(** ** [_forward_backward] *)

Section ForwardBackward.

Context {L : Learner}.

Lemma nth_map_seq {A : Type} (f : nat -> A) (n t : nat) (d : A) :
  (t < n)%nat -> nth t (map f (seq 0 n)) d = f t.
Proof.
  intros H. rewrite (nth_indep _ d (f 0%nat))
    by (rewrite length_map, length_seq; lia).
  rewrite map_nth, seq_nth by lia. reflexivity.
Qed.

Lemma forward_backward_unfold (m : MSRF) (startprob : list R)
  (transmat E : Mat) (lengths : list nat) (r : Mat * Mat * R) :
  startprob_ m = Some startprob -> transmat_ m = Some transmat ->
  _forward_backward m E lengths = Ok r ->
  exists st,
    forM lengths
      (fb_chain (n_states m) (log_floor startprob)
         (map log_floor transmat) E)
      {| gamma := zeros2 (length E) (n_states m);
         xi_sum := zeros2 (n_states m) (n_states m);
         total_log_likelihood := 0; cursor := 0 |} = Ok st
    /\ r = (gamma st, xi_sum st, total_log_likelihood st).
Proof.
  intros Hs Ht H. unfold _forward_backward in H. rewrite Hs, Ht in H.
  apply bind_ok in H; destruct H as [st [H1 H]].
  exists st; split; [exact H1 | congruence].
Qed.

Lemma forward_backward_total (m : MSRF) (startprob : list R)
  (transmat E : Mat) (lengths : list nat) :
  startprob_ m = Some startprob -> transmat_ m = Some transmat ->
  Forall (fun len => 1 <= len)%nat lengths ->
  (list_sum lengths <= length E)%nat ->
  exists r, _forward_backward m E lengths = Ok r.
Proof.
  intros Hs Ht Hall Hsum. unfold _forward_backward. rewrite Hs, Ht.
  destruct (fb_loop_total (n_states m) (log_floor startprob)
              (map log_floor transmat) E lengths
              {| gamma := zeros2 (length E) (n_states m);
                 xi_sum := zeros2 (n_states m) (n_states m);
                 total_log_likelihood := 0; cursor := 0 |})
    as [st Hst]; auto.
  - unfold zeros2; simpl. apply repeat_length.
  - rewrite Hst; simpl; eauto.
Qed.

(** C1.  Whatever the chain lengths and the log-emission matrix:
    a forward pass of [_forward_backward] that runs to the end on a chain
    [log_B] of length [L] leaves [L] rows with
    [log_alpha[0] = log_start + log_B[0]] and, for [t = 1..L-1] and each
    regime [j],
    [log_alpha[t,j] = logsumexp_i(log_alpha[t-1,i] + log_trans[i,j])
                      + log_B[t,j]];
    when [_forward_backward] returns, the forward pass has run to the end
    on every chain that the lengths cut out of the matrix, and the
    [total_log_likelihood] returned is the sum over these chains of
    [logsumexp(log_alpha[L-1])]; and it does return when every chain has
    at least one row and the chains fit in the matrix. *)
Theorem forward_backward_forward_recursion (m : MSRF) (startprob : list R)
  (transmat log_emissions : Mat) (lengths : list nat) :
  startprob_ m = Some startprob ->
  transmat_ m = Some transmat ->
  let K := n_states m in
  let log_start := log_floor startprob in
  let log_trans := map log_floor transmat in
  (forall log_B len log_alpha,
      forward_pass K log_start log_trans log_B len = Ok log_alpha ->
      length log_alpha = len
      /\ nth 0 log_alpha [] = vadd K log_start (nth 0 log_B [])
      /\ forall t j, (1 <= t < len)%nat -> (j < K)%nat ->
           get2 log_alpha t j
           = logsumexp (map (fun i => get2 log_alpha (t - 1) i
                                      + get2 log_trans i j) (seq 0 K))
             + get2 log_B t j)
  /\ (forall gamma xi_sum total,
         _forward_backward m log_emissions lengths
         = Ok (gamma, xi_sum, total) ->
         exists log_alphas,
           Forall2 (fun chain log_alpha =>
                      forward_pass K log_start log_trans
                        (fst chain) (snd chain) = Ok log_alpha)
             (chains log_emissions lengths) log_alphas
           /\ total
              = vsum (map (fun log_alpha => logsumexp (last log_alpha []))
                        log_alphas))
  /\ (Forall (fun len => 1 <= len)%nat lengths ->
      (list_sum lengths <= length log_emissions)%nat ->
      exists r, _forward_backward m log_emissions lengths = Ok r).
Proof.
  intros Hs Ht K log_start log_trans. split; [|split].
  - intros log_B len log_alpha H.
    apply forward_pass_shape in H; destruct H as [Hlen ->].
    split; [now rewrite length_map, length_seq|]. split.
    + rewrite nth_map_seq by lia. reflexivity.
    + intros t j Ht1 Hj.
      unfold get2 at 1 2. rewrite !nth_map_seq by lia.
      destruct t as [|t']; [lia|].
      replace (S t' - 1)%nat with t' by lia.
      simpl log_alpha_spec. rewrite nth_map_seq by lia. reflexivity.
  - intros g xi total H.
    destruct (forward_backward_unfold m startprob transmat log_emissions
                lengths _ Hs Ht H) as [st [Hloop Hr]].
    pose proof (fb_loop_forward _ _ _ _ _ _ _ Hloop) as Hfw.
    apply fb_loop_likelihood in Hloop; destruct Hloop as (_ & _ & Htot).
    simpl in Htot, Hfw. injection Hr as _ _ ->.
    fold K log_start log_trans in Htot, Hfw.
    exists (map (fun chain =>
                   map (log_alpha_spec K log_start log_trans (fst chain))
                     (seq 0 (snd chain)))
              (chains log_emissions lengths)).
    split.
    + clear Htot. induction Hfw as [|chain rest [_ Hch] _ IH]; simpl;
        constructor; auto.
    + rewrite Htot, Rplus_0_l. f_equal. rewrite map_map.
      clear Htot. induction Hfw as [|chain rest [Hlen _] _ IH]; simpl;
        [reflexivity|].
      f_equal; [|exact IH].
      unfold chain_log_likelihood.
      destruct (snd chain) as [|n]; [lia|].
      rewrite last_map_seq. now replace (S n - 1)%nat with n by lia.
  - intros Hall Hsum.
    eapply forward_backward_total; eauto.
Qed.

(** C2.  When the chain lengths sum to the row count of the log-emission
    matrix (and there is at least one regime), every row of the [gamma]
    that [_forward_backward] returns sums to 1, well within 1e-6; [gamma]
    has one row per sample; and the call does return when no chain is
    empty. *)
Theorem forward_backward_gamma_rows_sum_to_1 (m : MSRF)
  (log_emissions : Mat) (lengths : list nat) :
  (1 <= n_states m)%nat ->
  list_sum lengths = length log_emissions ->
  (forall gamma xi_sum total,
      _forward_backward m log_emissions lengths = Ok (gamma, xi_sum, total) ->
      length gamma = length log_emissions
      /\ Forall (fun row => Rabs (vsum row - 1) < 1e-6) gamma)
  /\ (startprob_ m <> None -> transmat_ m <> None ->
      Forall (fun len => 1 <= len)%nat lengths ->
      exists r, _forward_backward m log_emissions lengths = Ok r).
Proof.
  intros HK Hsum; split.
  - intros g xi total H.
    destruct (startprob_ m) as [startprob|] eqn:Hs;
      [|unfold _forward_backward in H; rewrite Hs in H; discriminate].
    destruct (transmat_ m) as [transmat|] eqn:Ht;
      [|unfold _forward_backward in H; rewrite Hs, Ht in H; discriminate].
    destruct (forward_backward_unfold m startprob transmat log_emissions
                lengths _ Hs Ht H) as [st [Hloop Hr]].
    pose proof (fb_loop_likelihood _ _ _ _ _ _ _ Hloop) as (Hc & _ & _).
    apply (fb_loop_gamma _ _ _ _
             (fun row => Rabs (vsum row - 1) < 1e-6)) in Hloop.
    + destruct Hloop as [Hlen HF]. simpl in Hlen, Hc.
      injection Hr as -> _ _.
      unfold zeros2 in Hlen; rewrite repeat_length in Hlen.
      split; [exact Hlen|].
      rewrite Hc, Hsum, <- Hlen, firstn_all in HF. exact HF.
    + intros row Hrow.
      rewrite (posterior_row_sums_to_1 _ _ HK Hrow).
      rewrite Rminus_diag, Rabs_R0. lra.
    + simpl. constructor.
  - intros Hs Ht Hall.
    destruct (startprob_ m) as [startprob|] eqn:Hs'; [|congruence].
    destruct (transmat_ m) as [transmat|] eqn:Ht'; [|congruence].
    eapply forward_backward_total; eauto. lia.
Qed.

End ForwardBackward.

(** ** The emission scorer *)

Section Scorer.

Context {L : Learner}.


Lemma vsum_nonneg (v : list R) : Forall (Rle 0) v -> 0 <= vsum v.
Proof.
  induction 1 as [|x v Hx _ IH]; simpl; lra.
Qed.

Lemma entry_le_vsum (row : list R) (x : R) :
  Forall (Rle 0) row -> In x row -> x <= vsum row.
Proof.
  induction 1 as [|y row Hy Hrow IH]; intros Hin; [inversion Hin|].
  pose proof (vsum_nonneg row Hrow). simpl.
  destruct Hin as [->|Hin]; [lra | specialize (IH Hin); lra].
Qed.

Lemma set_nth_Forall {A : Type} (P : A -> Prop) (i : nat) (v : A)
  (l : list A) :
  P v -> Forall P l -> Forall P (set_nth i v l).
Proof.
  intros Hv Hl; revert i; induction Hl as [|h t Hh Ht IH]; intros [|i];
    simpl; auto.
Qed.

Lemma zeros2_nonneg (N K : nat) : nonneg_matrix N K (zeros2 N K).
Proof.
  unfold nonneg_matrix, zeros2, zeros; split; [apply repeat_length|].
  apply Forall_forall; intros row Hin. apply repeat_spec in Hin; subst row.
  split; [apply repeat_length|].
  apply Forall_forall; intros x Hx. apply repeat_spec in Hx; lra.
Qed.

Lemma set_column_nonneg (N K k : nat) (col : list R) (M : Mat) :
  Forall (Rle 0) col -> nonneg_matrix N K M ->
  nonneg_matrix N K (set_column k col M).
Proof.
  intros Hcol [HN HM]; subst N; split.
  - clear HM Hcol; revert col; induction M as [|row M IH]; intros [|v col];
      simpl; auto.
  - revert col Hcol; induction HM as [|row M [Hr1 Hr2] HM IH];
      intros [|v col] Hcol; simpl; auto.
    inversion Hcol; subst. constructor; [|now apply IH].
    split; [now rewrite set_nth_length | now apply set_nth_Forall].
Qed.

Lemma mean_squares_nonneg (mu : R) (v : list R) :
  0 <= mean (map (fun x => (x - mu) * (x - mu)) v).
Proof.
  unfold mean. destruct v as [|x v].
  - simpl. unfold Rdiv; rewrite Rmult_0_l; lra.
  - apply Rmult_le_pos.
    + apply vsum_nonneg, Forall_forall; intros y Hy.
      apply in_map_iff in Hy; destruct Hy as [z [<- _]].
      apply (Rle_0_sqr (z - mu)).
    + left; apply Rinv_0_lt_compat, lt_0_INR.
      rewrite length_map; simpl; lia.
Qed.

Lemma confidence_scores_nonneg (X : list Sample) (k : nat) (e : Expert) :
  exists col, confidence_scores X k e = Ok col /\ Forall (Rlt 0) col.
Proof.
  eexists; split; [reflexivity|].
  apply Forall_forall; intros s Hs.
  apply in_map_iff in Hs; destruct Hs as [x [<- _]].
  unfold tree_variance, var.
  pose proof (mean_squares_nonneg
                (mean (map (fun tree => tree x) (rf_estimators_ e)))
                (map (fun tree => tree x) (rf_estimators_ e))) as Hv.
  apply Rdiv_lt_0_compat; lra.
Qed.

Lemma risk_scores_nonneg (K : nat) (X : list Sample) (k : nat) (e : Expert)
  (col : list R) :
  risk_scores K X k e = Ok col -> Forall (Rlt 0) col.
Proof.
  unfold risk_scores; intros H.
  apply bind_ok in H; destruct H as [rp [_ H]].
  destruct (Nat.ltb k K); [|discriminate]. injection H as <-.
  apply Forall_forall; intros s Hs.
  apply in_map_iff in Hs; destruct Hs as [p [<- _]]. apply exp_pos.
Qed.

Lemma Forall_lt_le (v : list R) : Forall (Rlt 0) v -> Forall (Rle 0) v.
Proof. apply Forall_impl; intros; lra. Qed.

Lemma score_experts_nonneg (N K : nat)
  (f : nat -> Expert -> result (list R)) (es : list Expert) :
  (forall k e col, f k e = Ok col -> Forall (Rlt 0) col) ->
  forall k scores scores',
    nonneg_matrix N K scores ->
    score_experts K f k es scores = Ok scores' ->
    nonneg_matrix N K scores'.
Proof.
  intros Hf; induction es as [|e es IH]; simpl; intros k scores scores' HM H.
  - now injection H as <-.
  - apply bind_ok in H; destruct H as [col [Hcol H]].
    destruct (Nat.ltb k K); [|discriminate].
    apply IH in H; auto.
    apply set_column_nonneg; auto. eapply Forall_lt_le, Hf; eauto.
Qed.

Lemma expert_scores_nonneg (m : MSRF) (X : list Sample) (scores : Mat) :
  expert_scores m X = Ok scores ->
  nonneg_matrix (length X) (n_states m) scores.
Proof.
  unfold expert_scores; intros H.
  destruct (String.eqb (mode m) "confidence").
  - eapply score_experts_nonneg; [| apply zeros2_nonneg | exact H].
    intros k e col Hc.
    destruct (confidence_scores_nonneg X k e) as [col' [Hc' Hpos]].
    congruence.
  - destruct (String.eqb (mode m) "risk"); [|discriminate].
    eapply score_experts_nonneg; [| apply zeros2_nonneg | exact H].
    intros k e col Hc. eapply risk_scores_nonneg; eauto.
Qed.

(** What lines 85-86 make of one row of raw scores. *)
Lemma normalized_row (row : list R) :
  Forall (Rle 0) row ->
  let out := map (fun x => x / (vsum row + 1e-10)) row in
  length out = length row
  /\ Forall (Rle 0) out
  /\ vsum out = vsum row / (vsum row + 1e-10)
  /\ vsum out < 1.
Proof.
  intros Hrow out. pose proof (vsum_nonneg row Hrow) as HS.
  assert (Hd : 0 < vsum row + 1e-10) by lra.
  assert (Hsum : vsum out = vsum row / (vsum row + 1e-10))
    by apply vsum_map_div.
  repeat split.
  - apply length_map.
  - apply Forall_forall; intros y Hy.
    apply in_map_iff in Hy; destruct Hy as [x [<- Hx]].
    rewrite Forall_forall in Hrow. specialize (Hrow x Hx).
    apply Rmult_le_pos; [lra | left; now apply Rinv_0_lt_compat].
  - exact Hsum.
  - rewrite Hsum. apply (Rmult_lt_reg_r (vsum row + 1e-10)); [lra|].
    unfold Rdiv; rewrite Rmult_assoc, Rinv_l by lra. lra.
Qed.

Lemma expert_confidence_rows (m : MSRF) (X : list Sample) (conf : Mat) :
  _get_expert_confidence m X = Ok conf ->
  exists scores,
    expert_scores m X = Ok scores
    /\ nonneg_matrix (length X) (n_states m) scores
    /\ conf = div_rows_by (fun row => vsum row + 1e-10) scores
    /\ nonneg_matrix (length X) (n_states m) conf
    /\ Forall (fun row => vsum row < 1) conf.
Proof.
  unfold _get_expert_confidence; intros H.
  apply bind_ok in H; destruct H as [scores [Hs H]]. injection H as <-.
  pose proof (expert_scores_nonneg m X scores Hs) as [HN HM].
  exists scores; repeat split; auto.
  - unfold div_rows_by; now rewrite length_map.
  - unfold div_rows_by. apply Forall_map.
    eapply Forall_impl; [|exact HM]. intros row [Hlen Hrow].
    destruct (normalized_row row Hrow) as (H1 & H2 & _ & _).
    split; [congruence | exact H2].
  - unfold div_rows_by. apply Forall_map.
    eapply Forall_impl; [|exact HM]. intros row [Hlen Hrow].
    now destruct (normalized_row row Hrow) as (_ & _ & _ & H4).
Qed.

End Scorer.

Section ScorerModes.

Context {L : Learner}.

Lemma positive_class_total (P : Mat) :
  Forall (fun row => 2 <= length row)%nat P ->
  positive_class P = Ok (column 1 P).
Proof.
  intros H; unfold positive_class.
  replace (forallb (fun row => Nat.ltb 1 (length row)) P) with true;
    [reflexivity|].
  symmetry; apply forallb_forall; intros row Hin.
  rewrite Forall_forall in H. apply Nat.ltb_lt. specialize (H row Hin). lia.
Qed.

Lemma score_experts_total (K : nat) (f : nat -> Expert -> result (list R))
  (es : list Expert) :
  (forall k e, In e es -> (k < K)%nat -> exists col, f k e = Ok col) ->
  forall k scores,
    (k + length es <= K)%nat ->
    exists scores', score_experts K f k es scores = Ok scores'.
Proof.
  induction es as [|e es IH]; simpl; intros Hf k scores Hk; [eauto|].
  destruct (Hf k e) as [col Hcol]; auto; [lia|].
  rewrite Hcol; simpl.
  destruct (Nat.ltb_spec k K); [|lia].
  apply IH; [|lia]. intros; apply Hf; auto.
Qed.

Lemma score_experts_no_ValueError (K : nat)
  (f : nat -> Expert -> result (list R)) (msg : string) (es : list Expert) :
  (forall k e, f k e <> Raise (ValueError msg)) ->
  forall k scores, score_experts K f k es scores <> Raise (ValueError msg).
Proof.
  intros Hf; induction es as [|e es IH]; simpl; intros k scores;
    [discriminate|].
  destruct (f k e) as [col|err] eqn:E; simpl.
  - destruct (Nat.ltb k K); [apply IH | discriminate].
  - intros H; apply (Hf k e). congruence.
Qed.

Lemma risk_scores_no_ValueError (K : nat) (X : list Sample) (k : nat)
  (e : Expert) (msg : string) :
  risk_scores K X k e <> Raise (ValueError msg).
Proof.
  unfold risk_scores, positive_class.
  destruct (forallb _ _); simpl; [|discriminate].
  destruct (Nat.ltb k K); discriminate.
Qed.

Lemma expert_scores_known_mode (m : MSRF) (X : list Sample) :
  mode m = "confidence"%string \/ mode m = "risk"%string ->
  (length (experts m) <= n_states m)%nat ->
  (mode m = "risk"%string ->
   forall e x, In e (experts m) -> In x X ->
               (2 <= length (rf_predict_proba e x))%nat) ->
  exists scores, expert_scores m X = Ok scores.
Proof.
  intros Hmode Hlen Hpp. unfold expert_scores.
  destruct Hmode as [Hm|Hm]; rewrite Hm; simpl.
  - apply score_experts_total; [|simpl; lia].
    intros k e _ _. unfold confidence_scores; eauto.
  - apply score_experts_total; [|simpl; lia].
    intros k e He Hk. unfold risk_scores.
    rewrite positive_class_total.
    + simpl. destruct (Nat.ltb_spec k (n_states m)); [eauto | lia].
    + apply Forall_map, Forall_forall; intros x Hx. now apply Hpp.
Qed.

Lemma get_expert_confidence_rows_aux (m : MSRF) (X : list Sample) :
  (forall conf,
      _get_expert_confidence m X = Ok conf ->
      length conf = length X)
  /\ (mode m = "confidence"%string \/ mode m = "risk"%string ->
      (length (experts m) <= n_states m)%nat ->
      (forall e x, In e (experts m) -> In x X ->
                   (2 <= length (rf_predict_proba e x))%nat) ->
      exists conf, _get_expert_confidence m X = Ok conf).
Proof.
  split.
  - intros conf H.
    now destruct (expert_confidence_rows m X conf H)
      as (_ & _ & _ & _ & [HN _] & _).
  - intros Hmode Hlen Hpp.
    destruct (expert_scores_known_mode m X Hmode Hlen) as [scores Hs];
      [intros _; exact Hpp|].
    unfold _get_expert_confidence. rewrite Hs; simpl; eauto.
Qed.

(** C7.  With a mode string that is neither ['confidence'] nor ['risk'] the
    emission scorer raises [ValueError("Unknown mode: ...")] whatever the
    feature matrix: no score matrix comes back and no other mode is run;
    with either known mode it never raises a [ValueError]. *)
Theorem get_expert_confidence_unknown_mode (m : MSRF) (X : list Sample) :
  (mode m <> "confidence"%string -> mode m <> "risk"%string ->
   _get_expert_confidence m X
   = Raise (ValueError ("Unknown mode: " ++ mode m)))
  /\ (mode m = "confidence"%string \/ mode m = "risk"%string ->
      forall msg, _get_expert_confidence m X <> Raise (ValueError msg)).
Proof.
  unfold _get_expert_confidence, expert_scores; split.
  - intros Hc Hr.
    apply String.eqb_neq in Hc, Hr. rewrite Hc, Hr. reflexivity.
  - intros Hmode msg H.
    assert (Hs : (if String.eqb (mode m) "confidence"
                  then score_experts (n_states m) (confidence_scores X) 0
                         (experts m) (zeros2 (length X) (n_states m))
                  else if String.eqb (mode m) "risk"
                  then score_experts (n_states m)
                         (risk_scores (n_states m) X) 0 (experts m)
                         (zeros2 (length X) (n_states m))
                  else Raise (ValueError ("Unknown mode: " ++ mode m)))
                 = Raise (ValueError msg)).
    { destruct (if String.eqb (mode m) "confidence" then _ else _);
        simpl in H; [discriminate | exact H]. }
    clear H. destruct Hmode as [Hm|Hm]; rewrite Hm in Hs; simpl in Hs.
    + revert Hs. apply score_experts_no_ValueError.
      intros k e; unfold confidence_scores; discriminate.
    + revert Hs. apply score_experts_no_ValueError.
      intros k e; apply risk_scores_no_ValueError.
Qed.

(** *** How close to 1 a row of the scorer sums *)















End ScorerModes.

(** ** The EM loop *)

Section EM.

Context {L : Learner}.

Variables (X_flat : list Sample) (y_flat : list Label) (lengths : list nat).

(** The two ways out of one pass through the loop body. *)
Lemma em_iteration_cases (i : nat) (m : MSRF) (prev : option R) (rng : Rng)
  (fl : flow) (st' : em_state) :
  em_iteration X_flat y_flat lengths i (m, prev, rng) = Ok (fl, st') ->
  exists gamma xi_sum curr,
    e_step m X_flat lengths = Ok (gamma, xi_sum, curr)
    /\ ((converged i curr prev (tol m) = true
         /\ fl = Break
         /\ st' = (set_monitor_ (monitor_ m ++ [curr]) m, prev, rng))
        \/ (converged i curr prev (tol m) = false
            /\ fl = Continue
            /\ exists es rng',
                 refit_experts (n_states m) X_flat y_flat gamma
                   (experts m) rng = Ok (es, rng')
                 /\ st' = (set_experts es
                             (set_transmat_ (div_rows_by vsum xi_sum)
                                (set_monitor_ (monitor_ m ++ [curr]) m)),
                           Some curr, rng'))).
Proof.
  unfold em_iteration; intros H.
  apply bind_ok in H; destruct H as [[[g xi] curr] [He H]].
  exists g, xi, curr; split; [exact He|].
  simpl tol in H.
  destruct (converged i curr prev (tol m)).
  - left. repeat split; congruence.
  - right. apply bind_ok in H; destruct H as [[es rng'] [Hr H]].
    repeat split; [congruence|]. exists es, rng'; split; [exact Hr|].
    congruence.
Qed.

Lemma converged_true (i : nat) (curr : R) (prev : option R) (tl : R) :
  converged i curr prev tl = true <->
  (2 <= i)%nat /\ exists p, prev = Some p /\ Rabs (curr - p) < tl.
Proof.
  unfold converged, Rltb. rewrite andb_true_iff, Nat.ltb_lt. split.
  - intros [Hi Hp]. split; [lia|].
    destruct prev as [p|]; [|discriminate].
    exists p; split; auto. destruct (Rlt_dec _ _); [auto | discriminate].
  - intros [Hi [p [-> Hp]]]. split; [lia|].
    destruct (Rlt_dec _ _); [auto | contradiction].
Qed.

Lemma refit_experts_frame (K : nat) (gamma : Mat) (es es' : list Expert)
  (rng rng' : Rng) (k : nat) :
  refit_experts K X_flat y_flat gamma es rng = Ok (es', rng') ->
  ~ vsum (column k gamma) > 1e-5 ->
  nth_error es' k = nth_error es k.
Proof.
  unfold refit_experts; intros H Hk.
  apply (forM_invariant
           (fun acc : list Expert * Rng =>
              nth_error (fst acc) k = nth_error es k)) in H; auto.
  intros k' acc acc' _ Hacc Hb.
  unfold Rgtb in Hb.
  destruct (Rgt_dec (vsum (column k' gamma)) 1e-5) as [Hgt|Hle].
  - apply bind_ok in Hb; destruct Hb as [e [_ Hb]].
    destruct (rf_fit e X_flat y_flat (Some (column k' gamma)) (snd acc))
      as [e' r'].
    injection Hb as <-. simpl.
    rewrite nth_error_set_nth_neq; [exact Hacc|].
    intros ->; contradiction.
  - injection Hb as <-; exact Hacc.
Qed.

Lemma refit_experts_total (K : nat) (gamma : Mat) (es : list Expert)
  (rng : Rng) :
  (K <= length es)%nat ->
  exists r, refit_experts K X_flat y_flat gamma es rng = Ok r
            /\ length (fst r) = length es.
Proof.
  intros HK. unfold refit_experts.
  apply (forM_total
           (fun acc : list Expert * Rng => length (fst acc) = length es));
    auto.
  intros k acc Hin Hacc. apply in_seq in Hin.
  destruct (Rgtb (vsum (column k gamma)) 1e-5); [|eauto].
  destruct (nth_error (fst acc) k) as [e|] eqn:E.
  - unfold getitem; rewrite E; simpl.
    destruct (rf_fit e X_flat y_flat (Some (column k gamma)) (snd acc))
      as [e' r'].
    eexists; split; [reflexivity|]. simpl. now rewrite set_nth_length.
  - apply nth_error_None in E. lia.
Qed.

Lemma em_iteration_total (i : nat) (m : MSRF) (prev : option R) (rng : Rng)
  (r : Mat * Mat * R) :
  e_step m X_flat lengths = Ok r ->
  (n_states m <= length (experts m))%nat ->
  exists fl st', em_iteration X_flat y_flat lengths i (m, prev, rng)
                 = Ok (fl, st').
Proof.
  intros He HK. unfold em_iteration. rewrite He.
  destruct r as [[g xi] curr]; simpl.
  destruct (converged i curr prev (tol m)); [eauto|].
  destruct (refit_experts_total (n_states m) g (experts m) rng HK)
    as [[es rng'] [Hr _]].
  rewrite Hr; simpl; eauto.
Qed.


(** C5.  In any pass of the EM loop, a regime [k] whose weight column
    [gamma[:, k]] sums below 1e-5 keeps its expert: the expert at index [k]
    after the pass is the one before it.  The pass does complete whenever
    its E-step does and there is an expert for every regime. *)
Theorem fit_skips_degenerate_expert (i : nat) (m : MSRF) (prev : option R)
  (rng : Rng) (gamma xi_sum : Mat) (curr : R) :
  e_step m X_flat lengths = Ok (gamma, xi_sum, curr) ->
  (forall fl m' prev' rng' k,
      em_iteration X_flat y_flat lengths i (m, prev, rng)
      = Ok (fl, (m', prev', rng')) ->
      vsum (column k gamma) < 1e-5 ->
      nth_error (experts m') k = nth_error (experts m) k)
  /\ ((n_states m <= length (experts m))%nat ->
      exists fl st',
        em_iteration X_flat y_flat lengths i (m, prev, rng) = Ok (fl, st')).
Proof.
  intros He; split.
  - intros fl m' prev' rng' k H Hk.
    apply em_iteration_cases in H.
    destruct H as (g & xi & c & He' & [(_ & _ & Hst) | (_ & _ & Hst)]).
    + injection Hst as -> _ _. reflexivity.
    + destruct Hst as (es & r' & Hr & Hst).
      injection Hst as -> _ _. simpl.
      assert (g = gamma) by congruence; subst g.
      eapply refit_experts_frame; [exact Hr | lra].
  - intros HK. eapply em_iteration_total; eauto.
Qed.

Lemma em_iteration_startprob (i : nat) (m m' : MSRF) (prev prev' : option R)
  (rng rng' : Rng) (fl : flow) :
  em_iteration X_flat y_flat lengths i (m, prev, rng)
  = Ok (fl, (m', prev', rng')) ->
  startprob_ m' = startprob_ m /\ n_states m' = n_states m
  /\ mode m' = mode m /\ tol m' = tol m.
Proof.
  intros H. apply em_iteration_cases in H.
  destruct H as (g & xi & c & _ & [(_ & _ & Hst) | (_ & _ & Hst)]).
  - injection Hst as -> _ _. auto.
  - destruct Hst as (es & r' & _ & Hst). injection Hst as -> _ _. auto.
Qed.

Lemma em_loop_startprob (iters : list nat) (m m' : MSRF)
  (prev prev' : option R) (rng rng' : Rng) :
  em_loop X_flat y_flat lengths iters (m, prev, rng) = Ok (m', prev', rng') ->
  startprob_ m' = startprob_ m.
Proof.
  revert m prev rng; induction iters as [|i rest IH]; intros m prev rng H.
  - simpl in H. congruence.
  - simpl in H. apply bind_ok in H.
    destruct H as [[fl [[m1 p1] r1]] [H1 H]].
    apply em_iteration_startprob in H1. destruct H1 as [Hs _].
    destruct fl; simpl in H.
    + apply IH in H. congruence.
    + injection H as <- _ _. exact Hs.
Qed.

End EM.

(** ** [fit] as a whole *)

Section Fit.

Context {L : Learner}.


Hypothesis two_columns :
  forall (e : Expert) (x : Sample), (2 <= length (rf_predict_proba e x))%nat.

Lemma e_step_total (m : MSRF) (X_flat : list Sample) (lengths : list nat) :
  runnable m ->
  Forall (fun len => 1 <= len)%nat lengths ->
  (list_sum lengths <= length X_flat)%nat ->
  exists r, e_step m X_flat lengths = Ok r.
Proof.
  intros (Hmode & Hes & Hs & Ht) Hall Hsum. unfold e_step.
  destruct (proj2 (get_expert_confidence_rows_aux m X_flat)) as [conf Hc];
    auto; [lia|].
  rewrite Hc; simpl.
  destruct (startprob_ m) as [sp|] eqn:Hsp; [|congruence].
  destruct (transmat_ m) as [tm|] eqn:Htm; [|congruence].
  eapply forward_backward_total; eauto.
  rewrite length_map.
  destruct (expert_confidence_rows m X_flat conf Hc)
    as (_ & _ & _ & _ & [HN _] & _).
  lia.
Qed.

Lemma em_iteration_runnable (X_flat : list Sample) (y_flat : list Label)
  (lengths : list nat) (i : nat) (m m' : MSRF) (prev prev' : option R)
  (rng rng' : Rng) (fl : flow) :
  runnable m ->
  em_iteration X_flat y_flat lengths i (m, prev, rng)
  = Ok (fl, (m', prev', rng')) ->
  runnable m'.
Proof.
  intros (Hmode & Hes & Hs & Ht) H.
  apply em_iteration_cases in H.
  destruct H as (g & xi & c & _ & [(_ & _ & Hst) | (_ & _ & Hst)]).
  - injection Hst as -> _ _. repeat split; auto.
  - destruct Hst as (es & r' & Hr & Hst). injection Hst as -> _ _.
    repeat split; simpl; auto; try discriminate.
    destruct (refit_experts_total X_flat y_flat (n_states m) g (experts m)
                rng) as [r [Hr' Hlen]]; [lia|].
    rewrite Hr in Hr'. injection Hr' as <-. simpl in Hlen. congruence.
Qed.

Lemma em_loop_cons (X_flat : list Sample) (y_flat : list Label)
  (lengths : list nat) (i : nat) (rest : list nat) (st : em_state) :
  em_loop X_flat y_flat lengths (i :: rest) st
  = (r <- em_iteration X_flat y_flat lengths i st ;;
     match fst r with
     | Break => Ok (snd r)
     | Continue => em_loop X_flat y_flat lengths rest (snd r)
     end).
Proof. reflexivity. Qed.

Lemma em_loop_total (X_flat : list Sample) (y_flat : list Label)
  (lengths : list nat) (iters : list nat) (m : MSRF) (prev : option R)
  (rng : Rng) :
  runnable m ->
  Forall (fun len => 1 <= len)%nat lengths ->
  (list_sum lengths <= length X_flat)%nat ->
  exists st', em_loop X_flat y_flat lengths iters (m, prev, rng) = Ok st'.
Proof.
  intros Hrun Hall Hsum.
  revert m prev rng Hrun; induction iters as [|i rest IH];
    intros m prev rng Hrun; [simpl; eauto|].
  rewrite em_loop_cons.
  destruct (e_step_total m X_flat lengths Hrun Hall Hsum) as [r He].
  destruct (em_iteration_total X_flat y_flat lengths i m prev rng r He)
    as (fl & [[m1 p1] r1] & Hit).
  { destruct Hrun as (_ & Hes & _). lia. }
  rewrite Hit; simpl.
  destruct fl; [|eauto].
  apply IH. eapply em_iteration_runnable; eauto.
Qed.

Lemma fit_cases (m : MSRF) (data : TrainingInput) (rng : Rng) (m' : MSRF)
  (rng' : Rng) :
  fit m data rng = Ok (m', rng') ->
  exists X_flat y_flat lengths m0 rng0 prev',
    fit_segment data = Ok (X_flat, y_flat, lengths)
    /\ _init_params m X_flat y_flat rng = Ok (m0, rng0)
    /\ em_loop X_flat y_flat lengths (seq 0 (n_iter m0))
         (set_monitor_ [] m0, None, rng0) = Ok (m', prev', rng').
Proof.
  unfold fit; intros H.
  apply bind_ok in H; destruct H as [[[X y] lens] [Hseg H]].
  apply bind_ok in H; destruct H as [[m0 rng0] [Hinit H]].
  apply bind_ok in H; destruct H as [[[m1 p1] r1] [Hloop H]].
  injection H as <- <-.
  exists X, y, lens, m0, rng0, p1. auto.
Qed.

Lemma init_params_fields (m : MSRF) (X : list Sample) (y : list Label)
  (rng : Rng) (m0 : MSRF) (rng0 : Rng) :
  _init_params m X y rng = Ok (m0, rng0) ->
  exists labels trans_counts,
    KMeans_fit_predict (n_states m) X = Ok labels
    /\ count_transitions (n_states m) labels = Ok trans_counts
    /\ startprob_ m0
       = Some (map (fun c => c / vsum (bincount labels (n_states m)))
                 (bincount labels (n_states m)))
    /\ transmat_ m0
       = Some (div_rows_by (fun row => vsum row + 1e-10) trans_counts)
    /\ experts m0
       = fst (init_experts (n_states m) (rf_config m) X y rng)
    /\ n_states m0 = n_states m /\ mode m0 = mode m
    /\ n_iter m0 = n_iter m /\ tol m0 = tol m.
Proof.
  unfold _init_params; intros H.
  apply bind_ok in H; destruct H as [labels [Hk H]].
  apply bind_ok in H; destruct H as [tc [Hc H]].
  destruct (init_experts (n_states m) (rf_config m) X y rng) as [es r].
  injection H as <- <-.
  exists labels, tc. simpl. repeat split; auto.
Qed.

Lemma init_experts_length (n : nat) (cfg : RFConfig) (X : list Sample)
  (y : list Label) (rng : Rng) :
  length (fst (init_experts n cfg X y rng)) = n.
Proof.
  revert rng; induction n as [|n IH]; intros rng; simpl; [reflexivity|].
  destruct (rf_fit (RandomForestClassifier cfg) X y None rng) as [rf r1].
  specialize (IH r1).
  destruct (init_experts n cfg X y r1) as [es r2]. simpl in *. congruence.
Qed.

(** C6.  In a call to [fit] that returns, [startprob_] is the vector that
    [_init_params] computed from the cluster labels (the first thing [fit]
    does with the flattened data) and no pass of the EM loop has changed
    it. *)
Theorem fit_startprob_fixed_after_init (m : MSRF) (data : TrainingInput)
  (rng : Rng) (m' : MSRF) (rng' : Rng) :
  fit m data rng = Ok (m', rng') ->
  exists X_flat y_flat lengths m0 rng0 labels,
    fit_segment data = Ok (X_flat, y_flat, lengths)
    /\ _init_params m X_flat y_flat rng = Ok (m0, rng0)
    /\ KMeans_fit_predict (n_states m) X_flat = Ok labels
    /\ startprob_ m0
       = Some (map (fun c => c / vsum (bincount labels (n_states m)))
                 (bincount labels (n_states m)))
    /\ (forall iters prev rng1 m1 prev1 rng2,
           em_loop X_flat y_flat lengths iters (m0, prev, rng1)
           = Ok (m1, prev1, rng2) ->
           startprob_ m1 = startprob_ m0)
    /\ startprob_ m' = startprob_ m0.
Proof.
  intros H. apply fit_cases in H.
  destruct H as (X & y & lens & m0 & rng0 & p' & Hseg & Hinit & Hloop).
  destruct (init_params_fields _ _ _ _ _ _ Hinit)
    as (labels & tc & Hk & _ & Hs & _).
  exists X, y, lens, m0, rng0, labels. repeat split; auto.
  - intros iters prev rng1 m1 prev1 rng2 H1.
    eapply em_loop_startprob; eauto.
  - apply em_loop_startprob in Hloop. exact Hloop.
Qed.

(** What [np.vstack] returns: the rows of its arguments, a 1-D array
    counting as one row. *)
Lemma vstack_ok (Xs : list ndarray) (X_flat : list Sample) :
  vstack Xs = Ok X_flat ->
  Xs <> [] /\ X_flat = concat (map (fun x => snd (atleast_2d x)) Xs).
Proof.
  unfold vstack. destruct Xs as [|x Xs]; [discriminate|].
  change (map atleast_2d (x :: Xs))
    with (atleast_2d x :: map atleast_2d Xs).
  cbv beta iota.
  destruct (forallb (fun a => Nat.eqb (fst a) (fst (atleast_2d x)))
              (map atleast_2d Xs)); [|discriminate].
  intros H; injection H as <-. split; [discriminate|].
  change (atleast_2d x :: map atleast_2d Xs)
    with (map atleast_2d (x :: Xs)).
  now rewrite map_map.
Qed.

Lemma stacked_rows_2d (Xs : list ndarray) :
  Forall (fun x => ndim x = 2%nat) Xs ->
  length (concat (map (fun x => snd (atleast_2d x)) Xs))
  = list_sum (map array_len Xs).
Proof.
  induction 1 as [|x Xs Hx _ IH]; [reflexivity|].
  simpl. rewrite length_app, IH.
  destruct x as [v|d rows]; [discriminate | reflexivity].
Qed.


(** The chain lengths and the rows that lines 155-160 derive from the
    input. *)
Lemma segment_cases (X_input : XInput) (X_flat : list Sample)
  (lengths : list nat) :
  segment X_input = Ok (X_flat, lengths) ->
  match X_input with
  | Array X => X_flat = X /\ lengths = [length X]
  | ArrayList Xs =>
      X_flat = concat (map (fun x => snd (atleast_2d x)) Xs)
      /\ lengths = map array_len Xs
  end.
Proof.
  destruct X_input as [X|Xs]; simpl; intros H.
  - injection H as <- <-. auto.
  - apply bind_ok in H; destruct H as [X [Hv H]]. injection H as <- <-.
    apply vstack_ok in Hv. tauto.
Qed.

Lemma fit_segment_cases (data : TrainingInput) (X_flat : list Sample)
  (y_flat : list Label) (lengths : list nat) :
  fit_segment data = Ok (X_flat, y_flat, lengths) ->
  match data with
  | TrainArray X y => X_flat = X /\ y_flat = y /\ lengths = [length X]
  | TrainList Xs ys =>
      X_flat = concat (map (fun x => snd (atleast_2d x)) Xs)
      /\ y_flat = concat ys
      /\ lengths = map array_len Xs
  end.
Proof.
  destruct data as [X y|Xs ys]; simpl; intros H.
  - injection H as <- <- <-. auto.
  - apply bind_ok in H; destruct H as [X [Hv H]].
    apply bind_ok in H; destruct H as [y [Hy H]]. injection H as <- <- <-.
    apply vstack_ok in Hv. destruct ys; [discriminate|].
    injection Hy as <-. tauto.
Qed.


(** A list of 1-D arrays of one size: each is one row of the stacked
    matrix, and each length is that size. *)
Lemma segment_1d (x : list R) (Xs : list (list R)) :
  Forall (fun x' => length x' = length x) Xs ->
  segment (ArrayList (map Array1 (x :: Xs)))
  = Ok (x :: Xs, map (@length R) (x :: Xs)).
Proof.
  intros Hall. unfold segment, vstack.
  change (map atleast_2d (map Array1 (x :: Xs)))
    with ((length x, [x]) :: map atleast_2d (map Array1 Xs)).
  cbv beta iota.
  match goal with
  | |- context [forallb ?f ?l] => assert (Hw : forallb f l = true)
  end.
  { apply forallb_forall. intros a Ha.
    apply in_map_iff in Ha. destruct Ha as [y [<- Hy]].
    apply in_map_iff in Hy. destruct Hy as [x' [<- Hx']].
    rewrite Forall_forall in Hall. simpl.
    apply Nat.eqb_eq. now apply Hall. }
  rewrite Hw. simpl bind. f_equal. f_equal.
  - simpl. f_equal. clear.
    induction Xs as [|a Xs IH]; [reflexivity|].
    simpl. f_equal. exact IH.
  - simpl. f_equal. now rewrite map_map.
Qed.

(** [predict_proba] hands the derived lengths to [_forward_backward]. *)
Lemma predict_proba_engine (m : MSRF) (X_input : XInput)
  (X_flat : list Sample) (lengths : list nat) (conf : Mat) :
  segment X_input = Ok (X_flat, lengths) ->
  _get_expert_confidence m X_flat = Ok conf ->
  (forall e,
      _forward_backward m (map log_floor conf) lengths = Raise e ->
      predict_proba m X_input = Raise e)
  /\ (forall probs,
         predict_proba m X_input = Ok probs ->
         exists r, _forward_backward m (map log_floor conf) lengths = Ok r).
Proof.
  intros Hseg Hc. unfold predict_proba.
  rewrite Hseg; simpl bind. rewrite Hc; simpl bind. split.
  - intros e He. now rewrite He.
  - intros probs H.
    destruct (_forward_backward m (map log_floor conf) lengths) as [r|e];
      [eauto | discriminate].
Qed.

(** So does the first pass of [fit]; every later pass runs on the same
    [lengths]. *)
Lemma fit_engine (m : MSRF) (data : TrainingInput) (rng : Rng)
  (X_flat : list Sample) (y_flat : list Label) (lengths : list nat)
  (m0 : MSRF) (rng0 : Rng) (conf : Mat) :
  fit_segment data = Ok (X_flat, y_flat, lengths) ->
  _init_params m X_flat y_flat rng = Ok (m0, rng0) ->
  (1 <= n_iter m)%nat ->
  _get_expert_confidence (set_monitor_ [] m0) X_flat = Ok conf ->
  (forall e,
      _forward_backward (set_monitor_ [] m0) (map log_floor conf) lengths
      = Raise e ->
      fit m data rng = Raise e)
  /\ (forall r,
         fit m data rng = Ok r ->
         exists r',
           _forward_backward (set_monitor_ [] m0) (map log_floor conf)
             lengths = Ok r').
Proof.
  intros Hseg Hinit Hn Hc.
  destruct (init_params_fields _ _ _ _ _ _ Hinit)
    as (_ & _ & _ & _ & _ & _ & _ & _ & _ & Hiter & _).
  assert (Hraise : forall e,
             _forward_backward (set_monitor_ [] m0) (map log_floor conf)
               lengths = Raise e ->
             fit m data rng = Raise e).
  { intros e He. unfold fit.
    rewrite Hseg; simpl bind. rewrite Hinit; simpl bind.
    change (n_iter (set_monitor_ [] m0)) with (n_iter m0). rewrite Hiter.
    destruct (n_iter m) as [|n]; [lia|].
    change (seq 0 (S n)) with (0%nat :: seq 1 n). rewrite em_loop_cons.
    unfold em_iteration, e_step. rewrite Hc; simpl bind.
    now rewrite He. }
  split; [exact Hraise|].
  intros r H.
  destruct (_forward_backward (set_monitor_ [] m0) (map log_floor conf)
              lengths) as [r'|e]; [eauto|].
  rewrite (Hraise e eq_refl) in H. discriminate.
Qed.

(** C10, as the code has it.  [fit] and [predict_proba] take no
    segmentation from the caller: the chain lengths they hand to
    [_forward_backward] are [len(X_input)] for an array and [len(x)] for
    each element [x] of a list.  They sum to the row count of the
    flattened matrix for an array and for a list of 2-D arrays.  In a
    list, a 1-D array is stacked as one row while its [len] counts its
    entries, so with two entries or more the lengths exceed the rows, and
    that segmentation is what [_forward_backward] is called with. *)
Theorem chain_lengths_sum_to_row_count :
  (forall X_input X_flat lengths,
      segment X_input = Ok (X_flat, lengths) ->
      match X_input with
      | Array X =>
          X_flat = X /\ lengths = [length X]
          /\ list_sum lengths = length X_flat
      | ArrayList Xs =>
          X_flat = concat (map (fun x => snd (atleast_2d x)) Xs)
          /\ lengths = map array_len Xs
          /\ (Forall (fun x => ndim x = 2%nat) Xs ->
              list_sum lengths = length X_flat)
      end)
  /\ (forall data X_flat y_flat lengths,
         fit_segment data = Ok (X_flat, y_flat, lengths) ->
         match data with
         | TrainArray X _ =>
             X_flat = X /\ lengths = [length X]
             /\ list_sum lengths = length X_flat
         | TrainList Xs _ =>
             X_flat = concat (map (fun x => snd (atleast_2d x)) Xs)
             /\ lengths = map array_len Xs
             /\ (Forall (fun x => ndim x = 2%nat) Xs ->
                 list_sum lengths = length X_flat)
         end)
  /\ (forall m X_input X_flat lengths conf,
         segment X_input = Ok (X_flat, lengths) ->
         _get_expert_confidence m X_flat = Ok conf ->
         (forall e,
             _forward_backward m (map log_floor conf) lengths = Raise e ->
             predict_proba m X_input = Raise e)
         /\ (forall probs,
                predict_proba m X_input = Ok probs ->
                exists r,
                  _forward_backward m (map log_floor conf) lengths = Ok r))
  /\ (forall m data rng X_flat y_flat lengths m0 rng0 conf,
         fit_segment data = Ok (X_flat, y_flat, lengths) ->
         _init_params m X_flat y_flat rng = Ok (m0, rng0) ->
         (1 <= n_iter m)%nat ->
         _get_expert_confidence (set_monitor_ [] m0) X_flat = Ok conf ->
         (forall e,
             _forward_backward (set_monitor_ [] m0) (map log_floor conf)
               lengths = Raise e ->
             fit m data rng = Raise e)
         /\ (forall r,
                fit m data rng = Ok r ->
                exists r',
                  _forward_backward (set_monitor_ [] m0)
                    (map log_floor conf) lengths = Ok r'))
  /\ (forall x Xs,
         Forall (fun x' => length x' = length x) Xs ->
         segment (ArrayList (map Array1 (x :: Xs)))
         = Ok (x :: Xs, map (@length R) (x :: Xs))
         /\ list_sum (map (@length R) (x :: Xs))
            = (length x * length (x :: Xs))%nat).
Proof.
  split; [|split; [|split; [|split]]].
  - intros X_input X_flat lengths H. apply segment_cases in H.
    destruct X_input as [X|Xs]; destruct H as [-> ->].
    + repeat split. simpl; lia.
    + repeat split. intros H2. symmetry. now apply stacked_rows_2d.
  - intros data X_flat y_flat lengths H. apply fit_segment_cases in H.
    destruct data as [X y|Xs ys]; destruct H as (-> & _ & ->).
    + repeat split. simpl; lia.
    + repeat split. intros H2. symmetry. now apply stacked_rows_2d.
  - apply predict_proba_engine.
  - apply fit_engine.
  - intros x Xs Hall. split; [now apply segment_1d|].
    assert (H : forall l,
               Forall (fun x' : list R => length x' = length x) l ->
               list_sum (map (@length R) l) = (length x * length l)%nat).
    { induction 1 as [|a l Ha _ IH]; simpl; [lia|]. rewrite IH, Ha. lia. }
    apply H. constructor; auto.
Qed.

End Fit.

(** ** One regime, one sample *)

Section SingleRegime.

Context {L : Learner}.

Lemma logsumexp_single (a : R) : logsumexp [a] = a.
Proof. unfold logsumexp; simpl. now rewrite Rplus_0_r, ln_exp. Qed.

Lemma forward_backward_single (m : MSRF) (startprob : list R)
  (transmat : Mat) (b : R) :
  n_states m = 1%nat ->
  startprob_ m = Some startprob -> transmat_ m = Some transmat ->
  _forward_backward m [[b]] [1%nat]
  = Ok ([[1]], [[0]], 0 + (nth 0 (log_floor startprob) 0 + b)).
Proof.
  intros HK Hs Ht. unfold _forward_backward. rewrite HK, Hs, Ht.
  simpl. unfold get2, vadd, zeros2, zeros; simpl.
  rewrite !logsumexp_single.
  replace (nth 0 (log_floor startprob) 0 + b + 0
           - (nth 0 (log_floor startprob) 0 + b + 0)) with 0 by lra.
  now rewrite exp_0.
Qed.

Lemma confidence_single (m : MSRF) (e : Expert) (x : Sample) :
  n_states m = 1%nat -> experts m = [e] ->
  mode m = "confidence"%string \/ mode m = "risk"%string ->
  (2 <= length (rf_predict_proba e x))%nat ->
  exists c, _get_expert_confidence m [x] = Ok [[c]].
Proof.
  intros HK He Hmode Hpp.
  destruct (proj2 (get_expert_confidence_rows_aux m [x])) as [conf Hc];
    auto.
  - rewrite He, HK; simpl; lia.
  - rewrite He. intros e' x' [<-|[]] [<-|[]]. exact Hpp.
  - destruct (expert_confidence_rows m [x] conf Hc)
      as (_ & _ & _ & _ & [HN HM] & _).
    rewrite HK in HM.
    destruct conf as [|row [|row' conf]]; try discriminate.
    inversion HM as [|? ? [Hrow _] _]; subst.
    destruct row as [|c [|c' row]]; try discriminate.
    exists c. exact Hc.
Qed.

Lemma predict_proba_single (m : MSRF) (startprob : list R) (transmat : Mat)
  (e : Expert) (x : Sample) :
  n_states m = 1%nat -> experts m = [e] ->
  startprob_ m = Some startprob -> transmat_ m = Some transmat ->
  mode m = "confidence"%string \/ mode m = "risk"%string ->
  (2 <= length (rf_predict_proba e x))%nat ->
  exists conf xi_sum total,
    _get_expert_confidence m [x] = Ok conf
    /\ _forward_backward m (map log_floor conf) [1%nat]
       = Ok ([[1]], xi_sum, total)
    /\ predict_proba m (Array [x])
       = Ok [[1 - nth 1 (rf_predict_proba e x) 0;
              nth 1 (rf_predict_proba e x) 0]].
Proof.
  intros HK He Hs Ht Hmode Hpp.
  destruct (confidence_single m e x HK He Hmode Hpp) as [c Hc].
  pose proof (forward_backward_single m startprob transmat
                (ln (c + 1e-10)) HK Hs Ht) as Hfb.
  exists [[c]]. do 2 eexists. split; [exact Hc|]. split; [exact Hfb|].
  unfold predict_proba. simpl segment. simpl bind.
  rewrite Hc. simpl bind.
  change (map log_floor [[c]]) with [[ln (c + 1e-10)]].
  rewrite Hfb. simpl bind. rewrite HK, He.
  change (seq 0 1) with [0%nat]. rewrite forM_cons.
  change (getitem [e] 0) with (Ok e). simpl bind.
  rewrite positive_class_total by (repeat constructor; exact Hpp).
  simpl. repeat f_equal; lra.
Qed.

(** C9, as the code has it.  With one regime, [predict_proba] on the
    object as [_init_params] leaves it (no EM pass run), for one chain of
    one sample: the posterior [gamma] is exactly [[1]] and the result is
    [[1 - p1, p1]], where [p1] is the second entry of the row that the
    single expert's own [predict_proba] gives for that sample.  The first
    entry of the expert's row is not read: the result is the expert's row
    exactly when that row is [[1 - p1, p1]]. *)
Theorem predict_proba_one_regime_one_sample (m : MSRF) (X : list Sample)
  (y : list Label) (rng : Rng) (m0 : MSRF) (rng0 : Rng) (x : Sample) :
  n_states m = 1%nat ->
  mode m = "confidence"%string \/ mode m = "risk"%string ->
  _init_params m X y rng = Ok (m0, rng0) ->
  (forall e, experts m0 = [e] -> (2 <= length (rf_predict_proba e x))%nat) ->
  exists e conf xi_sum total,
    experts m0 = [e]
    /\ _get_expert_confidence m0 [x] = Ok conf
    /\ _forward_backward m0 (map log_floor conf) [1%nat]
       = Ok ([[1]], xi_sum, total)
    /\ predict_proba m0 (Array [x])
       = Ok [[1 - nth 1 (rf_predict_proba e x) 0;
              nth 1 (rf_predict_proba e x) 0]]
    /\ (predict_proba m0 (Array [x]) = Ok [rf_predict_proba e x]
        <-> rf_predict_proba e x
            = [1 - nth 1 (rf_predict_proba e x) 0;
               nth 1 (rf_predict_proba e x) 0]).
Proof.
  intros HK Hmode Hinit Hpp.
  destruct (init_params_fields _ _ _ _ _ _ Hinit)
    as (labels & tc & _ & _ & Hs & Ht & Hes & HK0 & Hmode0 & _).
  assert (Hlen : length (experts m0) = 1%nat).
  { rewrite Hes, init_experts_length. exact HK. }
  destruct (experts m0) as [|e [|e' es]] eqn:He; try discriminate.
  specialize (Hpp e eq_refl). clear Hes Hlen.
  destruct (predict_proba_single m0 _ _ e x (eq_trans HK0 HK)
              He Hs Ht) as (conf & xi & total & Hc & Hfb & Hp); auto;
    try (rewrite Hmode0; exact Hmode).
  exists e, conf, xi, total. repeat split; auto.
  - intros H. rewrite Hp in H. injection H as H. now symmetry.
  - intros H. rewrite Hp. now rewrite <- H.
Qed.

End SingleRegime.

(** ** Chains of one sample and the M-step *)

Section SingletonChains.

Context {L : Learner}.

Lemma fb_chain_xi_single (K : nat) (log_start : list R) (log_trans E : Mat)
  (st st' : fb_state) :
  fb_chain K log_start log_trans E 1 st = Ok st' -> xi_sum st' = xi_sum st.
Proof.
  unfold fb_chain; intros H.
  apply bind_ok in H; destruct H as [la [_ H]].
  apply bind_ok in H; destruct H as [lb [_ H]].
  apply bind_ok in H; destruct H as [g' [_ H]].
  rewrite accumulate_xi_single in H. simpl in H.
  injection H as <-. reflexivity.
Qed.

Lemma fb_loop_xi_singletons (K : nat) (log_start : list R)
  (log_trans E : Mat) (lengths : list nat) (st st' : fb_state) :
  Forall (eq 1%nat) lengths ->
  forM lengths (fb_chain K log_start log_trans E) st = Ok st' ->
  xi_sum st' = xi_sum st.
Proof.
  intros Hall; revert st; induction Hall as [|len rest <- _ IH];
    intros st H.
  - simpl in H; injection H as <-; reflexivity.
  - rewrite forM_cons in H. apply bind_ok in H; destruct H as [s1 [H1 H]].
    apply fb_chain_xi_single in H1. apply IH in H. congruence.
Qed.

(** With no chain longer than one sample there is no transition to
    count: [xi_sum] comes back as the zero matrix it started as. *)
Lemma forward_backward_singletons (m : MSRF) (E : Mat) (lengths : list nat)
  (gamma xi_sum : Mat) (total : R) :
  Forall (eq 1%nat) lengths ->
  _forward_backward m E lengths = Ok (gamma, xi_sum, total) ->
  xi_sum = zeros2 (n_states m) (n_states m).
Proof.
  intros Hall H. unfold _forward_backward in H.
  destruct (startprob_ m) as [sp|]; [|discriminate].
  destruct (transmat_ m) as [tm|]; [|discriminate].
  apply bind_ok in H; destruct H as [st [Hloop H]].
  apply fb_loop_xi_singletons in Hloop; auto. simpl in Hloop.
  congruence.
Qed.

(** The M-step then divides every row of zeros by its sum, zero. *)
Lemma em_iteration_singletons (X_flat : list Sample) (y_flat : list Label)
  (lengths : list nat) (i : nat) (m m' : MSRF) (prev prev' : option R)
  (rng rng' : Rng) :
  Forall (eq 1%nat) lengths ->
  em_iteration X_flat y_flat lengths i (m, prev, rng)
  = Ok (Continue, (m', prev', rng')) ->
  transmat_ m'
  = Some (div_rows_by vsum (zeros2 (n_states m) (n_states m)))
  /\ Forall (fun row => vsum row = 0)
       (zeros2 (n_states m) (n_states m)).
Proof.
  intros Hall H. apply em_iteration_cases in H.
  destruct H as (g & xi & c & He & [(_ & Hfl & _) | (_ & _ & Hst)]);
    [discriminate|].
  destruct Hst as (es & r' & _ & Hst). injection Hst as -> _ _.
  unfold e_step in He. apply bind_ok in He; destruct He as [conf [_ He]].
  apply forward_backward_singletons in He; auto. subst xi.
  split; [reflexivity|].
  unfold zeros2, zeros. apply Forall_forall; intros row Hin.
  apply repeat_spec in Hin; subst row.
  induction (n_states m) as [|n IH]; simpl; [reflexivity | lra].
Qed.

End SingletonChains.

(** ** The M-step after at least one transition *)

Section TransitionCounts.

Context {L : Learner}.


Lemma positive_is_nonneg (K : nat) (M : Mat) :
  positive_matrix K M -> nonneg_matrix K K M.
Proof.
  intros [HK HM]; split; auto.
  eapply Forall_impl; [|exact HM]. intros row [Hl Hp]; split; auto.
  now apply Forall_lt_le.
Qed.

Lemma mapM_Forall {A B : Type} (P : B -> Prop) (f : A -> result B)
  (l : list A) (r : list B) :
  (forall a b, In a l -> f a = Ok b -> P b) ->
  mapM f l = Ok r -> Forall P r.
Proof.
  revert r; induction l as [|a l IH]; simpl; intros r HP H.
  - injection H as <-; constructor.
  - apply bind_ok in H; destruct H as [b [Hb H]].
    apply bind_ok in H; destruct H as [bs [Hbs H]].
    injection H as <-. constructor; eauto.
Qed.

Lemma nth_nonneg (a : list R) (j : nat) : Forall (Rle 0) a -> 0 <= nth j a 0.
Proof.
  intros H; revert j; induction H as [|x a Hx _ IH]; intros [|j]; simpl;
    auto; lra.
Qed.

Lemma nth_positive (b : list R) (j : nat) :
  Forall (Rlt 0) b -> (j < length b)%nat -> 0 < nth j b 0.
Proof.
  intros H Hj. rewrite Forall_forall in H. apply H, nth_In, Hj.
Qed.

Lemma madd_positive (K : nat) (xi ex : Mat) :
  nonneg_matrix K K xi -> positive_matrix K ex ->
  positive_matrix K (madd K xi ex).
Proof.
  intros [HK HM] [HK' HM']; unfold madd; split.
  - rewrite length_map, length_combine. lia.
  - apply Forall_map, Forall_forall; intros [a b] Hin; simpl.
    split; [apply vadd_length|].
    pose proof (in_combine_l _ _ _ _ Hin) as Ha.
    pose proof (in_combine_r _ _ _ _ Hin) as Hb.
    rewrite Forall_forall in HM, HM'.
    destruct (HM a Ha) as [_ Hna]. destruct (HM' b Hb) as [Hlb Hpb].
    unfold vadd. apply Forall_map, Forall_forall; intros j Hj.
    apply in_seq in Hj.
    pose proof (nth_nonneg a j Hna).
    assert (0 < nth j b 0) by (apply nth_positive; auto; lia). lra.
Qed.

Lemma accumulate_xi_positive (K : nat) (log_trans log_B la lb : Mat)
  (len : nat) (xi xi' : Mat) :
  nonneg_matrix K K xi ->
  accumulate_xi K log_trans log_B la lb len xi = Ok xi' ->
  ((len <= 1)%nat /\ xi' = xi) \/ ((2 <= len)%nat /\ positive_matrix K xi').
Proof.
  intros Hxi H. unfold accumulate_xi in H.
  set (body := fun (t : nat) (xi_sum : Mat) =>
                 log_xi <- mapM
                             (fun i =>
                                mapM
                                  (fun j =>
                                     b1 <- getitem log_B (t + 1) ;;
                                     Ok (get2 la t i + get2 log_trans i j
                                         + nth j b1 0 + get2 lb (t + 1) j))
                                  (seq 0 K))
                             (seq 0 K) ;;
                 let z := logsumexp (concat log_xi) in
                 Ok (madd K xi_sum (map (map (fun x => exp (x - z))) log_xi)))
    in H.
  assert (Hbody : forall t x x',
             nonneg_matrix K K x -> body t x = Ok x' -> positive_matrix K x').
  { intros t x x' Hx Hb. unfold body in Hb.
    apply bind_ok in Hb; destruct Hb as [lx [Hlx Hb]].
    cbv zeta in Hb. injection Hb as <-.
    apply madd_positive; auto. split.
    - rewrite length_map. apply mapM_length in Hlx.
      now rewrite length_seq in Hlx.
    - apply Forall_map.
      eapply mapM_Forall; [|exact Hlx]. intros i row _ Hrow; simpl in Hrow.
      split.
      + rewrite length_map. apply mapM_length in Hrow.
        now rewrite length_seq in Hrow.
      + apply Forall_map, Forall_forall; intros v _. apply exp_pos. }
  assert (Hloop : forall l x x',
             nonneg_matrix K K x -> forM l body x = Ok x' ->
             (l = [] /\ x' = x) \/ (l <> [] /\ positive_matrix K x')).
  { induction l as [|t l IH]; intros x x' Hx Hl.
    - left. simpl in Hl. split; congruence.
    - right. split; [discriminate|].
      rewrite forM_cons in Hl. apply bind_ok in Hl.
      destruct Hl as [x1 [H1 Hl]].
      apply Hbody in H1; auto.
      destruct (IH x1 x' (positive_is_nonneg K x1 H1) Hl)
        as [[_ ->] | [_ Hp]]; auto. }
  destruct (Hloop _ _ _ Hxi H) as [[Hl ->] | [Hl Hp]].
  - left. split; auto.
    destruct len as [|[|n]]; try lia. simpl in Hl. discriminate.
  - right. split; auto.
    destruct len as [|[|n]]; try lia; simpl in Hl; congruence.
Qed.

Lemma fb_chain_xi (K : nat) (log_start : list R) (log_trans E : Mat)
  (len : nat) (st st' : fb_state) :
  nonneg_matrix K K (xi_sum st) ->
  fb_chain K log_start log_trans E len st = Ok st' ->
  ((len <= 1)%nat /\ xi_sum st' = xi_sum st)
  \/ ((2 <= len)%nat /\ positive_matrix K (xi_sum st')).
Proof.
  unfold fb_chain; intros Hxi H.
  apply bind_ok in H; destruct H as [la [_ H]].
  apply bind_ok in H; destruct H as [lb [_ H]].
  apply bind_ok in H; destruct H as [g' [_ H]].
  apply bind_ok in H; destruct H as [xi' [Hacc H]].
  injection H as <-. simpl.
  eapply accumulate_xi_positive; eauto.
Qed.

Lemma fb_loop_xi (K : nat) (log_start : list R) (log_trans E : Mat)
  (lengths : list nat) (st st' : fb_state) :
  nonneg_matrix K K (xi_sum st) ->
  forM lengths (fb_chain K log_start log_trans E) st = Ok st' ->
  nonneg_matrix K K (xi_sum st')
  /\ (positive_matrix K (xi_sum st) \/ Exists (fun len => 2 <= len)%nat lengths ->
      positive_matrix K (xi_sum st')).
Proof.
  revert st; induction lengths as [|len rest IH]; intros st Hxi H.
  - simpl in H; injection H as <-. split; auto.
    intros [Hp|Hex]; [exact Hp | inversion Hex].
  - rewrite forM_cons in H. apply bind_ok in H; destruct H as [s1 [H1 H]].
    destruct (fb_chain_xi _ _ _ _ _ _ _ Hxi H1) as [[Hlen Heq] | [Hlen Hp]].
    + rewrite <- Heq in Hxi.
      destruct (IH s1 Hxi H) as [Hnn Hpos]. split; [exact Hnn|].
      intros [Hp|Hex]; apply Hpos.
      * left; now rewrite Heq.
      * inversion Hex; subst; [lia | now right].
    + destruct (IH s1 (positive_is_nonneg K _ Hp) H) as [Hnn Hpos].
      split; [exact Hnn|]. intros _. apply Hpos. now left.
Qed.

Lemma vsum_positive (row : list R) :
  Forall (Rlt 0) row -> row <> [] -> 0 < vsum row.
Proof.
  intros H Hne. destruct H as [|x row Hx Hrow]; [congruence|]. simpl.
  pose proof (vsum_nonneg row (Forall_lt_le row Hrow)). lra.
Qed.

(** Row-normalising a positive matrix gives a row-stochastic one. *)
Lemma div_rows_stochastic (K : nat) (xi : Mat) :
  positive_matrix K xi ->
  length (div_rows_by vsum xi) = K
  /\ Forall (fun row => length row = K /\ Forall (Rlt 0) row /\ vsum row = 1)
       (div_rows_by vsum xi).
Proof.
  intros [HK HM]; unfold div_rows_by; split; [now rewrite length_map|].
  apply Forall_map, Forall_forall. intros row Hin.
  rewrite Forall_forall in HM. destruct (HM row Hin) as [Hlen Hpos].
  destruct row as [|x row].
  - (* an empty row can only occur for K = 0, where [xi] has no row *)
    simpl in Hlen. subst K. destruct xi; [inversion Hin | discriminate].
  - assert (HS : 0 < vsum (x :: row))
      by (apply vsum_positive; [exact Hpos | discriminate]).
    repeat split.
    + now rewrite length_map.
    + apply Forall_map. eapply Forall_impl; [|exact Hpos].
      intros v Hv. now apply Rdiv_lt_0_compat.
    + rewrite vsum_map_div. field. lra.
Qed.

(** When some chain has two samples or more, the M-step leaves a
    transition matrix whose rows are positive and sum to 1. *)
Lemma em_iteration_transmat_stochastic (X_flat : list Sample)
  (y_flat : list Label) (lengths : list nat) (i : nat) (m m' : MSRF)
  (prev prev' : option R) (rng rng' : Rng) :
  Exists (fun len => 2 <= len)%nat lengths ->
  em_iteration X_flat y_flat lengths i (m, prev, rng)
  = Ok (Continue, (m', prev', rng')) ->
  exists T,
    transmat_ m' = Some T /\ length T = n_states m
    /\ Forall (fun row => length row = n_states m /\ Forall (Rlt 0) row
                          /\ vsum row = 1) T.
Proof.
  intros Hex H. apply em_iteration_cases in H.
  destruct H as (g & xi & c & He & [(_ & Hfl & _) | (_ & _ & Hst)]);
    [discriminate|].
  destruct Hst as (es & r' & _ & Hst). injection Hst as -> _ _.
  unfold e_step in He. apply bind_ok in He; destruct He as [conf [_ He]].
  unfold _forward_backward in He.
  destruct (startprob_ m) as [sp|]; [|discriminate].
  destruct (transmat_ m) as [tm|]; [|discriminate].
  apply bind_ok in He; destruct He as [st [Hloop He]].
  apply fb_loop_xi in Hloop; [|apply zeros2_nonneg].
  destruct Hloop as [_ Hpos]. specialize (Hpos (or_intror Hex)).
  assert (xi = xi_sum st) by congruence; subst xi.
  exists (div_rows_by vsum (xi_sum st)). simpl.
  split; [reflexivity|]. now apply div_rows_stochastic.
Qed.

End TransitionCounts.

(** ** [fit] runs to the end; [fit] on chains of one sample *)

Section FitRuns.

Context {L : Learner}.

Lemma fit_total (m : MSRF) (data : TrainingInput) (rng : Rng)
  (X_flat : list Sample) (y_flat : list Label) (lengths : list nat)
  (m0 : MSRF) (rng0 : Rng) :
  (forall (e : Expert) (x : Sample),
      (2 <= length (rf_predict_proba e x))%nat) ->
  fit_segment data = Ok (X_flat, y_flat, lengths) ->
  _init_params m X_flat y_flat rng = Ok (m0, rng0) ->
  runnable m0 ->
  Forall (fun len => 1 <= len)%nat lengths ->
  (list_sum lengths <= length X_flat)%nat ->
  exists r, fit m data rng = Ok r.
Proof.
  intros Hpp Hseg Hinit Hrun Hall Hsum. unfold fit.
  rewrite Hseg; simpl bind. rewrite Hinit; simpl bind.
  destruct (em_loop_total Hpp X_flat y_flat lengths (seq 0 (n_iter m0))
              (set_monitor_ [] m0) None rng0) as [[[m1 p1] r1] Hloop]; auto.
  rewrite Hloop; simpl; eauto.
Qed.

Lemma em_loop_singletons (X_flat : list Sample) (y_flat : list Label)
  (lengths : list nat) (iters : list nat) (m m' : MSRF)
  (prev prev' : option R) (rng rng' : Rng) :
  Forall (eq 1%nat) lengths ->
  em_loop X_flat y_flat lengths iters (m, prev, rng) = Ok (m', prev', rng') ->
  transmat_ m' = transmat_ m
  \/ transmat_ m'
     = Some (div_rows_by vsum (zeros2 (n_states m) (n_states m))).
Proof.
  intros Hall. revert m prev rng; induction iters as [|i rest IH];
    intros m prev rng H.
  - simpl in H. injection H as <- _ _. now left.
  - rewrite em_loop_cons in H. apply bind_ok in H.
    destruct H as [[fl [[m1 p1] r1]] [H1 H]]. simpl in H.
    destruct fl.
    + pose proof (em_iteration_startprob _ _ _ _ _ _ _ _ _ _ _ H1)
        as (_ & HK & _).
      apply (em_iteration_singletons _ _ _ _ _ _ _ _ _ _ Hall) in H1.
      destruct H1 as [HT _].
      right. destruct (IH _ _ _ H) as [Hsame|Hz]; congruence.
    + injection H as <- _ _.
      apply em_iteration_cases in H1.
      destruct H1 as (g & xi & c & _ & [(_ & _ & Hst) | (_ & Hfl & _)]);
        [|discriminate].
      injection Hst as -> _ _. now left.
Qed.

(** Training data in which no chain has two samples: after [fit], with
    at least one EM pass, [transmat_] is the zero matrix divided row by
    row by zero. *)
Lemma fit_singletons (m : MSRF) (data : TrainingInput) (rng : Rng)
  (m' : MSRF) (rng' : Rng) (X_flat : list Sample) (y_flat : list Label)
  (lengths : list nat) :
  fit m data rng = Ok (m', rng') ->
  fit_segment data = Ok (X_flat, y_flat, lengths) ->
  Forall (eq 1%nat) lengths ->
  (1 <= n_iter m)%nat ->
  transmat_ m' = Some (div_rows_by vsum (zeros2 (n_states m) (n_states m))).
Proof.
  intros H Hseg Hall Hn. apply fit_cases in H.
  destruct H as (X & y & lens & m0 & rng0 & p' & Hseg' & Hinit & Hloop).
  rewrite Hseg in Hseg'. injection Hseg' as <- <- <-.
  destruct (init_params_fields _ _ _ _ _ _ Hinit)
    as (_ & _ & _ & _ & _ & _ & _ & HK & _ & Hiter & _).
  rewrite Hiter in Hloop.
  destruct (n_iter m) as [|n]; [lia|].
  change (seq 0 (S n)) with (0%nat :: seq 1 n) in Hloop.
  rewrite em_loop_cons in Hloop. apply bind_ok in Hloop.
  destruct Hloop as [[fl [[m1 p1] r1]] [H1 Hloop]]. simpl in Hloop.
  pose proof (em_iteration_startprob _ _ _ _ _ _ _ _ _ _ _ H1)
    as (_ & HK1 & _).
  simpl in HK1.
  destruct fl.
  - apply (em_iteration_singletons _ _ _ _ _ _ _ _ _ _ Hall) in H1.
    destruct H1 as [HT _]. simpl in HT.
    destruct (em_loop_singletons _ _ _ _ _ _ _ _ _ _ Hall Hloop)
      as [Hsame|Hz]; congruence.
  - apply em_iteration_cases in H1.
    destruct H1 as (g & xi & c & _ & [(Hc & _ & _) | (_ & Hfl & _)]);
      [|discriminate].
    apply converged_true in Hc. lia.
Qed.

End FitRuns.

(** * The classifier run on small inputs *)

(** C1 on two regimes and the chains [[2; 1]] of a three-row matrix. *)
Lemma forward_backward_forward_recursion_witness :
  exists gamma xi_sum total la1 la2,
    @_forward_backward toy_learner hmm2 E3 [2; 1]%nat
    = Ok (gamma, xi_sum, total)
    /\ forward_pass 2 (log_floor [1 / 2; 1 / 2])
         (map log_floor [[9 / 10; 1 / 10]; [1 / 10; 9 / 10]])
         [[0; 0]; [0; 0]] 2 = Ok la1
    /\ forward_pass 2 (log_floor [1 / 2; 1 / 2])
         (map log_floor [[9 / 10; 1 / 10]; [1 / 10; 9 / 10]])
         [[0; 0]] 1 = Ok la2
    /\ total = logsumexp (last la1 []) + (logsumexp (last la2 []) + 0).
Proof.
  destruct (forward_backward_forward_recursion (L := toy_learner) hmm2
              [1 / 2; 1 / 2] [[9 / 10; 1 / 10]; [1 / 10; 9 / 10]] E3
              [2; 1]%nat eq_refl eq_refl) as (_ & Htot & Hret).
  destruct Hret as [[[g xi] t] Hr].
  - repeat constructor.
  - simpl; lia.
  - destruct (Htot _ _ _ Hr) as (las & Hfw & Ht).
    simpl chains in Hfw.
    inversion Hfw as [|ch1 la1 chs las1 H1 Hfw1]; subst.
    inversion Hfw1 as [|ch2 la2 chs2 las2 H2 Hfw2]; subst.
    inversion Hfw2; subst.
    exists g, xi, (logsumexp (last la1 []) + (logsumexp (last la2 []) + 0)),
      la1, la2.
    repeat split; assumption.
Defined.

(** C2 on the same input: three rows of [gamma], each summing to 1. *)
Lemma forward_backward_gamma_rows_sum_to_1_witness :
  exists gamma xi_sum total,
    @_forward_backward toy_learner hmm2 E3 [2; 1]%nat
    = Ok (gamma, xi_sum, total)
    /\ length gamma = 3%nat
    /\ Forall (fun row => Rabs (vsum row - 1) < 1e-6) gamma.
Proof.
  destruct (forward_backward_gamma_rows_sum_to_1 (L := toy_learner) hmm2 E3
              [2; 1]%nat) as (Hrows & Hret).
  - simpl; lia.
  - reflexivity.
  - destruct Hret as [[[g xi] t] Hr].
    + discriminate.
    + discriminate.
    + repeat constructor.
    + exists g, xi, t. split; [exact Hr | exact (Hrows _ _ _ Hr)].
Defined.

Lemma two_state_posterior (a0 a1 b : R) :
  0 < a0 -> 0 < a1 ->
  exp (ln a1 + b + 0 - logsumexp [ln a0 + b + 0; ln a1 + b + 0])
  = a1 / (a0 + a1).
Proof.
  intros H0 H1. unfold logsumexp; simpl.
  rewrite !Rplus_0_r. rewrite !exp_plus, !exp_ln by assumption.
  pose proof (exp_pos b) as Hb.
  unfold Rminus. rewrite exp_plus, exp_Ropp, exp_ln by nra.
  rewrite exp_plus, exp_ln by assumption.
  field. split; nra.
Qed.

(** The E-step of [starved2] on one sample: the second regime starts with
    probability 0, and both experts score the sample alike ([b]). *)
Lemma starved2_e_step :
  exists g0 b total,
    @e_step toy_learner starved2 [[0]] [1%nat]
    = Ok ([[g0;
            exp (ln (0 + 1e-10) + b + 0
                 - logsumexp [ln (1 + 1e-10) + b + 0;
                              ln (0 + 1e-10) + b + 0])]],
          [[0; 0]; [0; 0]], total).
Proof.
  do 3 eexists. unfold e_step. cbn.
  unfold get2, vadd, zeros, zeros2. cbn. reflexivity.
Qed.

(** C5 on [starved2]: the posterior of the second regime is
    [1e-10 / (1 + 2e-10)], below the floor, and its expert is still
    [1/2] after the pass. *)
Lemma fit_skips_degenerate_expert_witness :
  exists fl m' prev' rng',
    @em_iteration toy_learner [[0]] [1%nat] [1%nat] 0
      (starved2, None, 0%nat) = Ok (fl, (m', prev', rng'))
    /\ nth_error (experts m') 1 = Some (1 / 2).
Proof.
  destruct starved2_e_step as (g0 & b & total & He).
  destruct (fit_skips_degenerate_expert (L := toy_learner) [[0]] [1%nat]
              [1%nat] 0 starved2 None 0%nat _ _ _ He) as [Hframe Hret].
  destruct Hret as (fl & [[m' p'] r'] & Hit); [simpl; lia|].
  exists fl, m', p', r'. split; [exact Hit|].
  rewrite (Hframe _ _ _ _ 1%nat Hit); [reflexivity|].
  simpl. rewrite two_state_posterior by lra.
  apply (Rmult_lt_reg_r (1 + 1e-10 + (0 + 1e-10))); [lra|].
  rewrite Rmult_plus_distr_r. unfold Rdiv at 1.
  rewrite Rmult_assoc, Rinv_l by lra. lra.
Defined.

Lemma toy_two_columns (e : @Expert toy_learner) (x : Sample) :
  (2 <= length (@rf_predict_proba toy_learner e x))%nat.
Proof. simpl; lia. Qed.

(** What [_init_params] makes of [fresh1] on two samples. *)
Lemma fresh1_init (X : list Sample) (y : list Label) :
  length X = 2%nat ->
  exists m0,
    @_init_params toy_learner fresh1 X y 0%nat = Ok (m0, 1%nat)
    /\ runnable m0
    /\ experts m0 = [1 / 2]
    /\ startprob_ m0 = Some [INR 2 / (INR 2 + 0)].
Proof.
  intros HX. destruct X as [|x0 [|x1 [|x2 X]]]; try discriminate.
  eexists. split; [reflexivity|]. split; [|split; reflexivity].
  repeat split; simpl; auto; discriminate.
Qed.

(** C6 on [fresh1] and one chain of two samples: [fit] returns, and
    [startprob_] is still the cluster frequency [2 / 2]. *)
Lemma fit_startprob_fixed_after_init_witness :
  exists m' rng',
    @fit toy_learner fresh1 one_pair 0%nat = Ok (m', rng')
    /\ startprob_ m' = Some [INR 2 / (INR 2 + 0)].
Proof.
  destruct (fresh1_init [[0]; [1]] [0%nat; 1%nat] eq_refl)
    as (m0 & Hinit & Hrun & _ & Hsp).
  destruct (fit_total (L := toy_learner) fresh1 one_pair 0%nat
              [[0]; [1]] [0%nat; 1%nat] [2%nat] m0 1%nat toy_two_columns
              eq_refl Hinit Hrun) as [[m' rng'] Hfit].
  - repeat constructor.
  - simpl; lia.
  - exists m', rng'. split; [exact Hfit|].
    destruct (fit_startprob_fixed_after_init (L := toy_learner) fresh1
                one_pair 0%nat m' rng' Hfit)
      as (X & y & lens & m1 & rng1 & labels & Hseg & Hinit1 & _ & _ & _
          & Hfix).
    simpl in Hseg. injection Hseg as <- <- <-.
    rewrite Hinit in Hinit1. injection Hinit1 as <- <-.
    rewrite Hfix. exact Hsp.
Defined.

(** C9 on [fresh1]: after [_init_params] the single expert predicts
    [[1/2, 1/2]], and so does the classifier. *)
Lemma predict_proba_one_regime_one_sample_witness :
  exists m0 rng0,
    @_init_params toy_learner fresh1 [[0]; [1]] [0%nat; 1%nat] 0%nat
    = Ok (m0, rng0)
    /\ predict_proba m0 (Array [[0]]) = Ok [[1 - 1 / 2; 1 / 2]].
Proof.
  destruct (fresh1_init [[0]; [1]] [0%nat; 1%nat] eq_refl)
    as (m0 & Hinit & _ & Hes & _).
  exists m0, 1%nat. split; [exact Hinit|].
  destruct (predict_proba_one_regime_one_sample (L := toy_learner) fresh1
              [[0]; [1]] [0%nat; 1%nat] 0%nat m0 1%nat [0]
              eq_refl (or_intror eq_refl) Hinit)
    as (e & conf & xi & total & He & _ & _ & Hp & _).
  - intros e He. simpl. lia.
  - rewrite Hes in He. injection He as <-. exact Hp.
Defined.

(** C9 as the specification words it fails: a forest of three trees, two
    voting for class 0.  Its own row is
    [[0.6666666666666666, 0.3333333333333333]]; the classifier returns
    [[1 - 0.3333333333333333, 0.3333333333333333]], whose first entry is
    [0.6666666666666667]. *)
Lemma predict_proba_not_the_expert_row :
  exists m0 rng0,
    @_init_params thirds_learner thirds1 [[0]] [0%nat] 0%nat = Ok (m0, rng0)
    /\ experts m0 = [tt]
    /\ @rf_predict_proba thirds_learner tt [0]
       = [0.6666666666666666; 0.3333333333333333]
    /\ predict_proba m0 (Array [[0]])
       = Ok [[1 - 0.3333333333333333; 0.3333333333333333]]
    /\ predict_proba m0 (Array [[0]])
       <> Ok [@rf_predict_proba thirds_learner tt [0]].
Proof.
  eexists. eexists. split; [reflexivity|]. split; [reflexivity|].
  split; [reflexivity|].
  match goal with
  | |- ?P /\ _ => assert (Hp : P)
  end.
  { match goal with
    | |- predict_proba ?m _ = _ =>
        destruct (predict_proba_single (L := thirds_learner) m _ _ tt [0]
                    eq_refl eq_refl eq_refl eq_refl (or_intror eq_refl))
          as (conf & xi & total & _ & _ & Hp)
    end; [apply Nat.le_refl | exact Hp]. }
  split; [exact Hp|].
  rewrite Hp. intros H. injection H as H. lra.
Qed.



(** C4 at a failing input: [fit] on two chains of one sample each.  No
    transition is ever counted, [xi_sum] is [[0]], and the M-step stores
    [0 / 0] in [transmat_]: numpy's [nan], and in any reading not a row
    that sums to 1. *)
Theorem fit_singleton_chains_transmat_zero_by_zero :
  exists m' rng',
    @fit toy_learner fresh1 two_singletons 0%nat = Ok (m', rng')
    /\ transmat_ m' = Some (div_rows_by vsum [[0]])
    /\ vsum [0] = 0
    /\ ~ Forall (fun row => Rabs (vsum row - 1) < 1e-6)
         (div_rows_by vsum [[0]]).
Proof.
  destruct (fresh1_init [[0]; [1]] [0%nat; 1%nat] eq_refl)
    as (m0 & Hinit & Hrun & _ & _).
  destruct (fit_total (L := toy_learner) fresh1 two_singletons 0%nat
              [[0]; [1]] [0%nat; 1%nat] [1%nat; 1%nat] m0 1%nat
              toy_two_columns eq_refl Hinit Hrun) as [[m' rng'] Hfit].
  - repeat constructor.
  - simpl; lia.
  - exists m', rng'. split; [exact Hfit|]. split; [|split].
    + apply (fit_singletons (L := toy_learner) fresh1 two_singletons 0%nat
               m' rng' [[0]; [1]] [0%nat; 1%nat] [1%nat; 1%nat] Hfit
               eq_refl).
      * repeat constructor.
      * simpl; lia.
    + simpl; lra.
    + intros Hall. inversion Hall as [|row rest Hrow _]; subst.
      simpl in Hrow. unfold Rdiv in Hrow.
      rewrite Rmult_0_l, Rplus_0_r, Rminus_0_l, Rabs_Ropp, Rabs_R1 in Hrow.
      lra.
Qed.


(** C7 on [entropy1]: the scorer raises. *)
Lemma get_expert_confidence_unknown_mode_witness :
  @_get_expert_confidence toy_learner entropy1 [[0]]
  = Raise (ValueError "Unknown mode: entropy").
Proof.
  apply (proj1 (get_expert_confidence_unknown_mode (L := toy_learner)
                  entropy1 [[0]])); discriminate.
Defined.

(** * Further properties of the classifier *)

(** ** Where an exception comes from *)

Lemma bind_raise {A B : Type} (r : result A) (f : A -> result B) (e : exn) :
  bind r f = Raise e ->
  r = Raise e \/ exists a, r = Ok a /\ f a = Raise e.
Proof.
  destruct r as [a|e']; simpl; intros H; [right; eauto | left; congruence].
Qed.

Lemma forM_raise {A S : Type} (l : list A) (body : A -> S -> result S)
  (s : S) (e : exn) :
  forM l body s = Raise e -> exists a x, In a l /\ body a x = Raise e.
Proof.
  revert s; induction l as [|a l IH]; simpl; intros s H; [discriminate|].
  apply bind_raise in H. destruct H as [H | [s1 [_ H]]].
  - exists a, s; auto.
  - destruct (IH _ H) as (a' & x & Hin & Hb). exists a', x; auto.
Qed.

Lemma mapM_raise {A B : Type} (f : A -> result B) (l : list A) (e : exn) :
  mapM f l = Raise e -> exists a, In a l /\ f a = Raise e.
Proof.
  induction l as [|a l IH]; simpl; intros H; [discriminate|].
  apply bind_raise in H. destruct H as [H | [b [_ H]]]; [eauto|].
  apply bind_raise in H. destruct H as [H | [bs [_ H]]]; [|discriminate].
  destruct (IH H) as (a' & Hin & Hf); eauto.
Qed.

Lemma getitem_raise {A : Type} (l : list A) (i : nat) (e : exn) :
  getitem l i = Raise e -> e = IndexError.
Proof.
  unfold getitem; destruct (nth_error l i); intros H; congruence.
Qed.

Lemma mapM_raise_IndexError {A B : Type} (f : A -> result B) (l : list A)
  (e : exn) :
  (forall a e', f a = Raise e' -> e' = IndexError) ->
  mapM f l = Raise e -> e = IndexError.
Proof.
  intros Hf H. apply mapM_raise in H; destruct H as (a & _ & H). eauto.
Qed.

(** An entry computed from one time-axis read fails only by that read. *)
Ltac entry_raises :=
  let a := fresh "a" in
  let e' := fresh "e'" in
  let Hq := fresh "Hq" in
  intros a e' Hq; apply bind_raise in Hq;
  destruct Hq as [Hq | [? [_ Hq]]];
  [eapply getitem_raise; exact Hq | discriminate].

(** With at least one regime, filling a row reads the time axis. *)
Lemma mapM_row_reads {A : Type} (B : list A) (t : nat) (g : A -> nat -> R)
  (K : nat) (row : list R) :
  (1 <= K)%nat ->
  mapM (fun j => bt <- getitem B t ;; Ok (g bt j)) (seq 0 K) = Ok row ->
  (t < length B)%nat.
Proof.
  intros HK H. destruct K as [|K]; [lia|].
  simpl in H. apply bind_ok in H; destruct H as [b [Hb _]].
  apply bind_ok in Hb; destruct Hb as [bt [Hbt _]].
  unfold getitem in Hbt. destruct (nth_error B t) eqn:E; [|discriminate].
  apply nth_error_Some. congruence.
Qed.

Lemma forM_visits {A S : Type} (l : list A) (body : A -> S -> result S)
  (s s' : S) (a : A) :
  forM l body s = Ok s' -> In a l -> exists x x', body a x = Ok x'.
Proof.
  revert s; induction l as [|a0 l IH]; simpl; intros s H Hin; [tauto|].
  apply bind_ok in H; destruct H as [s1 [H1 H]].
  destruct Hin as [<-|Hin]; eauto.
Qed.

Lemma forward_pass_raise (K : nat) (log_start : list R)
  (log_trans log_B : Mat) (len : nat) (e : exn) :
  forward_pass K log_start log_trans log_B len = Raise e -> e = IndexError.
Proof.
  unfold forward_pass; intros H.
  apply bind_raise in H. destruct H as [H | [b0 [_ H]]];
    [eapply getitem_raise; eauto|].
  apply bind_raise in H. destruct H as [H | [la [_ H]]].
  - unfold setitem in H. destruct (Nat.ltb _ _); congruence.
  - apply forM_raise in H. destruct H as (t & x & _ & H).
    unfold forward_step in H.
    apply bind_raise in H. destruct H as [H | [row [_ H]]]; [|discriminate].
    revert H. apply mapM_raise_IndexError. entry_raises.
Qed.

(** With at least one regime, a forward pass that runs to the end has
    read every one of the chain's [len] rows. *)
Lemma forward_pass_reads (K : nat) (log_start : list R)
  (log_trans log_B : Mat) (len : nat) (la : Mat) :
  (1 <= K)%nat ->
  forward_pass K log_start log_trans log_B len = Ok la ->
  (len <= length log_B)%nat.
Proof.
  unfold forward_pass; intros HK H.
  apply bind_ok in H; destruct H as [b0 [Hb0 H]].
  apply bind_ok in H; destruct H as [la0 [_ H]].
  apply (getitem_ok _ _ _ []) in Hb0; destruct Hb0 as [Hb0 _].
  destruct len as [|[|n]]; try lia.
  destruct (forM_visits _ _ _ _ (S n) H) as (x & x' & Hb).
  - apply in_seq. lia.
  - unfold forward_step in Hb.
    apply bind_ok in Hb; destruct Hb as [row [Hrow _]].
    apply mapM_row_reads in Hrow; auto.
Qed.

Lemma backward_pass_raise (K : nat) (log_trans log_B : Mat) (len : nat)
  (e : exn) :
  backward_pass K log_trans log_B len = Raise e -> e = IndexError.
Proof.
  unfold backward_pass; intros H.
  apply forM_raise in H. destruct H as (t & x & _ & H).
  apply bind_raise in H. destruct H as [H | [row [_ H]]]; [|discriminate].
  revert H. apply mapM_raise_IndexError. entry_raises.
Qed.

Lemma accumulate_xi_raise (K : nat) (log_trans log_B la lb : Mat) (len : nat)
  (xi : Mat) (e : exn) :
  accumulate_xi K log_trans log_B la lb len xi = Raise e -> e = IndexError.
Proof.
  unfold accumulate_xi; intros H.
  apply forM_raise in H. destruct H as (t & x & _ & H).
  apply bind_raise in H. destruct H as [H | [lx [_ H]]]; [|discriminate].
  apply mapM_raise in H. destruct H as (i & _ & H).
  revert H. apply mapM_raise_IndexError. entry_raises.
Qed.

Lemma fb_chain_raise (K : nat) (log_start : list R) (log_trans E : Mat)
  (len : nat) (st : fb_state) (e : exn) :
  (1 <= K)%nat -> length (gamma st) = length E ->
  fb_chain K log_start log_trans E len st = Raise e -> e = IndexError.
Proof.
  unfold fb_chain; intros HK Hg H.
  apply bind_raise in H. destruct H as [H | [la [Hla H]]];
    [eapply forward_pass_raise; eauto|].
  apply bind_raise in H. destruct H as [H | [lb [_ H]]];
    [eapply backward_pass_raise; eauto|].
  apply bind_raise in H. destruct H as [H | [g' [_ H]]].
  - exfalso. pose proof (forward_pass_shape _ _ _ _ _ _ Hla) as [Hlen _].
    apply forward_pass_reads in Hla; auto.
    unfold slice in Hla. rewrite length_firstn, length_skipn in Hla.
    unfold set_slice in H. rewrite Hg in H.
    destruct (Nat.leb_spec (cursor st + len) (length E)); [discriminate|lia].
  - apply bind_raise in H. destruct H as [H | [xi' [_ H]]]; [|discriminate].
    eapply accumulate_xi_raise; eauto.
Qed.

Lemma forM_raise_inv {A S : Type} (P : S -> Prop) (l : list A)
  (body : A -> S -> result S) (s : S) (e : exn) :
  (forall a x x', P x -> body a x = Ok x' -> P x') ->
  P s -> forM l body s = Raise e ->
  exists a x, P x /\ body a x = Raise e.
Proof.
  intros HP. revert s; induction l as [|a l IH]; simpl; intros s Hs H;
    [discriminate|].
  apply bind_raise in H. destruct H as [H | [s1 [H1 H]]].
  - exists a, s; auto.
  - apply (IH s1); eauto.
Qed.

Lemma skipn_repeat {A : Type} (z : A) (n r : nat) :
  skipn n (repeat z r) = repeat z (r - n).
Proof.
  revert r; induction n as [|n IH]; intros [|r]; simpl; auto.
Qed.

(** ** The segmentation that [_forward_backward] accepts *)

Section Segmentation.

Variables (K : nat) (log_start : list R) (log_trans E : Mat).

Lemma fb_chain_gamma_length (len : nat) (st st' : fb_state) :
  fb_chain K log_start log_trans E len st = Ok st' ->
  length (gamma st') = length (gamma st).
Proof.
  intros H. apply fb_chain_shape in H.
  destruct H as (_ & _ & _ & Hfit & rows & Hrows & _ & Hg).
  rewrite Hg, !length_app, length_skipn, Hrows.
  rewrite firstn_length_le by lia. lia.
Qed.

Lemma fb_loop_fits (lengths : list nat) (st st' : fb_state) :
  forM lengths (fb_chain K log_start log_trans E) st = Ok st' ->
  (cursor st <= length (gamma st))%nat ->
  (cursor st + list_sum lengths <= length (gamma st))%nat.
Proof.
  revert st; induction lengths as [|len rest IH]; intros st H Hc.
  - simpl; lia.
  - rewrite forM_cons in H. apply bind_ok in H; destruct H as [s1 [H1 H]].
    pose proof (fb_chain_gamma_length _ _ _ H1) as Hlen.
    apply fb_chain_shape in H1. destruct H1 as (_ & Hc1 & _ & Hfit & _).
    apply IH in H; simpl; lia.
Qed.

(** The rows of [gamma] from the cursor on are still the zeros they were
    allocated as. *)
Lemma fb_loop_tail (lengths : list nat) (st st' : fb_state) :
  forM lengths (fb_chain K log_start log_trans E) st = Ok st' ->
  skipn (cursor st) (gamma st)
  = repeat (zeros K) (length (gamma st) - cursor st) ->
  skipn (cursor st') (gamma st')
  = repeat (zeros K) (length (gamma st') - cursor st').
Proof.
  intros H Hs.
  apply (forM_invariant
           (fun s : fb_state =>
              skipn (cursor s) (gamma s)
              = repeat (zeros K) (length (gamma s) - cursor s))) in H; auto.
  clear. intros len x x' _ Hx Hb.
  pose proof (fb_chain_gamma_length _ _ _ Hb) as Hlen.
  apply fb_chain_shape in Hb.
  destruct Hb as (_ & Hc & _ & Hfit & rows & Hrows & _ & Hg).
  rewrite Hlen, Hc, Hg. rewrite app_assoc, skipn_app.
  rewrite length_app, firstn_length_le, Hrows by lia.
  rewrite skipn_all2 by (rewrite length_app, firstn_length_le, Hrows; lia).
  replace (cursor x + len - (cursor x + len))%nat with 0%nat by lia.
  simpl. rewrite Nat.add_comm, <- skipn_skipn, Hx, skipn_repeat.
  f_equal. lia.
Qed.

Lemma fb_loop_raise (lengths : list nat) (st : fb_state) (e : exn) :
  (1 <= K)%nat -> length (gamma st) = length E ->
  forM lengths (fb_chain K log_start log_trans E) st = Raise e ->
  e = IndexError.
Proof.
  intros HK Hg H.
  apply (forM_raise_inv (fun s : fb_state => length (gamma s) = length E))
    in H; auto.
  - destruct H as (len & x & Hx & Hb). eapply fb_chain_raise; eauto.
  - intros len x x' Hx Hb. apply fb_chain_gamma_length in Hb. congruence.
Qed.

End Segmentation.

Section ForwardBackwardDomain.

Context {L : Learner}.

(** With at least one regime and [startprob_] and [transmat_] set, the
    model of [_forward_backward] returns exactly when every chain length
    is at least 1 and the lengths fit the log-emission matrix, and raises
    [IndexError] otherwise. *)
Lemma forward_backward_domain (m : MSRF) (startprob : list R)
  (transmat E : Mat) (lengths : list nat) :
  (1 <= n_states m)%nat ->
  startprob_ m = Some startprob ->
  transmat_ m = Some transmat ->
  ((exists r, _forward_backward m E lengths = Ok r) <->
   Forall (fun len => 1 <= len)%nat lengths
   /\ (list_sum lengths <= length E)%nat)
  /\ (forall e, _forward_backward m E lengths = Raise e -> e = IndexError).
Proof.
  intros HK Hs Ht. split; [split|].
  - intros [r Hr].
    destruct (forward_backward_unfold m startprob transmat E lengths r
                Hs Ht Hr) as [st [Hloop _]].
    pose proof (fb_loop_likelihood _ _ _ _ _ _ _ Hloop) as (_ & Hall & _).
    apply fb_loop_fits in Hloop; simpl in *; [|lia].
    unfold zeros2 in Hloop. rewrite repeat_length in Hloop. auto.
  - intros [Hall Hsum]. eapply forward_backward_total; eauto.
  - intros e H. unfold _forward_backward in H. rewrite Hs, Ht in H.
    apply bind_raise in H. destruct H as [H | [st [_ H]]]; [|discriminate].
    apply fb_loop_raise in H; auto.
    simpl. unfold zeros2. apply repeat_length.
Qed.

(** A call that returns was given lengths of at least 1 that fit the
    matrix. *)
Lemma forward_backward_returns_fits (m : MSRF) (E : Mat)
  (lengths : list nat) (r : Mat * Mat * R) :
  _forward_backward m E lengths = Ok r ->
  Forall (fun len => 1 <= len)%nat lengths
  /\ (list_sum lengths <= length E)%nat.
Proof.
  intros Hr.
  destruct (startprob_ m) as [startprob|] eqn:Hs;
    [|unfold _forward_backward in Hr; rewrite Hs in Hr; discriminate].
  destruct (transmat_ m) as [transmat|] eqn:Ht;
    [|unfold _forward_backward in Hr; rewrite Hs, Ht in Hr; discriminate].
  destruct (forward_backward_unfold m startprob transmat E lengths r
              Hs Ht Hr) as [st [Hloop _]].
  pose proof (fb_loop_likelihood _ _ _ _ _ _ _ Hloop) as (_ & Hall & _).
  apply fb_loop_fits in Hloop; simpl in *; [|lia].
  unfold zeros2 in Hloop. rewrite repeat_length in Hloop. auto.
Qed.

(** X1.  On a log-emission matrix of [n_states] columns, with at least
    one regime and [startprob_] and [transmat_] set to a vector of
    [n_states] entries and an [n_states] by [n_states] matrix,
    [_forward_backward] returns exactly when every chain length is at
    least 1 and the lengths sum to no more than the row count of the
    matrix; the only exception it raises otherwise is [IndexError]. *)
Theorem forward_backward_returns_iff (m : MSRF) (startprob : list R)
  (transmat E : Mat) (lengths : list nat) :
  (1 <= n_states m)%nat ->
  startprob_ m = Some startprob ->
  transmat_ m = Some transmat ->
  length startprob = n_states m ->
  length transmat = n_states m ->
  Forall (fun row => length row = n_states m) transmat ->
  Forall (fun row => length row = n_states m) E ->
  ((exists r, _forward_backward m E lengths = Ok r) <->
   Forall (fun len => 1 <= len)%nat lengths
   /\ (list_sum lengths <= length E)%nat)
  /\ (forall e, _forward_backward m E lengths = Raise e -> e = IndexError).
Proof.
  intros HK Hs Ht _ _ _ _.
  exact (forward_backward_domain m startprob transmat E lengths HK Hs Ht).
Qed.

(** X2.  A segmentation that stops short of the matrix is not detected:
    with at least one regime, [_forward_backward] returns a [gamma] with
    one row per sample whose rows past the sum of the lengths are the
    zeros they were allocated as. *)
Theorem forward_backward_short_segmentation (m : MSRF) (E : Mat)
  (lengths : list nat) (gamma xi_sum : Mat) (total : R) :
  (1 <= n_states m)%nat ->
  _forward_backward m E lengths = Ok (gamma, xi_sum, total) ->
  length gamma = length E
  /\ (list_sum lengths <= length E)%nat
  /\ skipn (list_sum lengths) gamma
     = zeros2 (length E - list_sum lengths) (n_states m).
Proof.
  intros _ H.
  destruct (startprob_ m) as [startprob|] eqn:Hs;
    [|unfold _forward_backward in H; rewrite Hs in H; discriminate].
  destruct (transmat_ m) as [transmat|] eqn:Ht;
    [|unfold _forward_backward in H; rewrite Hs, Ht in H; discriminate].
  destruct (forward_backward_unfold m startprob transmat E lengths _
              Hs Ht H) as [st [Hloop Hr]].
  injection Hr as -> _ _.
  pose proof (fb_loop_likelihood _ _ _ _ _ _ _ Hloop) as (Hc & _ & _).
  pose proof (fb_loop_gamma _ _ _ _ (fun _ => True) _ _ _
                (fun _ _ => I) Hloop) as [Hlen _]; [constructor|].
  assert (HN : length (zeros2 (length E) (n_states m)) = length E)
    by (unfold zeros2; apply repeat_length).
  pose proof (fb_loop_fits _ _ _ _ _ _ _ Hloop) as Hfit.
  simpl in Hfit. rewrite HN in Hfit.
  apply fb_loop_tail in Hloop.
  - simpl in Hc, Hlen. rewrite HN in Hlen.
    rewrite Hc, Hlen in Hloop. simpl in Hloop.
    split; [exact Hlen|]. split; [apply Hfit; lia | exact Hloop].
  - simpl. unfold zeros2. now rewrite repeat_length, Nat.sub_0_r.
Qed.

End ForwardBackwardDomain.

(** ** What [gamma] and [xi_sum] hold *)

Lemma posterior_row_entries (K : nat) (row : list R) :
  (1 <= K)%nat -> posterior_row K row ->
  length row = K /\ Forall (fun x => 0 < x <= 1) row.
Proof.
  intros HK Hrow.
  pose proof (posterior_row_sums_to_1 K row HK Hrow) as Hsum.
  destruct Hrow as [v [Hv Hrow]].
  assert (Hpos : Forall (Rlt 0) row).
  { subst row. apply Forall_map, Forall_forall. intros x _. apply exp_pos. }
  split; [subst row; now rewrite !length_map|].
  apply Forall_forall; intros x Hx. split.
  - rewrite Forall_forall in Hpos. auto.
  - rewrite <- Hsum. apply entry_le_vsum; auto. now apply Forall_lt_le.
Qed.

Lemma vadd_cons (K : nat) (x y : R) (a b : list R) :
  vadd (S K) (x :: a) (y :: b) = (x + y) :: vadd K a b.
Proof.
  unfold vadd. simpl. f_equal.
  rewrite <- seq_shift, map_map. reflexivity.
Qed.

Lemma vsum_vadd (K : nat) (a b : list R) :
  length a = K -> length b = K -> vsum (vadd K a b) = vsum a + vsum b.
Proof.
  revert a b; induction K as [|K IH]; intros [|x a] [|y b] Ha Hb;
    try discriminate.
  - simpl. lra.
  - rewrite vadd_cons. simpl. rewrite IH by (simpl in *; lia). lra.
Qed.

Lemma msum_madd (K : nat) (A B : Mat) :
  length A = length B ->
  Forall (fun row => length row = K) A ->
  Forall (fun row => length row = K) B ->
  msum (madd K A B) = msum A + msum B.
Proof.
  unfold msum, madd. revert B; induction A as [|a A IH]; intros [|b B] Hl HA HB;
    try discriminate; simpl.
  - lra.
  - inversion HA; inversion HB; subst.
    rewrite vsum_vadd by auto. rewrite IH by (simpl in *; auto; lia). lra.
Qed.

Lemma msum_concat (M : Mat) : msum M = vsum (concat M).
Proof.
  unfold msum. induction M as [|row M IH]; simpl; [reflexivity|].
  now rewrite vsum_app, IH.
Qed.

Lemma msum_zeros2 (n k : nat) : msum (zeros2 n k) = 0.
Proof.
  unfold msum, zeros2. induction n as [|n IH]; simpl; [reflexivity|].
  rewrite IH. unfold zeros.
  assert (vsum (repeat 0 k) = 0)
    by (clear; induction k; simpl; lra).
  lra.
Qed.

(** One adjacent pair adds a matrix of total mass 1 to [xi_sum]. *)
Lemma accumulate_xi_mass (K : nat) (log_trans log_B la lb : Mat)
  (len : nat) (xi xi' : Mat) :
  (1 <= K)%nat ->
  nonneg_matrix K K xi ->
  accumulate_xi K log_trans log_B la lb len xi = Ok xi' ->
  nonneg_matrix K K xi' /\ msum xi' = msum xi + INR (len - 1).
Proof.
  intros HK Hxi H. unfold accumulate_xi in H.
  assert (Hl : (len - 1)%nat = length (seq 0 (len - 1)))
    by (now rewrite length_seq).
  rewrite Hl. clear Hl.
  revert xi Hxi H. generalize (seq 0 (len - 1)) as l.
  induction l as [|t l IH]; intros xi Hxi H.
  - simpl in H. injection H as <-. simpl. split; [exact Hxi | lra].
  - rewrite forM_cons in H. apply bind_ok in H.
    destruct H as [x1 [H1 H]].
    apply bind_ok in H1; destruct H1 as [lx [Hlx H1]].
    cbv zeta in H1. injection H1 as <-.
    assert (Hshape : length lx = K /\ Forall (fun row => length row = K) lx).
    { split.
      - apply mapM_length in Hlx. now rewrite length_seq in Hlx.
      - eapply mapM_Forall; [|exact Hlx]. intros i row _ Hrow.
        apply mapM_length in Hrow. now rewrite length_seq in Hrow. }
    destruct Hshape as [HlK Hrows].
    set (z := logsumexp (concat lx)) in *.
    set (ex := map (map (fun x => exp (x - z))) lx) in *.
    assert (Hex : positive_matrix K ex).
    { split; [unfold ex; now rewrite length_map|].
      unfold ex. apply Forall_map. eapply Forall_impl; [|exact Hrows].
      intros row Hrow. split; [now rewrite length_map|].
      apply Forall_map, Forall_forall; intros v _. apply exp_pos. }
    assert (Hmass : msum ex = 1).
    { rewrite msum_concat. unfold ex. rewrite <- concat_map.
      rewrite <- (map_map (fun x => x - z) exp).
      apply softmax_sums_to_1.
      destruct lx as [|[|x row] lx]; simpl in *; try lia; try discriminate.
      inversion Hrows; subst. simpl in *. lia. }
    pose proof (madd_positive K xi ex Hxi Hex) as Hpos.
    destruct (IH _ (positive_is_nonneg K _ Hpos) H) as [Hnn Hm].
    split; [exact Hnn|]. rewrite Hm.
    rewrite (msum_madd K xi ex).
    + rewrite Hmass. change (length (t :: l)) with (S (length l)).
      rewrite S_INR. lra.
    + destruct Hxi as [Hl _]. destruct Hex as [Hl' _]. congruence.
    + destruct Hxi as [_ HF]. eapply Forall_impl; [|exact HF].
      intros row [Hrow _]; exact Hrow.
    + destruct Hex as [_ HF]. eapply Forall_impl; [|exact HF].
      intros row [Hrow _]; exact Hrow.
Qed.

Section Posteriors.

Context {L : Learner}.

Lemma fb_loop_mass (K : nat) (log_start : list R) (log_trans E : Mat)
  (lengths : list nat) (st st' : fb_state) :
  (1 <= K)%nat ->
  nonneg_matrix K K (xi_sum st) ->
  forM lengths (fb_chain K log_start log_trans E) st = Ok st' ->
  nonneg_matrix K K (xi_sum st')
  /\ msum (xi_sum st')
     = msum (xi_sum st)
       + INR (list_sum (map (fun len => (len - 1)%nat) lengths)).
Proof.
  intros HK. revert st; induction lengths as [|len rest IH]; intros st Hxi H.
  - simpl in H. injection H as <-. simpl. split; [exact Hxi | lra].
  - rewrite forM_cons in H. apply bind_ok in H; destruct H as [s1 [H1 H]].
    assert (H1' : nonneg_matrix K K (xi_sum s1)
                  /\ msum (xi_sum s1) = msum (xi_sum st) + INR (len - 1)).
    { unfold fb_chain in H1.
      apply bind_ok in H1; destruct H1 as [la [_ H1]].
      apply bind_ok in H1; destruct H1 as [lb [_ H1]].
      apply bind_ok in H1; destruct H1 as [g' [_ H1]].
      apply bind_ok in H1; destruct H1 as [xi' [Hacc H1]].
      injection H1 as <-. simpl.
      eapply accumulate_xi_mass; eauto. }
    destruct H1' as [Hnn Hm].
    destruct (IH s1 Hnn H) as [Hnn' Hm'].
    split; [exact Hnn'|]. rewrite Hm', Hm. simpl. rewrite plus_INR. lra.
Qed.

(** The rows of [gamma] for a segmentation that covers the matrix. *)
Lemma forward_backward_posteriors (m : MSRF) (E : Mat)
  (lengths : list nat) (gamma xi_sum : Mat) (total : R) :
  (1 <= n_states m)%nat ->
  list_sum lengths = length E ->
  _forward_backward m E lengths = Ok (gamma, xi_sum, total) ->
  length gamma = length E
  /\ Forall (fun row => length row = n_states m
                        /\ Forall (fun x => 0 < x <= 1) row
                        /\ vsum row = 1) gamma.
Proof.
  intros HK Hsum H.
  destruct (startprob_ m) as [startprob|] eqn:Hs;
    [|unfold _forward_backward in H; rewrite Hs in H; discriminate].
  destruct (transmat_ m) as [transmat|] eqn:Ht;
    [|unfold _forward_backward in H; rewrite Hs, Ht in H; discriminate].
  destruct (forward_backward_unfold m startprob transmat E lengths _
              Hs Ht H) as [st [Hloop Hr]].
  injection Hr as -> _ _.
  pose proof (fb_loop_likelihood _ _ _ _ _ _ _ Hloop) as (Hc & _ & _).
  apply (fb_loop_gamma _ _ _ _
           (fun row => length row = n_states m
                       /\ Forall (fun x => 0 < x <= 1) row
                       /\ vsum row = 1)) in Hloop.
  - destruct Hloop as [Hlen HF]. simpl in Hlen, Hc.
    assert (HN : length (zeros2 (length E) (n_states m)) = length E)
      by (unfold zeros2; apply repeat_length).
    rewrite HN in Hlen. split; [exact Hlen|].
    rewrite Hc, Hsum, <- Hlen, firstn_all in HF. exact HF.
  - intros row Hrow.
    destruct (posterior_row_entries _ _ HK Hrow) as [H1 H2].
    repeat split; auto. now apply posterior_row_sums_to_1 with (K := n_states m).
  - simpl. constructor.
Qed.

(** X3.  With at least one regime, every entry of the [gamma] that
    [_forward_backward] returns for a segmentation covering the matrix is
    a probability, between 0 and 1, and every row has [n_states]
    entries. *)
Theorem forward_backward_gamma_entries (m : MSRF) (E : Mat)
  (lengths : list nat) (gamma xi_sum : Mat) (total : R) :
  (1 <= n_states m)%nat ->
  list_sum lengths = length E ->
  _forward_backward m E lengths = Ok (gamma, xi_sum, total) ->
  Forall (fun row => length row = n_states m
                     /\ Forall (fun x => 0 <= x <= 1) row) gamma.
Proof.
  intros HK Hsum H.
  destruct (forward_backward_posteriors m E lengths gamma xi_sum total
              HK Hsum H) as [_ HF].
  eapply Forall_impl; [|exact HF]. intros row (H1 & H2 & _).
  split; [exact H1|].
  eapply Forall_impl; [|exact H2]. intros x Hx. simpl in Hx. lra.
Qed.

(** X4.  With at least one regime, the [xi_sum] that [_forward_backward]
    returns is an [n_states] by [n_states] matrix without a negative
    entry whose entries add up to the number of adjacent pairs of
    samples, [sum(L - 1)] over the chains: each pair contributes a
    distribution over regime pairs. *)
Theorem forward_backward_xi_sum_mass (m : MSRF) (E : Mat)
  (lengths : list nat) (gamma xi_sum : Mat) (total : R) :
  (1 <= n_states m)%nat ->
  _forward_backward m E lengths = Ok (gamma, xi_sum, total) ->
  nonneg_matrix (n_states m) (n_states m) xi_sum
  /\ msum xi_sum = INR (list_sum (map (fun len => (len - 1)%nat) lengths)).
Proof.
  intros HK H.
  destruct (startprob_ m) as [startprob|] eqn:Hs;
    [|unfold _forward_backward in H; rewrite Hs in H; discriminate].
  destruct (transmat_ m) as [transmat|] eqn:Ht;
    [|unfold _forward_backward in H; rewrite Hs, Ht in H; discriminate].
  destruct (forward_backward_unfold m startprob transmat E lengths _
              Hs Ht H) as [st [Hloop Hr]].
  injection Hr as _ -> _.
  apply fb_loop_mass in Hloop; auto; [|apply zeros2_nonneg].
  simpl in Hloop. rewrite msum_zeros2, Rplus_0_l in Hloop. exact Hloop.
Qed.

End Posteriors.

(** ** [predict_proba] *)



Section PredictProba.

Context {L : Learner}.


Lemma predict_proba_cases (m : MSRF) (X_input : XInput) (probs : Mat) :
  predict_proba m X_input = Ok probs ->
  exists X_flat lengths conf gamma xi_sum total final,
    segment X_input = Ok (X_flat, lengths)
    /\ _get_expert_confidence m X_flat = Ok conf
    /\ _forward_backward m (map log_floor conf) lengths
       = Ok (gamma, xi_sum, total)
    /\ forM (seq 0 (n_states m))
         (fun k final_risk_prob =>
            e <- getitem (experts m) k ;;
            expert_risk <- positive_class (map (rf_predict_proba e) X_flat) ;;
            Ok (vadd (length X_flat) final_risk_prob
                  (vmul (length X_flat) (column k gamma) expert_risk)))
         (zeros (length X_flat)) = Ok final
    /\ probs = map (fun p => [1 - p; p]) final.
Proof.
  unfold predict_proba; intros H.
  apply bind_ok in H; destruct H as [[X lens] [Hseg H]].
  apply bind_ok in H; destruct H as [conf [Hc H]].
  apply bind_ok in H; destruct H as [[[g xi] t] [Hfb H]].
  apply bind_ok in H; destruct H as [final [Hf H]].
  injection H as <-.
  exists X, lens, conf, g, xi, t, final. auto.
Qed.



End PredictProba.

(** ** Objects that cannot predict *)

Section Unfit.

Context {L : Learner}.

(** X6.  An object that has been constructed with a mode string of ASCII
    characters but not fit cannot predict: on any array, [predict_proba]
    and [predict] raise [TypeError] when the lower-cased mode is one of
    the two known ones ([startprob_] is still [None]), and the scorer's
    [ValueError] otherwise. *)
Theorem predict_proba_before_fit (K n : nat) (cfg : RFConfig) (tl : R)
  (md : string) (X : list Sample) :
  isascii md = true ->
  let m := __init__ K n cfg tl md in
  (lower md = "confidence"%string \/ lower md = "risk"%string ->
   predict_proba m (Array X) = Raise TypeError
   /\ predict m (Array X) = Raise TypeError)
  /\ (lower md <> "confidence"%string -> lower md <> "risk"%string ->
      predict_proba m (Array X)
      = Raise (ValueError ("Unknown mode: " ++ lower md))
      /\ predict m (Array X)
         = Raise (ValueError ("Unknown mode: " ++ lower md))).
Proof.
  intros _ m. split.
  - intros Hmode.
    assert (H : predict_proba m (Array X) = Raise TypeError).
    { unfold predict_proba, _get_expert_confidence, expert_scores. simpl.
      destruct Hmode as [Hm|Hm]; rewrite Hm; reflexivity. }
    split; [exact H|]. unfold predict. now rewrite H.
  - intros Hc Hr.
    assert (H : predict_proba m (Array X)
                = Raise (ValueError ("Unknown mode: " ++ lower md))).
    { unfold predict_proba, _get_expert_confidence, expert_scores. simpl.
      apply String.eqb_neq in Hc, Hr. rewrite Hc, Hr. reflexivity. }
    split; [exact H|]. unfold predict. now rewrite H.
Qed.

(** [np.vstack] on arrays that differ in their column count. *)
Lemma vstack_mismatch (Xs : list ndarray) (a b : ndarray) :
  In a Xs -> In b Xs -> fst (atleast_2d a) <> fst (atleast_2d b) ->
  exists msg, vstack Xs = Raise (ValueError msg).
Proof.
  intros Ha Hb Hne. unfold vstack.
  destruct Xs as [|x Xs]; [inversion Ha|].
  change (map atleast_2d (x :: Xs))
    with (atleast_2d x :: map atleast_2d Xs).
  cbv beta iota.
  destruct (forallb (fun c => Nat.eqb (fst c) (fst (atleast_2d x)))
              (map atleast_2d Xs)) eqn:Hw; [|eauto].
  exfalso. rewrite forallb_forall in Hw.
  assert (Hall : forall c, In c (x :: Xs) ->
                           fst (atleast_2d c) = fst (atleast_2d x)).
  { intros c [<-|Hc]; [reflexivity|].
    apply Nat.eqb_eq, Hw. now apply in_map. }
  apply Hne. rewrite (Hall a Ha), (Hall b Hb). reflexivity.
Qed.

(** X7.  A list of arrays one of which has length 0, [np.array([])] or a
    2-D array without rows: [predict_proba] never returns.  When another
    array of the list differs from it in the column count, the exception
    is the [ValueError] of [np.vstack].  When the arrays stack, the empty
    one having at least one column, to a matrix with a sample, then on an
    initialised object with at least one regime and two-column experts
    the exception is the [IndexError] of the forward pass on the chain of
    length 0. *)
Theorem predict_proba_empty_chain (m : MSRF) (Xs : list ndarray)
  (x : ndarray) :
  In x Xs -> array_len x = 0%nat ->
  (forall probs, predict_proba m (ArrayList Xs) <> Ok probs)
  /\ (forall x',
         In x' Xs -> fst (atleast_2d x') <> fst (atleast_2d x) ->
         exists msg, predict_proba m (ArrayList Xs) = Raise (ValueError msg))
  /\ ((forall (e : Expert) (x : Sample),
          (2 <= length (rf_predict_proba e x))%nat) ->
      runnable m -> (1 <= n_states m)%nat ->
      (1 <= fst (atleast_2d x))%nat ->
      forall X_flat lengths,
        segment (ArrayList Xs) = Ok (X_flat, lengths) -> X_flat <> [] ->
        predict_proba m (ArrayList Xs) = Raise IndexError).
Proof.
  intros Hin Hlen.
  assert (Hzero : ~ Forall (fun len => 1 <= len)%nat (map array_len Xs)).
  { intros HF. rewrite Forall_forall in HF.
    specialize (HF (array_len x) (in_map array_len Xs x Hin)). lia. }
  split; [|split].
  - intros probs H. apply predict_proba_cases in H.
    destruct H as (X & lens & conf & g & xi & t & final & Hseg & _ & Hfb & _).
    apply segment_cases in Hseg. destruct Hseg as [_ ->].
    apply Hzero. now apply forward_backward_returns_fits in Hfb.
  - intros x' Hx' Hne.
    destruct (vstack_mismatch Xs x' x Hx' Hin Hne) as [msg Hv].
    exists msg. unfold predict_proba, segment. now rewrite Hv.
  - intros Hpp Hrun HK _ X_flat lengths Hseg _.
    pose proof (segment_cases _ _ _ Hseg) as [_ Hlens].
    destruct Hrun as (Hmode & Hes & Hs & Ht).
    destruct (proj2 (get_expert_confidence_rows_aux m X_flat))
      as [conf Hc]; auto; [lia|].
    destruct (predict_proba_engine m _ _ _ conf Hseg Hc) as [Hraise _].
    destruct (startprob_ m) as [sp|] eqn:Hsp; [|congruence].
    destruct (transmat_ m) as [tm|] eqn:Htm; [|congruence].
    destruct (forward_backward_domain m sp tm (map log_floor conf) lengths
                HK Hsp Htm) as [Hiff Hidx].
    destruct (_forward_backward m (map log_floor conf) lengths)
      as [r|e] eqn:E.
    + exfalso. apply Hzero. rewrite <- Hlens.
      apply (proj1 Hiff). eauto.
    + rewrite (Hidx e eq_refl) in *. now apply Hraise.
Qed.

Lemma score_experts_overflow (K : nat)
  (f : nat -> Expert -> result (list R)) (es : list Expert) :
  (forall k e err, f k e = Raise err -> err = IndexError) ->
  forall k scores,
    (k <= K < k + length es)%nat ->
    score_experts K f k es scores = Raise IndexError.
Proof.
  intros Hf; induction es as [|e es IH]; simpl; intros k scores Hk; [lia|].
  destruct (f k e) as [col|err] eqn:E; simpl.
  - destruct (Nat.ltb_spec k K); [|reflexivity]. apply IH. lia.
  - now rewrite (Hf k e err E).
Qed.

(** X8.  More experts than regimes: in either known mode the emission
    scorer raises [IndexError] on any samples. *)
Theorem get_expert_confidence_too_many_experts (m : MSRF)
  (X : list Sample) :
  mode m = "confidence"%string \/ mode m = "risk"%string ->
  (n_states m < length (experts m))%nat ->
  X <> [] ->
  _get_expert_confidence m X = Raise IndexError.
Proof.
  intros Hmode Hlen _. unfold _get_expert_confidence, expert_scores.
  destruct Hmode as [Hm|Hm]; rewrite Hm; simpl.
  - rewrite score_experts_overflow; [reflexivity | | simpl; lia].
    intros k e err H; discriminate.
  - rewrite score_experts_overflow; [reflexivity | | simpl; lia].
    intros k e err H. unfold risk_scores, positive_class in H.
    destruct (forallb _ _); simpl in H; [|congruence].
    destruct (Nat.ltb k (n_states m)); congruence.
Qed.

End Unfit.

(** ** What [_init_params] leaves *)

Lemma vsum_map_plus {A : Type} (f g : A -> R) (l : list A) :
  vsum (map (fun a => f a + g a) l) = vsum (map f l) + vsum (map g l).
Proof.
  induction l as [|a l IH]; simpl; [lra | rewrite IH; lra].
Qed.

Lemma indicator_sum_out (l n a : nat) :
  (l < a)%nat ->
  vsum (map (fun i => if Nat.eq_dec l i then 1 else 0) (seq a n)) = 0.
Proof.
  revert a; induction n as [|n IH]; intros a Hl; simpl; [reflexivity|].
  destruct (Nat.eq_dec l a); [lia|]. rewrite IH by lia. lra.
Qed.

Lemma indicator_sum_in (l n a : nat) :
  (a <= l < a + n)%nat ->
  vsum (map (fun i => if Nat.eq_dec l i then 1 else 0) (seq a n)) = 1.
Proof.
  revert a; induction n as [|n IH]; intros a Hl; simpl; [lia|].
  destruct (Nat.eq_dec l a) as [->|Hne].
  - rewrite indicator_sum_out by lia. lra.
  - rewrite IH by lia. lra.
Qed.

(** The counts of [np.bincount] add up to the number of labels. *)
Lemma counts_sum (n : nat) (labels : list nat) :
  Forall (fun l => l < n)%nat labels ->
  vsum (map (fun i => INR (count_occ Nat.eq_dec labels i)) (seq 0 n))
  = INR (length labels).
Proof.
  induction 1 as [|l labels Hl _ IH].
  - simpl. induction (seq 0 n) as [|i s IHs]; simpl; [reflexivity | lra].
  - rewrite (map_ext _ (fun i => (if Nat.eq_dec l i then 1 else 0)
                                 + INR (count_occ Nat.eq_dec labels i))).
    + rewrite vsum_map_plus, IH, indicator_sum_in by lia.
      change (length (l :: labels)) with (S (length labels)).
      rewrite S_INR. lra.
    + intros i. simpl. destruct (Nat.eq_dec l i); [rewrite S_INR|]; lra.
Qed.

Lemma bincount_sum (labels : list nat) (K : nat) :
  vsum (bincount labels K) = INR (length labels).
Proof.
  unfold bincount. apply counts_sum.
  destruct labels as [|l labels]; [constructor|].
  apply Forall_forall; intros x Hx.
  assert (Hmax : (x <= list_max (l :: labels))%nat).
  { pose proof (proj1 (list_max_le (l :: labels) (list_max (l :: labels)))
                  (Nat.le_refl _)) as HF.
    rewrite Forall_forall in HF. auto. }
  lia.
Qed.

Lemma bincount_length (labels : list nat) (K : nat) :
  Forall (fun l => l < K)%nat labels -> length (bincount labels K) = K.
Proof.
  intros HF. unfold bincount. rewrite length_map, length_seq.
  destruct labels as [|l labels]; [reflexivity|].
  assert (Hmax : (list_max (l :: labels) <= K - 1)%nat).
  { apply list_max_le. eapply Forall_impl; [|exact HF]. intros; simpl in *; lia. }
  inversion HF; subst. lia.
Qed.

Lemma count_transitions_nonneg (K : nat) (labels : list nat) (tc : Mat) :
  count_transitions K labels = Ok tc -> nonneg_matrix K K tc.
Proof.
  unfold count_transitions; intros H.
  apply (forM_invariant (nonneg_matrix K K)) in H; auto;
    [|apply zeros2_nonneg].
  clear. intros t x x' _ [HK HM] Hb.
  destruct (Nat.ltb (nth t labels 0%nat) K && Nat.ltb (nth (S t) labels 0%nat) K)
    eqn:Hguard; [|discriminate].
  injection Hb as <-.
  apply andb_true_iff in Hguard. destruct Hguard as [Hc _].
  apply Nat.ltb_lt in Hc.
  unfold set2, get2. split; [now rewrite set_nth_length|].
  apply set_nth_Forall; [|exact HM].
  rewrite Forall_forall in HM.
  destruct (HM (nth (nth t labels 0%nat) x [])) as [Hl Hnn].
  { apply nth_In. lia. }
  split; [now rewrite set_nth_length|].
  apply set_nth_Forall; [|exact Hnn].
  pose proof (nth_nonneg _ (nth (S t) labels 0%nat) Hnn). lra.
Qed.

Lemma nth_map_in {A : Type} (f : A -> R) (l : list A) (k : nat) (d : A) :
  (k < length l)%nat -> nth k (map f l) 0 = f (nth k l d).
Proof.
  revert k; induction l as [|a l IH]; intros [|k] H; simpl in *;
    try lia; auto.
  apply IH; lia.
Qed.

Section InitParams.

Context {L : Learner}.

(** X9.  After [_init_params] on at least one sample, entry [k] of
    [startprob_] is the number of samples that were given cluster label
    [k], divided by the number of samples: a value between 0 and 1.
    Every sample is counted in one entry.  There are [n_states] entries
    when the labels are below [n_states]. *)
Theorem init_params_startprob (m : MSRF) (X : list Sample) (y : list Label)
  (rng : Rng) (m0 : MSRF) (rng0 : Rng) :
  _init_params m X y rng = Ok (m0, rng0) ->
  exists labels startprob,
    KMeans_fit_predict (n_states m) X = Ok labels
    /\ startprob_ m0 = Some startprob
    /\ (labels <> [] ->
        forall k, (k < length startprob)%nat ->
                  nth k startprob 0
                  = INR (count_occ Nat.eq_dec labels k)
                    / INR (length labels)
                  /\ 0 <= nth k startprob 0 <= 1)
    /\ Forall (fun l => l < length startprob)%nat labels
    /\ (Forall (fun l => l < n_states m)%nat labels ->
        length startprob = n_states m).
Proof.
  intros H. destruct (init_params_fields _ _ _ _ _ _ H)
    as (labels & tc & Hk & _ & Hs & _).
  exists labels. eexists. split; [exact Hk|]. split; [exact Hs|].
  rewrite bincount_sum. split; [|split].
  - intros Hne k Hlt.
    assert (HN : 0 < INR (length labels)).
    { apply lt_0_INR. destruct labels; simpl; [congruence | lia]. }
    rewrite length_map in Hlt. unfold bincount in *.
    rewrite length_map, length_seq in Hlt.
    rewrite (nth_map_in _ _ _ 0) by (now rewrite length_map, length_seq).
    rewrite (nth_map_in _ _ _ 0%nat) by (now rewrite length_seq).
    rewrite seq_nth by exact Hlt. simpl Nat.add.
    split; [reflexivity|].
    pose proof (count_occ_bound Nat.eq_dec k labels) as Hb.
    apply le_INR in Hb. pose proof (pos_INR (count_occ Nat.eq_dec labels k)).
    split.
    + apply Rmult_le_pos; [assumption|]. left. now apply Rinv_0_lt_compat.
    + apply (Rmult_le_reg_r (INR (length labels))); [exact HN|].
      unfold Rdiv. rewrite Rmult_assoc, Rinv_l by lra. lra.
  - rewrite length_map. unfold bincount. rewrite length_map, length_seq.
    destruct labels as [|l labels]; [constructor|].
    apply Forall_forall; intros x Hx.
    assert (Hmax : (x <= list_max (l :: labels))%nat).
    { pose proof (proj1 (list_max_le (l :: labels) (list_max (l :: labels)))
                    (Nat.le_refl _)) as HF.
      rewrite Forall_forall in HF. auto. }
    lia.
  - intros HF. rewrite length_map. now apply bincount_length.
Qed.

(** A count of transitions is no more than the count of its row. *)
Lemma normalized_entry (row : list R) (x : R) :
  Forall (Rle 0) row -> In x row ->
  0 <= x / (vsum row + 1e-10) <= 1.
Proof.
  intros Hrow Hx.
  pose proof (vsum_nonneg row Hrow) as HS.
  assert (Hle : x <= vsum row) by now apply entry_le_vsum.
  assert (H0 : 0 <= x) by (rewrite Forall_forall in Hrow; auto).
  assert (Hd : 0 < vsum row + 1e-10) by lra.
  split.
  - apply Rmult_le_pos; [exact H0|]. left. now apply Rinv_0_lt_compat.
  - apply (Rmult_le_reg_r (vsum row + 1e-10)); [exact Hd|].
    unfold Rdiv. rewrite Rmult_assoc, Rinv_l by lra. lra.
Qed.

(** X10.  After [_init_params], [transmat_] is an [n_states] by
    [n_states] matrix: entry [(i, j)] is the count of observed
    transitions from cluster [i] to cluster [j] divided by the count of
    all transitions out of [i] plus 1e-10, a value between 0 and 1, and
    the row of a regime that is never left is all zeros. *)
Theorem init_params_transmat (m : MSRF) (X : list Sample) (y : list Label)
  (rng : Rng) (m0 : MSRF) (rng0 : Rng) :
  _init_params m X y rng = Ok (m0, rng0) ->
  exists labels trans_counts transmat,
    KMeans_fit_predict (n_states m) X = Ok labels
    /\ count_transitions (n_states m) labels = Ok trans_counts
    /\ nonneg_matrix (n_states m) (n_states m) trans_counts
    /\ transmat_ m0 = Some transmat
    /\ length transmat = n_states m
    /\ Forall2 (fun row counts =>
                  length row = n_states m
                  /\ row = map (fun c => c / (vsum counts + 1e-10)) counts
                  /\ Forall (fun p => 0 <= p <= 1) row
                  /\ (vsum counts = 0 -> Forall (eq 0) row))
         transmat trans_counts.
Proof.
  intros H. destruct (init_params_fields _ _ _ _ _ _ H)
    as (labels & tc & Hk & Hc & _ & Ht & _).
  pose proof (count_transitions_nonneg _ _ _ Hc) as [HK HM].
  exists labels, tc. eexists. repeat split; eauto.
  - unfold div_rows_by. now rewrite length_map.
  - unfold div_rows_by. clear -HM.
    induction HM as [|row tc [Hl Hrow] _ IH]; simpl; constructor; auto.
    repeat split.
    + now rewrite length_map.
    + apply Forall_forall. intros p Hp.
      apply in_map_iff in Hp. destruct Hp as [c [<- Hc]].
      now apply normalized_entry.
    + intros Hz. apply Forall_forall. intros p Hp.
      apply in_map_iff in Hp. destruct Hp as [c [<- Hc]].
      assert (Hc0 : c = 0).
      { pose proof (vsum_nonneg row Hrow).
        assert (c <= vsum row) by now apply entry_le_vsum.
        rewrite Forall_forall in Hrow. specialize (Hrow c Hc). lra. }
      rewrite Hc0. unfold Rdiv. now rewrite Rmult_0_l.
Qed.

Lemma init_experts_warm_start (n : nat) (cfg : RFConfig) (X : list Sample)
  (y : list Label) (rng : Rng) :
  Forall (fun e =>
            exists r, e = fst (rf_fit (RandomForestClassifier cfg) X y None r))
    (fst (init_experts n cfg X y rng)).
Proof.
  revert rng; induction n as [|n IH]; intros rng; simpl; [constructor|].
  destruct (rf_fit (RandomForestClassifier cfg) X y None rng)
    as [rf r1] eqn:E.
  specialize (IH r1).
  destruct (init_experts n cfg X y r1) as [es r2]. simpl in *.
  constructor; [|exact IH].
  exists rng. now rewrite E.
Qed.

(** X11.  After [_init_params] there are exactly [n_states] experts, and
    each is a fresh forest of the object's configuration fit once on all
    of [(X, y)] without sample weights. *)
Theorem init_params_experts (m : MSRF) (X : list Sample) (y : list Label)
  (rng : Rng) (m0 : MSRF) (rng0 : Rng) :
  _init_params m X y rng = Ok (m0, rng0) ->
  length (experts m0) = n_states m
  /\ Forall (fun e =>
               exists r,
                 e = fst (rf_fit (RandomForestClassifier (rf_config m)) X y
                            None r))
       (experts m0).
Proof.
  intros H. destruct (init_params_fields _ _ _ _ _ _ H)
    as (_ & _ & _ & _ & _ & _ & Hes & _).
  rewrite Hes. split;
    [apply init_experts_length | apply init_experts_warm_start].
Qed.

End InitParams.

(** ** What [fit] leaves *)

Section FitResult.

Context {L : Learner}.

Variables (X_flat : list Sample) (y_flat : list Label) (lengths : list nat).

Lemma refit_experts_length (K : nat) (gamma : Mat) (es es' : list Expert)
  (rng rng' : Rng) :
  refit_experts K X_flat y_flat gamma es rng = Ok (es', rng') ->
  length es' = length es.
Proof.
  unfold refit_experts; intros H.
  apply (forM_invariant
           (fun acc : list Expert * Rng => length (fst acc) = length es))
    in H; auto.
  intros k acc acc' _ Hacc Hb.
  destruct (Rgtb _ _); [|congruence].
  apply bind_ok in Hb; destruct Hb as [e [_ Hb]].
  destruct (rf_fit e X_flat y_flat (Some (column k gamma)) (snd acc))
    as [e' r'].
  injection Hb as <-. simpl. now rewrite set_nth_length.
Qed.

(** One pass of the loop adds one entry to [monitor_] and leaves the
    configuration and the number of experts alone. *)
Lemma em_iteration_keeps (i : nat) (m m' : MSRF) (prev prev' : option R)
  (rng rng' : Rng) (fl : flow) :
  em_iteration X_flat y_flat lengths i (m, prev, rng)
  = Ok (fl, (m', prev', rng')) ->
  (exists curr, monitor_ m' = monitor_ m ++ [curr])
  /\ n_states m' = n_states m /\ n_iter m' = n_iter m
  /\ rf_config m' = rf_config m /\ tol m' = tol m /\ mode m' = mode m
  /\ length (experts m') = length (experts m)
  /\ (transmat_ m <> None -> transmat_ m' <> None)
  /\ (fl = Break -> (2 <= i)%nat).
Proof.
  intros H. apply em_iteration_cases in H.
  destruct H as (g & xi & c & _ & [(Hc & -> & Hst) | (_ & -> & Hst)]).
  - injection Hst as -> _ _. simpl.
    apply converged_true in Hc.
    repeat split; eauto; tauto.
  - destruct Hst as (es & r' & Hr & Hst). injection Hst as -> _ _. simpl.
    apply refit_experts_length in Hr.
    repeat split; eauto; discriminate.
Qed.

Lemma em_loop_keeps (n a : nat) (m m' : MSRF) (prev prev' : option R)
  (rng rng' : Rng) :
  em_loop X_flat y_flat lengths (seq a n) (m, prev, rng)
  = Ok (m', prev', rng') ->
  (exists added,
      monitor_ m' = monitor_ m ++ added
      /\ (length added <= n)%nat
      /\ (Nat.min n (3 - a) <= length added)%nat)
  /\ n_states m' = n_states m /\ n_iter m' = n_iter m
  /\ rf_config m' = rf_config m /\ tol m' = tol m /\ mode m' = mode m
  /\ length (experts m') = length (experts m)
  /\ (transmat_ m <> None -> transmat_ m' <> None).
Proof.
  revert a m prev rng; induction n as [|n IH]; intros a m prev rng H.
  - simpl in H. injection H as <- _ _.
    split; [exists []; rewrite app_nil_r; simpl; auto|]. repeat split; auto.
  - change (seq a (S n)) with (a :: seq (S a) n) in H.
    rewrite em_loop_cons in H. apply bind_ok in H.
    destruct H as [[fl [[m1 p1] r1]] [H1 H]]. simpl in H.
    apply em_iteration_keeps in H1.
    destruct H1 as ([curr Hmon] & HK & Hn & Hcfg & Htol & Hmode & Hes & Ht
                    & Hbreak).
    destruct fl.
    + apply IH in H.
      destruct H as ([added (Hmon' & Hle & Hge)] & HK' & Hn' & Hcfg' & Htol'
                     & Hmode' & Hes' & Ht').
      split.
      * exists (curr :: added). rewrite Hmon', Hmon, <- app_assoc.
        split; [reflexivity|].
        change (length (curr :: added)) with (S (length added)).
        split; lia.
      * repeat split; try congruence. auto.
    + injection H as <- _ _. specialize (Hbreak eq_refl).
      split.
      * exists [curr]. split; [exact Hmon|].
        change (length [curr]) with 1%nat. split; lia.
      * repeat split; auto.
Qed.

End FitResult.

Section FitGuarantees.

Context {L : Learner}.

(** X12.  [fit] starts [monitor_] afresh and records one log-likelihood
    per EM pass: at most [n_iter] of them, and at least [min(n_iter, 3)],
    the convergence test never stopping the loop before its third pass. *)
Theorem fit_monitor_length (m : MSRF) (data : TrainingInput) (rng : Rng)
  (m' : MSRF) (rng' : Rng) :
  fit m data rng = Ok (m', rng') ->
  (length (monitor_ m') <= n_iter m)%nat
  /\ (Nat.min (n_iter m) 3 <= length (monitor_ m'))%nat.
Proof.
  intros H. apply fit_cases in H.
  destruct H as (X & y & lens & m0 & rng0 & p' & _ & Hinit & Hloop).
  destruct (init_params_fields _ _ _ _ _ _ Hinit)
    as (_ & _ & _ & _ & _ & _ & _ & _ & _ & Hiter & _).
  apply em_loop_keeps in Hloop.
  destruct Hloop as ([added (Hmon & Hle & Hge)] & _).
  simpl in Hmon. rewrite Hmon. rewrite Hiter in *. split; lia.
Qed.

(** X13.  An object that [fit] returns is ready for [predict_proba]:
    [n_states], [n_iter], [tol], [mode] and the forest configuration are
    those it was constructed with, there is exactly one expert per regime,
    and [startprob_] and [transmat_] are set. *)
Theorem fit_result_ready (m : MSRF) (data : TrainingInput) (rng : Rng)
  (m' : MSRF) (rng' : Rng) :
  fit m data rng = Ok (m', rng') ->
  n_states m' = n_states m /\ n_iter m' = n_iter m /\ tol m' = tol m
  /\ mode m' = mode m /\ rf_config m' = rf_config m
  /\ length (experts m') = n_states m
  /\ startprob_ m' <> None /\ transmat_ m' <> None.
Proof.
  intros H. apply fit_cases in H.
  destruct H as (X & y & lens & m0 & rng0 & p' & _ & Hinit & Hloop).
  pose proof (em_loop_startprob _ _ _ _ _ _ _ _ _ _ Hloop) as Hsp.
  apply em_loop_keeps in Hloop.
  destruct Hloop as (_ & HK & Hn & Hcfg & Htol & Hmode & Hes & Ht).
  simpl in *.
  unfold _init_params in Hinit.
  apply bind_ok in Hinit; destruct Hinit as [labels [_ Hinit]].
  apply bind_ok in Hinit; destruct Hinit as [tc [_ Hinit]].
  pose proof (init_experts_length (n_states m) (rf_config m) X y rng) as Hlen.
  destruct (init_experts (n_states m) (rf_config m) X y rng) as [es r].
  injection Hinit as <- _. simpl in *.
  repeat split; try congruence.
  apply Ht. discriminate.
Qed.

End FitGuarantees.

Section MStep.

Context {L : Learner}.

Lemma em_loop_stochastic (X_flat : list Sample) (y_flat : list Label)
  (lengths : list nat) (iters : list nat) (m m' : MSRF)
  (prev prev' : option R) (rng rng' : Rng) :
  Exists (fun len => 2 <= len)%nat lengths ->
  em_loop X_flat y_flat lengths iters (m, prev, rng) = Ok (m', prev', rng') ->
  transmat_ m' = transmat_ m
  \/ exists T, transmat_ m' = Some T /\ row_stochastic (n_states m) T.
Proof.
  intros Hex. revert m prev rng; induction iters as [|i rest IH];
    intros m prev rng H.
  - simpl in H. injection H as <- _ _. now left.
  - rewrite em_loop_cons in H. apply bind_ok in H.
    destruct H as [[fl [[m1 p1] r1]] [H1 H]]. simpl in H.
    destruct fl.
    + pose proof (em_iteration_startprob _ _ _ _ _ _ _ _ _ _ _ H1)
        as (_ & HK & _).
      apply (em_iteration_transmat_stochastic _ _ _ _ _ _ _ _ _ _ Hex) in H1.
      destruct H1 as (T & HT & Hlen & Hrows).
      right. destruct (IH _ _ _ H) as [Hsame | (T' & HT' & Hst)].
      * exists T. split; [congruence | split; assumption].
      * exists T'. rewrite HK in Hst. auto.
    + injection H as <- _ _.
      apply em_iteration_cases in H1.
      destruct H1 as (g & xi & c & _ & [(_ & _ & Hst) | (_ & Hfl & _)]);
        [|discriminate].
      injection Hst as -> _ _. now left.
Qed.

(** X14.  Training data with a chain of two samples or more, and at least
    one EM pass: the [transmat_] that [fit] leaves is an [n_states] by
    [n_states] matrix of positive entries whose every row sums to 1. *)
Theorem fit_transmat_row_stochastic (m : MSRF) (data : TrainingInput)
  (rng : Rng) (m' : MSRF) (rng' : Rng) (X_flat : list Sample)
  (y_flat : list Label) (lengths : list nat) :
  fit m data rng = Ok (m', rng') ->
  fit_segment data = Ok (X_flat, y_flat, lengths) ->
  Exists (fun len => 2 <= len)%nat lengths ->
  (1 <= n_iter m)%nat ->
  exists T, transmat_ m' = Some T /\ row_stochastic (n_states m) T.
Proof.
  intros H Hseg Hex Hn. apply fit_cases in H.
  destruct H as (X & y & lens & m0 & rng0 & p' & Hseg' & Hinit & Hloop).
  rewrite Hseg in Hseg'. injection Hseg' as <- <- <-.
  destruct (init_params_fields _ _ _ _ _ _ Hinit)
    as (_ & _ & _ & _ & _ & _ & _ & HK & _ & Hiter & _).
  rewrite Hiter in Hloop.
  destruct (n_iter m) as [|n]; [lia|].
  change (seq 0 (S n)) with (0%nat :: seq 1 n) in Hloop.
  rewrite em_loop_cons in Hloop. apply bind_ok in Hloop.
  destruct Hloop as [[fl [[m1 p1] r1]] [H1 Hloop]]. simpl in Hloop.
  pose proof (em_iteration_startprob _ _ _ _ _ _ _ _ _ _ _ H1)
    as (_ & HK1 & _).
  simpl in HK1.
  destruct fl.
  - apply (em_iteration_transmat_stochastic _ _ _ _ _ _ _ _ _ _ Hex) in H1.
    destruct H1 as (T & HT & Hlen & Hrows). simpl in Hlen, Hrows.
    destruct (em_loop_stochastic _ _ _ _ _ _ _ _ _ _ Hex Hloop)
      as [Hsame | (T' & HT' & Hst)].
    + exists T. split; [congruence|]. rewrite <- HK. split; assumption.
    + exists T'. split; [exact HT'|]. congruence.
  - apply em_iteration_cases in H1.
    destruct H1 as (g & xi & c & _ & [(Hc & _ & _) | (_ & Hfl & _)]);
      [|discriminate].
    apply converged_true in Hc. lia.
Qed.

Lemma nth_error_set_nth_eq {A : Type} (i : nat) (v : A) (l : list A) :
  (i < length l)%nat -> nth_error (set_nth i v l) i = Some v.
Proof.
  revert i; induction l as [|h t IH]; intros [|i] H; simpl in *;
    try lia; auto.
  apply IH; lia.
Qed.

(** The refit loop from regime [a] on: regimes outside [a .. a+n-1] keep
    their expert, the others are refit where their weights allow. *)
Lemma refit_loop (X_flat : list Sample) (y_flat : list Label) (gamma : Mat)
  (n a : nat) (acc acc' : list Expert * Rng) :
  forM (seq a n)
    (fun k acc =>
       let weights := column k gamma in
       if Rgtb (vsum weights) 1e-5
       then e <- getitem (fst acc) k ;;
            let (e', rng') :=
              rf_fit e X_flat y_flat (Some weights) (snd acc) in
            Ok (set_nth k e' (fst acc), rng')
       else Ok acc)
    acc = Ok acc' ->
  (forall j, (j < a \/ a + n <= j)%nat ->
             nth_error (fst acc') j = nth_error (fst acc) j)
  /\ (forall k, (a <= k < a + n)%nat ->
                vsum (column k gamma) > 1e-5 ->
                exists e r,
                  nth_error (fst acc) k = Some e
                  /\ nth_error (fst acc') k
                     = Some (fst (rf_fit e X_flat y_flat
                                    (Some (column k gamma)) r))).
Proof.
  revert a acc; induction n as [|n IH]; intros a acc H.
  - simpl in H. injection H as <-. split; [auto | intros k Hk; lia].
  - change (seq a (S n)) with (a :: seq (S a) n) in H.
    rewrite forM_cons in H. apply bind_ok in H.
    destruct H as [acc1 [H1 H]].
    destruct (IH _ _ H) as [Hout Hin]. cbv zeta in H1.
    unfold Rgtb in H1.
    destruct (Rgt_dec (vsum (column a gamma)) 1e-5) as [Hgt|Hle].
    + apply bind_ok in H1; destruct H1 as [e [He H1]].
      destruct (rf_fit e X_flat y_flat (Some (column a gamma)) (snd acc))
        as [e' r'] eqn:Efit.
      injection H1 as <-. simpl in *.
      destruct (getitem_ok _ _ _ e He) as [Ha _].
      assert (He' : nth_error (fst acc) a = Some e).
      { unfold getitem in He. destruct (nth_error (fst acc) a);
          congruence. }
      split.
      * intros j Hj. rewrite Hout by lia.
        apply nth_error_set_nth_neq. lia.
      * intros k Hk Hgk.
        destruct (Nat.eq_dec k a) as [->|Hne].
        -- exists e, (snd acc). split; [exact He'|].
           rewrite Hout by lia. rewrite nth_error_set_nth_eq by exact Ha.
           now rewrite Efit.
        -- destruct (Hin k) as (e0 & r & H0 & H0'); [lia | exact Hgk |].
           exists e0, r. split; [|exact H0'].
           rewrite nth_error_set_nth_neq in H0 by lia. exact H0.
    + injection H1 as <-. split.
      * intros j Hj. apply Hout. lia.
      * intros k Hk Hgk.
        destruct (Nat.eq_dec k a) as [->|Hne]; [contradiction|].
        apply Hin; [lia | exact Hgk].
Qed.

(** X15.  In a pass of the EM loop that reaches the M-step, every regime
    [k] whose weight column [gamma[:, k]] sums above 1e-5 has its expert
    refit, once, from that expert's previous state, on all of
    [(X_flat, y_flat)] with [gamma[:, k]] as the sample weights. *)
Theorem fit_refits_weighted_expert (X_flat : list Sample)
  (y_flat : list Label) (lengths : list nat) (i : nat) (m m' : MSRF)
  (prev prev' : option R) (rng rng' : Rng) (gamma xi_sum : Mat) (curr : R)
  (k : nat) :
  e_step m X_flat lengths = Ok (gamma, xi_sum, curr) ->
  em_iteration X_flat y_flat lengths i (m, prev, rng)
  = Ok (Continue, (m', prev', rng')) ->
  (k < n_states m)%nat ->
  vsum (column k gamma) > 1e-5 ->
  exists e r,
    nth_error (experts m) k = Some e
    /\ nth_error (experts m') k
       = Some (fst (rf_fit e X_flat y_flat (Some (column k gamma)) r)).
Proof.
  intros He H Hk Hgt. apply em_iteration_cases in H.
  destruct H as (g & xi & c & He' & [(_ & Hfl & _) | (_ & _ & Hst)]);
    [discriminate|].
  destruct Hst as (es & r' & Hr & Hst). injection Hst as -> _ _. simpl.
  assert (g = gamma) by congruence; subst g.
  unfold refit_experts in Hr.
  destruct (refit_loop _ _ _ _ _ _ _ Hr) as [_ Hin].
  apply (Hin k); [lia | exact Hgt].
Qed.

End MStep.

(** * The further properties on small inputs *)

Lemma hmm2_forward_backward (lengths : list nat) :
  Forall (fun len => 1 <= len)%nat lengths ->
  (list_sum lengths <= 3)%nat ->
  exists gamma xi_sum total,
    @_forward_backward toy_learner hmm2 E3 lengths
    = Ok (gamma, xi_sum, total).
Proof.
  intros Hall Hsum.
  destruct (forward_backward_total (L := toy_learner) hmm2 [1 / 2; 1 / 2]
              [[9 / 10; 1 / 10]; [1 / 10; 9 / 10]] E3 lengths eq_refl eq_refl
              Hall Hsum) as [[[g xi] t] H].
  eauto.
Qed.

Lemma fresh1_fit_one_pair :
  exists m' rng', @fit toy_learner fresh1 one_pair 0%nat = Ok (m', rng').
Proof.
  destruct (fresh1_init [[0]; [1]] [0%nat; 1%nat] eq_refl)
    as (m0 & Hinit & Hrun & _ & _).
  destruct (fit_total (L := toy_learner) fresh1 one_pair 0%nat
              [[0]; [1]] [0%nat; 1%nat] [2%nat] m0 1%nat toy_two_columns
              eq_refl Hinit Hrun) as [[m' rng'] Hfit].
  - repeat constructor.
  - simpl; lia.
  - eauto.
Qed.

(** X1 on [hmm2]: the chains [[2; 1]] of three rows are accepted. *)
Lemma forward_backward_returns_iff_witness :
  exists r, @_forward_backward toy_learner hmm2 E3 [2; 1]%nat = Ok r.
Proof.
  destruct (forward_backward_returns_iff (L := toy_learner) hmm2
              [1 / 2; 1 / 2] [[9 / 10; 1 / 10]; [1 / 10; 9 / 10]] E3
              [2; 1]%nat) as [Hiff _];
    [simpl; lia | reflexivity | reflexivity | reflexivity | reflexivity
     | repeat constructor | repeat constructor |].
  apply Hiff. split; [repeat constructor | simpl; lia].
Defined.

(** X2 on [hmm2]: one chain of two samples against three rows leaves the
    third row of [gamma] at zero. *)
Lemma forward_backward_short_segmentation_witness :
  exists gamma xi_sum total,
    @_forward_backward toy_learner hmm2 E3 [2%nat]
    = Ok (gamma, xi_sum, total)
    /\ length gamma = 3%nat /\ skipn 2 gamma = [[0; 0]].
Proof.
  destruct (hmm2_forward_backward [2%nat]) as (g & xi & t & H).
  - repeat constructor.
  - simpl; lia.
  - exists g, xi, t. split; [exact H|].
    destruct (forward_backward_short_segmentation (L := toy_learner) hmm2 E3
                [2%nat] g xi t) as (Hlen & _ & Htail);
      [simpl; lia | exact H | auto].
Defined.

(** X3 on [hmm2] and the chains [[2; 1]]. *)
Lemma forward_backward_gamma_entries_witness :
  exists gamma xi_sum total,
    @_forward_backward toy_learner hmm2 E3 [2; 1]%nat
    = Ok (gamma, xi_sum, total)
    /\ Forall (fun row => length row = 2%nat
                          /\ Forall (fun x => 0 <= x <= 1) row) gamma.
Proof.
  destruct (hmm2_forward_backward [2; 1]%nat) as (g & xi & t & H).
  - repeat constructor.
  - simpl; lia.
  - exists g, xi, t. split; [exact H|].
    apply (forward_backward_gamma_entries (L := toy_learner) hmm2 E3
             [2; 1]%nat g xi t); [simpl; lia | reflexivity | exact H].
Defined.

(** X4 on [hmm2] and the chains [[2; 1]]: one adjacent pair, mass 1. *)
Lemma forward_backward_xi_sum_mass_witness :
  exists gamma xi_sum total,
    @_forward_backward toy_learner hmm2 E3 [2; 1]%nat
    = Ok (gamma, xi_sum, total)
    /\ msum xi_sum = 1.
Proof.
  destruct (hmm2_forward_backward [2; 1]%nat) as (g & xi & t & H).
  - repeat constructor.
  - simpl; lia.
  - exists g, xi, t. split; [exact H|].
    destruct (forward_backward_xi_sum_mass (L := toy_learner) hmm2 E3
                [2; 1]%nat g xi t) as [_ Hm]; [simpl; lia | exact H |].
    rewrite Hm. simpl. lra.
Defined.


Lemma risk1_runnable : runnable risk1.
Proof. repeat split; simpl; auto; discriminate. Qed.


(** X6 on [fresh1], constructed with mode ['Risk']. *)
Lemma predict_proba_before_fit_witness :
  @predict_proba toy_learner fresh1 (Array [[0]]) = Raise TypeError.
Proof.
  apply (proj1 (predict_proba_before_fit (L := toy_learner) 1 3 1 1e-3
                  "Risk" [[0]] eq_refl)).
  right; reflexivity.
Defined.

(** X7 on [risk1]: a 2-D array without rows beside one of one sample,
    and [np.array([])] beside it. *)
Lemma predict_proba_empty_chain_witness :
  @predict_proba toy_learner risk1
    (ArrayList [Array2 1 []; Array2 1 [[0]]]) = Raise IndexError
  /\ exists msg,
       @predict_proba toy_learner risk1
         (ArrayList [Array1 []; Array2 1 [[0]]]) = Raise (ValueError msg).
Proof.
  split.
  - destruct (predict_proba_empty_chain (L := toy_learner) risk1
                [Array2 1 []; Array2 1 [[0]]] (Array2 1 [])
                (or_introl eq_refl) eq_refl) as (_ & _ & H).
    apply (H toy_two_columns risk1_runnable (Nat.le_refl 1) (Nat.le_refl 1)
             [[0]] [0; 1]%nat eq_refl).
    discriminate.
  - destruct (predict_proba_empty_chain (L := toy_learner) risk1
                [Array1 []; Array2 1 [[0]]] (Array1 [])
                (or_introl eq_refl) eq_refl) as (_ & H & _).
    apply (H (Array2 1 [[0]])); [right; left; reflexivity | simpl; lia].
Defined.

(** X8 on [crowded1]: two experts for one regime. *)
Lemma get_expert_confidence_too_many_experts_witness :
  @_get_expert_confidence toy_learner crowded1 [[0]] = Raise IndexError.
Proof.
  apply (get_expert_confidence_too_many_experts (L := toy_learner) crowded1
           [[0]]).
  - right; reflexivity.
  - simpl; lia.
  - discriminate.
Defined.

(** X9 on [fresh1] and two samples, both in cluster 0: the one start
    probability is [2 / 2]. *)
Lemma init_params_startprob_witness :
  exists m0 startprob,
    @_init_params toy_learner fresh1 [[0]; [1]] [0%nat; 1%nat] 0%nat
    = Ok (m0, 1%nat)
    /\ startprob_ m0 = Some startprob
    /\ length startprob = 1%nat
    /\ nth 0 startprob 0 = INR 2 / INR 2
    /\ 0 <= nth 0 startprob 0 <= 1.
Proof.
  destruct (fresh1_init [[0]; [1]] [0%nat; 1%nat] eq_refl)
    as (m0 & Hinit & _).
  destruct (init_params_startprob (L := toy_learner) fresh1 [[0]; [1]]
              [0%nat; 1%nat] 0%nat m0 1%nat Hinit)
    as (labels & sp & Hk & Hs & Hent & _ & Hlen).
  simpl in Hk. injection Hk as <-.
  assert (Hl : length sp = 1%nat) by (apply Hlen; repeat constructor).
  exists m0, sp. split; [exact Hinit|]. split; [exact Hs|].
  split; [exact Hl|].
  apply (Hent ltac:(discriminate) 0%nat). rewrite Hl. lia.
Defined.

(** X10 on [fresh1] and two samples. *)
Lemma init_params_transmat_witness :
  exists m0 trans_counts transmat,
    @_init_params toy_learner fresh1 [[0]; [1]] [0%nat; 1%nat] 0%nat
    = Ok (m0, 1%nat)
    /\ transmat_ m0 = Some transmat
    /\ length transmat = 1%nat
    /\ Forall2 (fun row counts =>
                  length row = 1%nat
                  /\ row = map (fun c => c / (vsum counts + 1e-10)) counts
                  /\ Forall (fun p => 0 <= p <= 1) row
                  /\ (vsum counts = 0 -> Forall (eq 0) row))
         transmat trans_counts.
Proof.
  destruct (fresh1_init [[0]; [1]] [0%nat; 1%nat] eq_refl)
    as (m0 & Hinit & _).
  destruct (init_params_transmat (L := toy_learner) fresh1 [[0]; [1]]
              [0%nat; 1%nat] 0%nat m0 1%nat Hinit)
    as (labels & tc & T & _ & _ & _ & Ht & Hlen & HF).
  exists m0, tc, T. auto.
Defined.

(** X11 on [fresh1] and two samples: one expert, fit on both. *)
Lemma init_params_experts_witness :
  exists m0,
    @_init_params toy_learner fresh1 [[0]; [1]] [0%nat; 1%nat] 0%nat
    = Ok (m0, 1%nat)
    /\ length (experts m0) = 1%nat.
Proof.
  destruct (fresh1_init [[0]; [1]] [0%nat; 1%nat] eq_refl)
    as (m0 & Hinit & _).
  exists m0. split; [exact Hinit|].
  exact (proj1 (init_params_experts (L := toy_learner) fresh1 [[0]; [1]]
                  [0%nat; 1%nat] 0%nat m0 1%nat Hinit)).
Defined.

(** X12 on [fresh1] with [n_iter = 3]: three passes, three entries. *)
Lemma fit_monitor_length_witness :
  exists m' rng',
    @fit toy_learner fresh1 one_pair 0%nat = Ok (m', rng')
    /\ length (monitor_ m') = 3%nat.
Proof.
  destruct fresh1_fit_one_pair as (m' & rng' & Hfit).
  exists m', rng'. split; [exact Hfit|].
  destruct (fit_monitor_length (L := toy_learner) fresh1 one_pair 0%nat m'
              rng' Hfit) as [Hle Hge].
  simpl in Hle, Hge. lia.
Defined.

(** X13 on [fresh1]. *)
Lemma fit_result_ready_witness :
  exists m' rng',
    @fit toy_learner fresh1 one_pair 0%nat = Ok (m', rng')
    /\ n_states m' = 1%nat /\ mode m' = "risk"%string
    /\ length (experts m') = 1%nat.
Proof.
  destruct fresh1_fit_one_pair as (m' & rng' & Hfit).
  exists m', rng'. split; [exact Hfit|].
  destruct (fit_result_ready (L := toy_learner) fresh1 one_pair 0%nat m'
              rng' Hfit) as (HK & _ & _ & Hmode & _ & Hes & _).
  auto.
Defined.

(** X14 on [fresh1] and one chain of two samples. *)
Lemma fit_transmat_row_stochastic_witness :
  exists m' rng' T,
    @fit toy_learner fresh1 one_pair 0%nat = Ok (m', rng')
    /\ transmat_ m' = Some T /\ row_stochastic 1 T.
Proof.
  destruct fresh1_fit_one_pair as (m' & rng' & Hfit).
  destruct (fit_transmat_row_stochastic (L := toy_learner) fresh1 one_pair
              0%nat m' rng' [[0]; [1]] [0%nat; 1%nat] [2%nat] Hfit eq_refl)
    as (T & HT & Hst).
  - constructor. lia.
  - simpl; lia.
  - exists m', rng', T. auto.
Defined.

(** X15 on [starved2]: the first regime carries all but [1e-10 / (1 +
    2e-10)] of the weight of the one sample, and its expert [1/2] is refit
    with that weight, to [1/4]. *)
Lemma fit_refits_weighted_expert_witness :
  exists m' prev' rng',
    @em_iteration toy_learner [[0]] [1%nat] [1%nat] 0
      (starved2, None, 0%nat) = Ok (Continue, (m', prev', rng'))
    /\ nth_error (experts m') 0 = Some (1 / 2 / 2).
Proof.
  destruct starved2_e_step as (g0 & b & total & He).
  destruct (em_iteration_total (L := toy_learner) [[0]] [1%nat] [1%nat] 0
              starved2 None 0%nat _ He) as (fl & [[m' p'] r'] & Hit);
    [simpl; lia|].
  assert (Hfl : fl = Continue).
  { destruct fl; [reflexivity|].
    pose proof (em_iteration_keeps _ _ _ _ _ _ _ _ _ _ _ Hit)
      as (_ & _ & _ & _ & _ & _ & _ & _ & Hb).
    specialize (Hb eq_refl). lia. }
  subst fl. exists m', p', r'. split; [exact Hit|].
  destruct (fit_refits_weighted_expert (L := toy_learner) [[0]] [1%nat]
              [1%nat] 0 starved2 m' None p' 0%nat r' _ _ _ 0%nat He Hit)
    as (e & r & He0 & He1).
  - simpl; lia.
  - unfold e_step in He. apply bind_ok in He.
    destruct He as [conf [Hc Hfb]].
    pose proof (proj1 (get_expert_confidence_rows_aux (L := toy_learner)
                         starved2 [[0]]) conf Hc) as Hlen.
    assert (HK : (1 <= n_states starved2)%nat) by (simpl; lia).
    assert (Hsum1 : list_sum [1%nat] = length (map log_floor conf))
      by (rewrite length_map, Hlen; reflexivity).
    destruct (forward_backward_posteriors (L := toy_learner) starved2
                (map log_floor conf) [1%nat] _ _ _ HK Hsum1 Hfb) as [_ HF].
    inversion HF as [|row rest (_ & _ & Hsum) _]; subst.
      simpl in Hsum. simpl.
      rewrite two_state_posterior in Hsum by lra.
      assert (Hsmall : (0 + 1e-10) / (1 + 1e-10 + (0 + 1e-10)) < 1e-5).
      { apply (Rmult_lt_reg_r (1 + 1e-10 + (0 + 1e-10))); [lra|].
        unfold Rdiv at 1. rewrite Rmult_assoc, Rinv_l by lra. lra. }
      lra.
  - simpl in He0. injection He0 as <-. exact He1.
Defined.

(** * The entry points on lists of arrays *)

(** C10 on a list of two 2-D arrays, of one and of two samples, whose
    lengths sum to the three rows, and on a list of two 1-D arrays of two
    entries each, whose lengths are [[2; 2]] for two rows. *)
Lemma chain_lengths_sum_to_row_count_witness :
  (exists X_flat lengths,
      segment (ArrayList [Array2 1 [[0]]; Array2 1 [[1]; [2]]])
      = Ok (X_flat, lengths)
      /\ lengths = [1; 2]%nat
      /\ list_sum lengths = length X_flat)
  /\ segment (ArrayList [Array1 [0; 1]; Array1 [2; 3]])
     = Ok ([[0; 1]; [2; 3]], [2; 2]%nat).
Proof.
  destruct (chain_lengths_sum_to_row_count (L := toy_learner))
    as (Hseg & _ & _ & _ & H1d).
  split.
  - exists [[0]; [1]; [2]], [1; 2]%nat.
    split; [reflexivity|]. split; [reflexivity|].
    destruct (Hseg (ArrayList [Array2 1 [[0]]; Array2 1 [[1]; [2]]])
                [[0]; [1]; [2]] [1; 2]%nat eq_refl) as (_ & _ & Hsum).
    apply Hsum. repeat constructor.
  - apply (H1d [0; 1] [[2; 3]]). repeat constructor.
Defined.

(** C10 as the specification words it fails: [predict_proba] on the list
    [[np.array([0., 1.])]].  The array is stacked as one row and its
    [len] is 2, so the chain lengths [[2]] do not sum to the row count 1;
    they reach [_forward_backward], whose forward pass raises
    [IndexError] at the second step. *)
Lemma chain_lengths_exceed_row_count :
  segment (ArrayList [Array1 [0; 1]]) = Ok ([[0; 1]], [2%nat])
  /\ list_sum [2%nat] <> length [[0; 1]]
  /\ (exists conf,
         @_get_expert_confidence toy_learner risk1 [[0; 1]] = Ok conf
         /\ @_forward_backward toy_learner risk1 (map log_floor conf)
              [2%nat] = Raise IndexError)
  /\ @predict_proba toy_learner risk1 (ArrayList [Array1 [0; 1]])
     = Raise IndexError.
Proof.
  split; [reflexivity|]. split; [simpl; lia|].
  destruct (proj2 (get_expert_confidence_rows_aux (L := toy_learner) risk1
                     [[0; 1]])) as [conf Hc].
  { right; reflexivity. }
  { simpl; lia. }
  { intros e x _ _. apply toy_two_columns. }
  pose proof (proj1 (get_expert_confidence_rows_aux (L := toy_learner)
                       risk1 [[0; 1]]) conf Hc) as Hlen.
  destruct (forward_backward_domain (L := toy_learner) risk1 [1] [[1]]
              (map log_floor conf) [2%nat] (Nat.le_refl 1) eq_refl eq_refl)
    as [Hiff Hidx].
  assert (Hfb : @_forward_backward toy_learner risk1 (map log_floor conf)
                  [2%nat] = Raise IndexError).
  { destruct (@_forward_backward toy_learner risk1 (map log_floor conf)
                [2%nat]) as [r|e] eqn:E.
    - exfalso. destruct (proj1 Hiff (ex_intro _ r eq_refl)) as [_ Hsum].
      rewrite length_map, Hlen in Hsum. simpl in Hsum. lia.
    - now rewrite (Hidx e eq_refl). }
  split; [exists conf; split; assumption|].
  apply (proj1 (predict_proba_engine (L := toy_learner) risk1
                  (ArrayList [Array1 [0; 1]]) [[0; 1]] [2%nat] conf
                  eq_refl Hc)).
  exact Hfb.
Qed.
